(** * multiproc: event application, exit status, line framing and the
      per-process event stream

    A shallow embedding of the parts of [github.com/a2y-d5l/multiproc]
    that the specification's properties speak about:

    - [renderer/state.go]: [ProcessState], the renderer events,
      [ConvertProcessLineToEvent], [ApplyEvent], [ExitCodeFromStates];
    - [engine]: [ProcessLine], [streamReader], [handleGracefulShutdown],
      [runProcess].

    Conventions.  Go's [int] is modelled as [Z] together with the
    two's-complement wrap-around of a 64-bit word ([GoInt]); [len] of a
    string is its number of bytes; a slice is a [list], indexed with
    stdpp's lookup and updated with stdpp's insert after the bounds check
    the source performs; the [error] interface is modelled by the values
    the engine builds. *)

From Stdlib Require Import ZArith Lia Bool Ascii String.
From stdpp Require Import base list strings pretty.

Local Open Scope Z_scope.

(** ** Go's [int] *)

Module GoInt.

Definition half : Z := 2 ^ 63.
Definition modulus : Z := 2 ^ 64.
Definition min_int : Z := - half.
Definition max_int : Z := half - 1.

(** The value an [int] variable holds after an arithmetic result [z]. *)
Definition wrap (z : Z) : Z := (z + half) mod modulus - half.

Definition add (a b : Z) : Z := wrap (a + b).
Definition sub (a b : Z) : Z := wrap (a - b).

Definition in_range (z : Z) : Prop := min_int <= z <= max_int.

End GoInt.

(** [len(s)] for a string: its length in bytes. *)
Definition len_string (s : string) : Z := Z.of_nat (String.length s).

(** [len(xs)] for a slice. *)
Definition len_slice {A} (xs : list A) : Z := Z.of_nat (length xs).

(** ** Errors

    The [error] values that flow through the engine: the sentinels
    [io.EOF] and [context.Canceled], opaque errors carrying a message
    ([errors.New], exit statuses, I/O faults), and [fmt.Errorf("p: %w", e)]
    wrappers. *)

Inductive error : Type :=
| io_EOF
| context_Canceled
| errorString (msg : string)
| wrapError (prefix : string) (inner : error).

Inductive sentinel : Type := SentinelEOF | SentinelCanceled.

(** [err.Error()] *)
Fixpoint Error (e : error) : string :=
  match e with
  | io_EOF => "EOF"
  | context_Canceled => "context canceled"
  | errorString msg => msg
  | wrapError prefix inner => prefix +:+ ": " +:+ Error inner
  end.

(** [errors.Is(e, target)] for a sentinel target: follows the [%w] chain. *)
Fixpoint errors_Is (e : error) (target : sentinel) : bool :=
  match e, target with
  | io_EOF, SentinelEOF => true
  | context_Canceled, SentinelCanceled => true
  | wrapError _ inner, _ => errors_Is inner target
  | _, _ => false
  end.

(** ** renderer/state.go *)

Record ProcessState : Type := mkProcessState {
  Err : option error;
  Name : string;
  Lines : list string;
  ByteSize : Z;
  MaxLines : Z;
  MaxBytes : Z;
  Done : bool;
  Running : bool;
  Dirty : bool
}.

(** [engine.ProcessLine] *)
Record ProcessLine : Type := mkProcessLine {
  plErr : option error;
  plLine : string;
  plIndex : Z;
  plIsComplete : bool
}.

(** The renderer's [Event] interface and its two implementations. *)
Inductive Event : Type :=
| lineEvent (line : string) (index : Z)
| doneEvent (err : option error) (index : Z).

Definition ConvertProcessLineToEvent (pl : ProcessLine) : Event :=
  if plIsComplete pl
  then doneEvent (plErr pl) (plIndex pl)
  else lineEvent (plLine pl) (plIndex pl).

(** The eviction loop of [ApplyEvent] (the [for] of state.go).  One call is one
    iteration of the [for]; the slice [ps.Lines] only shrinks, so the loop
    is a structural recursion over it.  [lines] and [byteSize] are the
    current [ps.Lines] and [ps.ByteSize]. *)
Fixpoint evictLoop (maxLines maxBytes : Z) (lines : list string) (byteSize : Z)
  : list string * Z :=
  let exceedsLineLimit := (maxLines >? 0) && (len_slice lines >? maxLines) in
  let exceedsByteLimit := (maxBytes >? 0) && (byteSize >? maxBytes) in
  if negb exceedsLineLimit && negb exceedsByteLimit then (lines, byteSize)
  else
    match lines with
    | [] => (lines, byteSize)
    | oldestLine :: rest =>
        evictLoop maxLines maxBytes rest (GoInt.sub byteSize (len_string oldestLine))
    end.

(** The body of the [lineEvent] case on [ps := &states[e.Index]]. *)
Definition applyLine (ps : ProcessState) (line : string) : ProcessState :=
  let lineBytes := len_string line in
  let lines1 := Lines ps ++ [line] in
  let size1 := GoInt.add (ByteSize ps) lineBytes in
  let '(lines2, size2) := evictLoop (MaxLines ps) (MaxBytes ps) lines1 size1 in
  {| Err := Err ps; Name := Name ps;
     Lines := lines2; ByteSize := size2;
     MaxLines := MaxLines ps; MaxBytes := MaxBytes ps;
     Done := Done ps; Running := Running ps;
     Dirty := true |}.

(** The body of the [doneEvent] case on [ps := &states[e.Index]]. *)
Definition applyDone (ps : ProcessState) (err : option error) : ProcessState :=
  {| Err := err; Name := Name ps;
     Lines := Lines ps; ByteSize := ByteSize ps;
     MaxLines := MaxLines ps; MaxBytes := MaxBytes ps;
     Done := true; Running := false;
     Dirty := true |}.

(** [xs[i]] on a slice: [None] is Go's index-out-of-range panic. *)
Definition indexSlice {A} (xs : list A) (i : Z) : option A :=
  if (i <? 0) || (i >=? len_slice xs) then None else xs !! Z.to_nat i.

(** [ApplyEvent] mutates the slice in place; here it returns the slice
    after the call, or [None] if the call panics. *)
Definition ApplyEvent (states : list ProcessState) (ev : Event)
  : option (list ProcessState) :=
  match ev with
  | lineEvent line i =>
      if (i <? 0) || (i >=? len_slice states) then Some states
      else
        match indexSlice states i with
        | Some ps => Some (<[Z.to_nat i := applyLine ps line]> states)
        | None => None
        end
  | doneEvent err i =>
      if (i <? 0) || (i >=? len_slice states) then Some states
      else
        match indexSlice states i with
        | Some ps => Some (<[Z.to_nat i := applyDone ps err]> states)
        | None => None
        end
  end.

(** [ExitCodeFromStates] *)
Fixpoint ExitCodeFromStates (states : list ProcessState) : Z :=
  match states with
  | [] => 0
  | ps :: rest =>
      match Err ps with
      | Some _ => 1
      | None => ExitCodeFromStates rest
      end
  end.

(** Applying a sequence of events, one [ApplyEvent] call after the other
    (the main loop of [runner.Run]). *)
Fixpoint applyAll (states : list ProcessState) (evs : list Event)
  : option (list ProcessState) :=
  match evs with
  | [] => Some states
  | ev :: rest =>
      match ApplyEvent states ev with
      | Some states' => applyAll states' rest
      | None => None
      end
  end.

(** The initial render state [runner.Run] builds for a process
    (runner.go, "Build initial render state"). *)
Definition newProcessState (name : string) (maxLines maxBytes : Z) : ProcessState :=
  {| Name := name; Lines := []; Done := false; Err := None; Running := true;
     Dirty := true; ByteSize := 0; MaxLines := maxLines; MaxBytes := maxBytes |}.

(** The process index an event carries. *)
Definition eventIndex (ev : Event) : Z :=
  match ev with
  | lineEvent _ i => i
  | doneEvent _ i => i
  end.

(** *** Properties of a buffer *)

(** The sum of the byte lengths of the lines, as Go computes it:
    [total := 0; for _, l := range lines { total += len(l) }]. *)
Definition byteTotal (lines : list string) : Z :=
  fold_left (fun total l => GoInt.add total (len_string l)) lines 0.

(** The same sum in the integers. *)
Definition sumLen (lines : list string) : Z :=
  fold_right (fun l total => len_string l + total) 0 lines.

(** [ByteSize] is the total number of bytes stored in [Lines]. *)
Definition accounted (ps : ProcessState) : Prop :=
  ByteSize ps = byteTotal (Lines ps).

(** The dual constraint: each configured (positive) cap bounds its
    quantity. *)
Definition withinCaps (ps : ProcessState) : Prop :=
  (0 < MaxLines ps -> len_slice (Lines ps) <= MaxLines ps) /\
  (0 < MaxBytes ps -> ByteSize ps <= MaxBytes ps).

(** *** The update on a line event, in the specification's words *)

(** Either the configured line cap or the byte cap is exceeded (a cap
    that is not positive is no cap). *)
Definition capExceeded (maxLines maxBytes : Z) (lines : list string) (byteSize : Z) : bool :=
  ((maxLines >? 0) && (len_slice lines >? maxLines))
  || ((maxBytes >? 0) && (byteSize >? maxBytes)).

(** "Repeatedly evict the oldest retained line (decrementing the byte
    total by its length) while either cap is exceeded and the buffer is
    non-empty": [evicts b b'] relates the buffer contents before the
    repetition and after it. *)
Inductive evicts (maxLines maxBytes : Z) : list string * Z -> list string * Z -> Prop :=
| evicts_stop lines byteSize :
    capExceeded maxLines maxBytes lines byteSize
      && negb (len_slice lines =? 0) = false ->
    evicts maxLines maxBytes (lines, byteSize) (lines, byteSize)
| evicts_oldest oldest rest byteSize result :
    capExceeded maxLines maxBytes (oldest :: rest) byteSize = true ->
    evicts maxLines maxBytes (rest, GoInt.sub byteSize (len_string oldest)) result ->
    evicts maxLines maxBytes (oldest :: rest, byteSize) result.

(** "Append the line, add its byte length to the running total, then
    evict ..., and mark the buffer dirty." *)
Definition lineUpdate (ps : ProcessState) (line : string) (ps' : ProcessState) : Prop :=
  evicts (MaxLines ps) (MaxBytes ps)
         (Lines ps ++ [line], GoInt.add (ByteSize ps) (len_string line))
         (Lines ps', ByteSize ps')
  /\ Dirty ps' = true.

(** ** engine: the line framer

    [streamReader] drives a [bufio.Scanner] with the default split function
    [bufio.ScanLines] and trims each token with [strings.TrimRight].  The
    scanner and the string functions belong to Go's standard library; they
    are modelled here from their documented behaviour. *)

Definition LF : Ascii.ascii := "010"%char.
Definition CR : Ascii.ascii := "013"%char.

(** The cutset literal ["\r\n"]. *)
Definition crlf : string := String CR (String LF EmptyString).

(** [bytes.IndexByte(data, c)]: index of the first [c], or -1. *)
Fixpoint IndexByte (data : string) (c : ascii) : Z :=
  match data with
  | EmptyString => -1
  | String a rest =>
      if Ascii.eqb a c then 0
      else let i := IndexByte rest c in if i <? 0 then -1 else i + 1
  end.

(** [data[lo:hi]] *)
Definition slice (data : string) (lo hi : Z) : string :=
  String.substring (Z.to_nat lo) (Z.to_nat (hi - lo)) data.

(** [data[lo:]] *)
Definition sliceFrom (data : string) (lo : Z) : string :=
  slice data lo (len_string data).

(** bufio's [dropCR]: drops one terminal ["\r"]. *)
Definition dropCR (data : string) : string :=
  if (len_string data >? 0) &&
     match String.get (Z.to_nat (len_string data - 1)) data with
     | Some a => Ascii.eqb a CR
     | None => false
     end
  then slice data 0 (len_string data - 1)
  else data.

(** [bufio.ScanLines(data, atEOF)], returning [(advance, token)]; a [nil]
    token is [None].  The end-of-line marker is one optional carriage
    return followed by one mandatory newline; the last non-empty line is
    returned even without a newline. *)
Definition ScanLines (data : string) (atEOF : bool) : Z * option string :=
  if atEOF && (len_string data =? 0) then (0, None)
  else
    let i := IndexByte data LF in
    if i >=? 0 then (i + 1, Some (dropCR (slice data 0 i)))
    else if atEOF then (len_string data, Some (dropCR data))
    else (0, None).

(** What a pipe delivers: the bytes read before a [Read] fails, and the
    error of the failing [Read] ([io.EOF] when the stream closes cleanly). *)
Record Stream : Type := mkStream {
  stream_data : string;
  stream_err : error
}.

(** What a scan shows: the tokens [Text()] returns while [Scan()] returns
    true, and what [Err()] returns once [Scan()] has returned false. *)
Record Scan : Type := mkScan {
  scan_tokens : list string;
  scan_err : option error
}.

(** A [*bufio.Scanner], by its behaviour: the scan it performs, given the
    size its buffer may grow to. *)
Definition Scanner : Type := Z -> Scan.

(** [scanner.Buffer(buf, max)] and the scan after it: the buffer starts as
    [buf] and may grow to [max] bytes. *)
Definition Scanner_Buffer (scanner : Scanner) (bufCap max : Z) : Scan :=
  scanner (Z.max bufCap max).

Definition scannerInitialBufferSize : Z := 64 * 1024.
Definition scannerMaxBufferSize : Z := 1024 * 1024.

(** [bufio.ErrTooLong] *)
Definition bufio_ErrTooLong : error := errorString "bufio.Scanner: token too long".

(** The next token fits the buffer: a line with its newline must fit; a
    last line without a newline must leave the buffer room for the read
    that meets the end of the stream. *)
Definition tokenFits (maxTokenSize : Z) (data : string) : bool :=
  let i := IndexByte data LF in
  if i >=? 0 then i + 1 <=? maxTokenSize else len_string data <? maxTokenSize.

(** Successive [Scan()] calls over the data the stream delivers: the
    tokens, and [bufio.ErrTooLong] if scanning stops at a token that does
    not fit.  [ScanLines] returns a token as soon as the buffer holds a
    newline, whatever follows it and whatever [atEOF] is
    ([ScanLines_more_data] below), and otherwise asks for more data until
    the buffer is full or the read fails; so the tokens are those of the
    whole data scanned with [atEOF = true].  Each token advances by at
    least one byte: [fuel] bounds the number of calls. *)
Fixpoint scanLoop (maxTokenSize : Z) (fuel : nat) (data : string)
  : list string * option error :=
  match fuel with
  | O => ([], None)
  | S fuel' =>
      match ScanLines data true with
      | (advance, Some token) =>
          if tokenFits maxTokenSize data
          then
            let '(tokens, err) := scanLoop maxTokenSize fuel' (sliceFrom data advance) in
            (token :: tokens, err)
          else ([], Some bufio_ErrTooLong)
      | (_, None) => ([], None)
      end
  end.

Definition scanAll (maxTokenSize : Z) (data : string) : list string * option error :=
  scanLoop maxTokenSize (S (String.length data)) data.

(** [Err()]: the error scanning stopped at, where the end of the stream is
    no error. *)
Definition scanErrOf (tooLong : option error) (readErr : error) : option error :=
  match tooLong with
  | Some err => Some err
  | None =>
      match readErr with
      | io_EOF => None
      | err => Some err
      end
  end.

(** [bufio.NewScanner(r)] *)
Definition bufio_NewScanner (r : Stream) : Scanner :=
  fun maxTokenSize =>
    {| scan_tokens := fst (scanAll maxTokenSize (stream_data r));
       scan_err := scanErrOf (snd (scanAll maxTokenSize (stream_data r))) (stream_err r) |}.

(** [strings.TrimRight(s, cutset)]: removes every trailing byte that is in
    [cutset]. *)
Fixpoint inCutset (a : ascii) (cutset : string) : bool :=
  match cutset with
  | EmptyString => false
  | String c rest => Ascii.eqb a c || inCutset a rest
  end.

Fixpoint TrimRight (s cutset : string) : string :=
  match s with
  | EmptyString => EmptyString
  | String a rest =>
      match TrimRight rest cutset with
      | EmptyString => if inCutset a cutset then EmptyString else String a EmptyString
      | r => String a r
      end
  end.

(** A line event and a completion event as the engine builds them. *)
Definition lineOf (idx : Z) (line : string) : ProcessLine :=
  {| plErr := None; plLine := line; plIndex := idx; plIsComplete := false |}.

Definition completeOf (idx : Z) (err : option error) : ProcessLine :=
  {| plErr := err; plLine := EmptyString; plIndex := idx; plIsComplete := true |}.

(** [streamReader]: the events it sends on [output], in order.  After the
    buffer is set, the [for scanner.Scan()] loop sends one trimmed line per
    token; afterwards a non-nil, non-EOF [scanner.Err()] is reported as one
    more line. *)
Definition streamReader (scanner : Scanner) (idx : Z) : list ProcessLine :=
  let scan := Scanner_Buffer scanner scannerInitialBufferSize scannerMaxBufferSize in
  map (fun token => lineOf idx (TrimRight token crlf)) (scan_tokens scan)
  ++ match scan_err scan with
     | Some err =>
         if negb (errors_Is err SentinelEOF)
         then [lineOf idx ("[stream error: " +:+ Error err +:+ "]")]
         else []
     | None => []
     end.

(** The text lines a stream is framed into. *)
Definition framedLines (r : Stream) : list string :=
  map plLine (streamReader (bufio_NewScanner r) 0).

(** *** Properties of framed lines *)

(** The last byte of a string, if any. *)
Fixpoint lastByte (s : string) : option Ascii.ascii :=
  match s with
  | EmptyString => None
  | String a EmptyString => Some a
  | String _ rest => lastByte rest
  end.

(** The string ends with a carriage return or a newline. *)
Definition endsWithEOL (s : string) : bool :=
  match lastByte s with
  | Some a => inCutset a crlf
  | None => false
  end.

(** No byte of the string is a carriage return or a newline. *)
Fixpoint plainText (s : string) : bool :=
  match s with
  | EmptyString => true
  | String a rest => negb (inCutset a crlf) && plainText rest
  end.

(** No byte of the string is a newline. *)
Definition noNewline (s : string) : bool := IndexByte s LF <? 0.

(** [sep] is a line terminator of the input: a text that holds no newline
    and does not end with a carriage return, followed by [sep], is framed
    as one line holding the text, and framing goes on with what follows
    [sep].  The text may hold carriage returns before its last byte.  (A
    line that does not fit the scanner's buffer stops the scan.) *)
Definition terminatesLine (sep : string) : Prop :=
  forall (text rest : string) (err : error),
    noNewline text = true ->
    endsWithEOL text = false ->
    len_string text + len_string sep <= scannerMaxBufferSize ->
    framedLines (mkStream (text +:+ sep +:+ rest) err)
    = text :: framedLines (mkStream rest err).

(** ** engine: the process task and the engine

    [Engine.Run] starts one goroutine per spec running [runProcess]; each
    of them starts two [streamReader] goroutines and one goroutine that
    waits for the readers and then for the command.  The goroutines of one
    task are modelled as one configuration (a program point per goroutine
    plus the wait group counter, the [done] channel and the observed state
    of [ctx]) with an interleaving step function: [successors] lists every
    step some goroutine can take next, with the event that step sends on
    [output], if any.  The environment is the one in which a task can end:
    the streams are finite, [cmd.Wait()] returns, and the consumer of
    [output] keeps receiving, so that no send blocks for ever. *)

Record ProcessSpec : Type := mkProcessSpec {
  specName : string;
  specCommand : string;
  specArgs : list string;
  specMaxLines : Z;
  specMaxBytes : Z
}.

(** What the methods of a [Command] answer: [(value, error)] results are
    sums, [error] results are options. *)
Record Command : Type := mkCommand {
  cmdStdoutPipe : Stream + error;
  cmdStderrPipe : Stream + error;
  cmdStart : option error;
  cmdWait : option error
}.

Definition CommandFactory : Type := ProcessSpec -> Command + error.

Record Engine : Type := mkEngine {
  engCommandFactory : option CommandFactory;
  Specs : list ProcessSpec;
  ShutdownTimeout : Z
}.

(** [time.Duration] counts nanoseconds. *)
Definition time_Second : Z := 1000000000.
Definition defaultShutdownTimeout : Z := 5 * time_Second.
Definition streamGoRoutines : Z := 2.

(** Program points of [runProcess] and, inlined, [handleGracefulShutdown]:
    the statement the goroutine executes next. *)
Inductive MainPC : Type :=
| AtFactory                                 (* cmd, err := factory(ctx, spec) *)
| AtStdoutPipe (cmd : Command)              (* stdout, err := cmd.StdoutPipe() *)
| AtStderrPipe (cmd : Command) (stdout : Stream)
                                            (* stderr, err := cmd.StderrPipe() *)
| AtStart (cmd : Command) (stdout stderr : Stream)
                                            (* cmd.Start(), then the go statements *)
| AtSelect                                  (* select: <-done / <-ctx.Done() *)
| AtCancelled                               (* cause := context.Cause(ctx) *)
| AtProcess                                 (* proc := cmd.Process() *)
| AtShutdownSelect                          (* select: <-done / <-time.After(..) *)
| AtGraceful (waitErr : option error)       (* send "[gracefully terminated]" *)
| AtKillWait                                (* after proc.Kill(): waitErr := <-done *)
| AtForceKilled (waitErr : option error)    (* send "[force killed]" *)
| AtExitedWait                              (* proc == nil: waitErr := <-done *)
| AtComplete (waitErr : option error)       (* send the completion event *)
| Returned.

(** A [streamReader] goroutine: the events it still has to send, then
    its deferred [wg.Done()]. *)
Inductive ReaderPC : Type :=
| ReaderNotStarted
| ReaderSending (pending : list ProcessLine)
| ReaderExited.

(** The goroutine [streamsWG.Wait(); done <- cmd.Wait()]. *)
Inductive WaiterPC : Type :=
| WaiterNotStarted
| WaiterAtStreams (cmd : Command)
| WaiterAtCmdWait (cmd : Command)
| WaiterExited.

Record Config : Type := mkConfig {
  cfgMain : MainPC;
  cfgStdout : ReaderPC;
  cfgStderr : ReaderPC;
  cfgWaiter : WaiterPC;
  streamsWG : Z;
  done : option (option error);   (* the buffered channel of capacity 1 *)
  ctxDone : bool                  (* ctx.Done() is closed *)
}.

Definition initConfig : Config :=
  {| cfgMain := AtFactory; cfgStdout := ReaderNotStarted;
     cfgStderr := ReaderNotStarted; cfgWaiter := WaiterNotStarted;
     streamsWG := 0; done := None; ctxDone := false |}.

Definition withMain (pc : MainPC) (c : Config) : Config :=
  {| cfgMain := pc; cfgStdout := cfgStdout c; cfgStderr := cfgStderr c;
     cfgWaiter := cfgWaiter c; streamsWG := streamsWG c; done := done c;
     ctxDone := ctxDone c |}.

Definition withDone (d : option (option error)) (c : Config) : Config :=
  {| cfgMain := cfgMain c; cfgStdout := cfgStdout c; cfgStderr := cfgStderr c;
     cfgWaiter := cfgWaiter c; streamsWG := streamsWG c; done := d;
     ctxDone := ctxDone c |}.

Definition withStdout (r : ReaderPC) (wg : Z) (c : Config) : Config :=
  {| cfgMain := cfgMain c; cfgStdout := r; cfgStderr := cfgStderr c;
     cfgWaiter := cfgWaiter c; streamsWG := wg; done := done c;
     ctxDone := ctxDone c |}.

Definition withStderr (r : ReaderPC) (wg : Z) (c : Config) : Config :=
  {| cfgMain := cfgMain c; cfgStdout := cfgStdout c; cfgStderr := r;
     cfgWaiter := cfgWaiter c; streamsWG := wg; done := done c;
     ctxDone := ctxDone c |}.

Definition withWaiter (w : WaiterPC) (c : Config) : Config :=
  {| cfgMain := cfgMain c; cfgStdout := cfgStdout c; cfgStderr := cfgStderr c;
     cfgWaiter := w; streamsWG := streamsWG c; done := done c;
     ctxDone := ctxDone c |}.

Definition withCtxDone (c : Config) : Config :=
  {| cfgMain := cfgMain c; cfgStdout := cfgStdout c; cfgStderr := cfgStderr c;
     cfgWaiter := cfgWaiter c; streamsWG := streamsWG c; done := done c;
     ctxDone := true |}.

(** A step: the event sent on [output] by it, if any, and the next
    configuration. *)
Definition Step : Type := option ProcessLine * Config.

Section Engine.

(** What [exec.Cmd] does for a spec, for [DefaultCommandFactory]. *)
Variable osCommand : ProcessSpec -> Command.
(** [context.Cause(ctx)] once [ctx] is cancelled. *)
Variable ctxCause : option error.
(** [time.Duration]'s [String], which [%v] prints. *)
Variable Duration_String : Z -> string.

Definition DefaultCommandFactory : CommandFactory :=
  fun spec => inl (osCommand spec).

Variable eng : Engine.

(** [factory] of [Run]: the engine's factory, or the default one. *)
Definition factoryOf : CommandFactory :=
  match engCommandFactory eng with
  | None => DefaultCommandFactory
  | Some factory => factory
  end.

(** [shutdownTimeout] of [handleGracefulShutdown]: a non-positive
    configured value falls back to the default. *)
Definition shutdownTimeout : Z :=
  if ShutdownTimeout eng <=? 0 then defaultShutdownTimeout
  else ShutdownTimeout eng.

Variable idx : Z.
Variable spec : ProcessSpec.

(** Steps of the [runProcess] goroutine. *)
Definition mainSteps (c : Config) : list Step :=
  match cfgMain c with
  | AtFactory =>
      match factoryOf spec with
      | inr err =>
          [(Some (completeOf idx (Some (wrapError "create command" err))),
            withMain Returned c)]
      | inl cmd => [(None, withMain (AtStdoutPipe cmd) c)]
      end
  | AtStdoutPipe cmd =>
      match cmdStdoutPipe cmd with
      | inr err =>
          [(Some (completeOf idx (Some (wrapError "stdout pipe" err))),
            withMain Returned c)]
      | inl stdout => [(None, withMain (AtStderrPipe cmd stdout) c)]
      end
  | AtStderrPipe cmd stdout =>
      match cmdStderrPipe cmd with
      | inr err =>
          [(Some (completeOf idx (Some (wrapError "stderr pipe" err))),
            withMain Returned c)]
      | inl stderr => [(None, withMain (AtStart cmd stdout stderr) c)]
      end
  | AtStart cmd stdout stderr =>
      match cmdStart cmd with
      | Some startErr =>
          [(Some (completeOf idx (Some (wrapError "start" startErr))),
            withMain Returned c)]
      | None =>
          (* the three [go] statements, with [streamsWG.Add] and [make(chan error, 1)] *)
          [(None,
            {| cfgMain := AtSelect;
               cfgStdout := ReaderSending (streamReader (bufio_NewScanner stdout) idx);
               cfgStderr := ReaderSending (streamReader (bufio_NewScanner stderr) idx);
               cfgWaiter := WaiterAtStreams cmd;
               streamsWG := streamGoRoutines;
               done := None;
               ctxDone := ctxDone c |})]
      end
  | AtSelect =>
      match done c with
      | Some waitErr => [(None, withMain (AtComplete waitErr) (withDone None c))]
      | None => []
      end
      ++ (if ctxDone c then [(None, withMain AtCancelled c)] else [])
  | AtCancelled =>
      match ctxCause with
      | Some cause =>
          if negb (errors_Is cause SentinelCanceled)
          then [(Some (lineOf idx ("[cancellation: " +:+ Error cause +:+ "]")),
                 withMain AtProcess c)]
          else [(None, withMain AtProcess c)]
      | None => [(None, withMain AtProcess c)]
      end
  | AtProcess =>
      (* [cmd.Process()] answers a handle or nil *)
      [(Some (lineOf idx "[sending SIGTERM for graceful shutdown...]"),
        withMain AtShutdownSelect c);
       (None, withMain AtExitedWait c)]
  | AtShutdownSelect =>
      match done c with
      | Some waitErr => [(None, withMain (AtGraceful waitErr) (withDone None c))]
      | None => []
      end
      ++ [(Some (lineOf idx ("[graceful shutdown timeout ("
                             +:+ Duration_String shutdownTimeout
                             +:+ "), force killing...]")),
           withMain AtKillWait c)]
  | AtGraceful waitErr =>
      [(Some (lineOf idx "[gracefully terminated]"), withMain (AtComplete waitErr) c)]
  | AtKillWait =>
      match done c with
      | Some waitErr => [(None, withMain (AtForceKilled waitErr) (withDone None c))]
      | None => []
      end
  | AtForceKilled waitErr =>
      [(Some (lineOf idx "[force killed]"), withMain (AtComplete waitErr) c)]
  | AtExitedWait =>
      match done c with
      | Some waitErr => [(None, withMain (AtComplete waitErr) (withDone None c))]
      | None => []
      end
  | AtComplete waitErr =>
      [(Some (completeOf idx waitErr), withMain Returned c)]
  | Returned => []
  end.

(** Steps of a [streamReader] goroutine: send the next event, or run the
    deferred [wg.Done()]. *)
Definition readerSteps (r : ReaderPC) (wg : Z) : list (option ProcessLine * (ReaderPC * Z)) :=
  match r with
  | ReaderNotStarted => []
  | ReaderSending (ev :: pending) => [(Some ev, (ReaderSending pending, wg))]
  | ReaderSending [] => [(None, (ReaderExited, wg - 1))]
  | ReaderExited => []
  end.

Definition stdoutSteps (c : Config) : list Step :=
  map (fun '(ev, (r, wg)) => (ev, withStdout r wg c))
      (readerSteps (cfgStdout c) (streamsWG c)).

Definition stderrSteps (c : Config) : list Step :=
  map (fun '(ev, (r, wg)) => (ev, withStderr r wg c))
      (readerSteps (cfgStderr c) (streamsWG c)).

(** Steps of the waiting goroutine. *)
Definition waiterSteps (c : Config) : list Step :=
  match cfgWaiter c with
  | WaiterNotStarted => []
  | WaiterAtStreams cmd =>
      if streamsWG c =? 0 then [(None, withWaiter (WaiterAtCmdWait cmd) c)] else []
  | WaiterAtCmdWait cmd =>
      match done c with
      | None => [(None, withWaiter WaiterExited (withDone (Some (cmdWait cmd)) c))]
      | Some _ => []
      end
  | WaiterExited => []
  end.

(** The caller cancels [ctx]. *)
Definition ctxSteps (c : Config) : list Step :=
  if ctxDone c then [] else [(None, withCtxDone c)].

(** The steps the goroutines of the task can take, and with them the
    step of the environment. *)
Definition goroutineSteps (c : Config) : list Step :=
  mainSteps c ++ stdoutSteps c ++ stderrSteps c ++ waiterSteps c.

Definition successors (c : Config) : list Step :=
  goroutineSteps c ++ ctxSteps c.

Definition step (c : Config) (ev : option ProcessLine) (c' : Config) : Prop :=
  (ev, c') ∈ successors c.

(** [runs c tr c']: some interleaving leads from [c] to [c'] and sends
    exactly the events [tr], in this order. *)
Inductive runs (c : Config) : list ProcessLine -> Config -> Prop :=
| runs_refl : runs c [] c
| runs_step tr c1 ev c2 :
    runs c tr c1 -> step c1 ev c2 -> runs c (tr ++ option_list ev) c2.

(** A bound on the number of steps a configuration can still take: the
    steps left to each goroutine, counting for a task that has not
    started its goroutines yet the steps they will have. *)
Definition readerFuel (r : ReaderPC) : nat :=
  match r with
  | ReaderNotStarted => 0
  | ReaderSending pending => S (length pending)
  | ReaderExited => 0
  end.

Definition waiterFuel (w : WaiterPC) : nat :=
  match w with
  | WaiterNotStarted => 0
  | WaiterAtStreams _ => 2
  | WaiterAtCmdWait _ => 1
  | WaiterExited => 0
  end.

Definition fuelAtStart (stdout stderr : Stream) : nat :=
  9 + readerFuel (ReaderSending (streamReader (bufio_NewScanner stdout) idx))
    + readerFuel (ReaderSending (streamReader (bufio_NewScanner stderr) idx))
    + 2.

Definition fuelAtStderrPipe (cmd : Command) (stdout : Stream) : nat :=
  S match cmdStderrPipe cmd with
    | inl stderr => fuelAtStart stdout stderr
    | inr _ => 0
    end.

Definition fuelAtStdoutPipe (cmd : Command) : nat :=
  S match cmdStdoutPipe cmd with
    | inl stdout => fuelAtStderrPipe cmd stdout
    | inr _ => 0
    end.

Definition mainFuel (pc : MainPC) : nat :=
  match pc with
  | AtFactory =>
      S match factoryOf spec with
        | inl cmd => fuelAtStdoutPipe cmd
        | inr _ => 0
        end
  | AtStdoutPipe cmd => fuelAtStdoutPipe cmd
  | AtStderrPipe cmd stdout => fuelAtStderrPipe cmd stdout
  | AtStart _ stdout stderr => fuelAtStart stdout stderr
  | AtSelect => 8
  | AtCancelled => 7
  | AtProcess => 6
  | AtShutdownSelect => 5
  | AtKillWait => 4
  | AtForceKilled _ => 3
  | AtGraceful _ => 3
  | AtExitedWait => 3
  | AtComplete _ => 1
  | Returned => 0
  end.

Definition configFuel (c : Config) : nat :=
  mainFuel (cfgMain c) + readerFuel (cfgStdout c) + readerFuel (cfgStderr c)
  + waiterFuel (cfgWaiter c) + (if ctxDone c then 0 else 1).

End Engine.

(** The engine: one task per spec, positioned by its index, and the
    events sent on the shared [output] channel so far. *)
Record EngineState : Type := mkEngineState {
  tasks : list Config;
  output : list ProcessLine
}.

Section Run.

Variable osCommand : ProcessSpec -> Command.
Variable ctxCause : option error.
Variable Duration_String : Z -> string.
Variable eng : Engine.

(** [Run]: [go eng.runProcess(ctx, i, spec, ...)] for each spec. *)
Definition engineInit : EngineState :=
  {| tasks := map (fun _ => initConfig) (Specs eng); output := [] |}.

(** The steps of task [i], lifted to the engine. *)
Definition taskSteps (st : EngineState) (i : nat) (spec : ProcessSpec)
  : list EngineState :=
  match tasks st !! i with
  | Some c =>
      map (fun '(ev, c') =>
             {| tasks := <[i := c']> (tasks st);
                output := output st ++ option_list ev |})
          (successors osCommand ctxCause Duration_String eng (Z.of_nat i) spec c)
  | None => []
  end.

Definition engineSuccessors (st : EngineState) : list EngineState :=
  concat (imap (taskSteps st) (Specs eng)).

(** [engineRuns st st']: the engine gets from [st] to [st']. *)
Inductive engineRuns (st : EngineState) : EngineState -> Prop :=
| engine_refl : engineRuns st st
| engine_step st1 st2 :
    engineRuns st st1 -> st2 ∈ engineSuccessors st1 -> engineRuns st st2.

Definition engineReachable (st : EngineState) : Prop := engineRuns engineInit st.

End Run.

(** The events of the stream that carry process index [i]. *)
Definition eventsOf (i : Z) (out : list ProcessLine) : list ProcessLine :=
  filter (fun pl => plIndex pl = i) out.

(** [tr] is zero or more line events of process [i]. *)
Definition onlyLines (i : Z) (tr : list ProcessLine) : Prop :=
  Forall (fun pl => plIndex pl = i /\ plIsComplete pl = false) tr.

(** [tr] is zero or more line events of process [i] followed by exactly one
    completion event of process [i]. *)
Definition linesThenComplete (i : Z) (tr : list ProcessLine) : Prop :=
  exists lines err, tr = lines ++ [completeOf i err] /\ onlyLines i lines.

(** *** The invariant of a task

    What holds of the events [tr] a task has sent and of its configuration
    [c], by the program point of [runProcess]. *)

Definition readerLines (idx : Z) (r : ReaderPC) : Prop :=
  match r with
  | ReaderSending pending => onlyLines idx pending
  | _ => True
  end.

(** The reader has not called [wg.Done()] yet. *)
Definition readerActive (r : ReaderPC) : Z :=
  match r with
  | ReaderSending _ => 1
  | _ => 0
  end.

(** No goroutine has been started. *)
Definition notStarted (c : Config) : Prop :=
  cfgStdout c = ReaderNotStarted /\ cfgStderr c = ReaderNotStarted
  /\ cfgWaiter c = WaiterNotStarted /\ done c = None.

(** Every goroutine started has exited and [done] has been received. *)
Definition finished (c : Config) : Prop :=
  cfgStdout c = ReaderExited /\ cfgStderr c = ReaderExited
  /\ cfgWaiter c = WaiterExited /\ done c = None.

(** The goroutines run and [done] has not been received yet. *)
Definition running (idx : Z) (c : Config) : Prop :=
  cfgStdout c <> ReaderNotStarted /\ cfgStderr c <> ReaderNotStarted
  /\ readerLines idx (cfgStdout c) /\ readerLines idx (cfgStderr c)
  /\ streamsWG c = readerActive (cfgStdout c) + readerActive (cfgStderr c)
  /\ match cfgWaiter c with
     | WaiterNotStarted => False
     | WaiterAtStreams _ => done c = None
     | WaiterAtCmdWait _ => streamsWG c = 0 /\ done c = None
     | WaiterExited => streamsWG c = 0 /\ done c <> None
     end.

Definition taskInv (idx : Z) (tr : list ProcessLine) (c : Config) : Prop :=
  match cfgMain c with
  | AtFactory | AtStdoutPipe _ | AtStderrPipe _ _ | AtStart _ _ _ =>
      tr = [] /\ notStarted c
  | AtSelect | AtCancelled | AtProcess | AtShutdownSelect | AtKillWait | AtExitedWait =>
      onlyLines idx tr /\ running idx c
  | AtGraceful _ | AtForceKilled _ | AtComplete _ =>
      onlyLines idx tr /\ finished c
  | Returned =>
      linesThenComplete idx tr /\ (notStarted c \/ finished c)
  end.

(** *** Running the engine on a schedule *)

Section Schedule.

Variable osCommand : ProcessSpec -> Command.
Variable ctxCause : option error.
Variable Duration_String : Z -> string.
Variable eng : Engine.

(** One schedule of the engine: at each state take the successor with
    the given number. *)
Fixpoint follow (st : EngineState) (choices : list nat) : option EngineState :=
  match choices with
  | [] => Some st
  | k :: rest =>
      match engineSuccessors osCommand ctxCause Duration_String eng st !! k with
      | Some st' => follow st' rest
      | None => None
      end
  end.

End Schedule.

(** The first command of the specification's scenario: it prints ["x"]
    and exits with status 0. *)
Definition echoCommand : Command :=
  {| cmdStdoutPipe := inl (mkStream ("x" +:+ String LF EmptyString) io_EOF);
     cmdStderrPipe := inl (mkStream EmptyString io_EOF);
     cmdStart := None;
     cmdWait := None |}.

Definition echoSpec : ProcessSpec :=
  {| specName := "A"; specCommand := "echo"; specArgs := ["x"];
     specMaxLines := 0; specMaxBytes := 0 |}.

Definition echoEngine : Engine :=
  {| engCommandFactory := Some (fun _ => inl echoCommand);
     Specs := [echoSpec];
     ShutdownTimeout := 0 |}.

(** The task of [echoSpec] after it has returned, and the engine then. *)
Definition echoReturned : Config :=
  {| cfgMain := Returned; cfgStdout := ReaderExited; cfgStderr := ReaderExited;
     cfgWaiter := WaiterExited; streamsWG := 0; done := None; ctxDone := false |}.

Definition echoFinal : EngineState :=
  {| tasks := [echoReturned]; output := [lineOf 0 "x"; completeOf 0 None] |}.

(** ** renderer/state.go: sequences of events *)

(** The texts of the line events for process [n], in the order of the
    events. *)
Fixpoint linesFor (n : Z) (evs : list Event) : list string :=
  match evs with
  | [] => []
  | lineEvent line i :: rest =>
      if i =? n then line :: linesFor n rest else linesFor n rest
  | doneEvent _ _ :: rest => linesFor n rest
  end.

(** What one event does to the state of the process it addresses. *)
Definition applyOne (ps : ProcessState) (ev : Event) : ProcessState :=
  match ev with
  | lineEvent line _ => applyLine ps line
  | doneEvent err _ => applyDone ps err
  end.

(** The events of a sequence that carry the index [n]. *)
Definition ownEvents (n : nat) (evs : list Event) : list Event :=
  filter (fun ev => eventIndex ev = Z.of_nat n) evs.

(** ** renderer/terminal.go *)

(** What [errors.As(err, &exitErr)] finds in an [*exec.ExitError]:
    [ExitCode()], and from [Sys()], when it holds a
    [syscall.WaitStatus], [Signaled()] and the signal as [%v] prints it. *)
Record WaitStatus : Type := mkWaitStatus {
  Signaled : bool;
  Signal : string
}.

Record ExitError : Type := mkExitError {
  ExitCode : Z;
  Sys : option WaitStatus
}.

(** The bytes written by one [fmt.Println()]. *)
Definition newline : string := String LF EmptyString.

(** ["\x1b[H\x1b[2J"]: cursor home, erase screen. *)
Definition ESC : Ascii.ascii := Ascii.ascii_of_nat 27.
Definition clearScreen : string :=
  String ESC "[H" +:+ String ESC "[2J".

(** The horizontal ellipsis of the header line, in UTF-8. *)
Definition ellipsis : string :=
  String (Ascii.ascii_of_nat 226)
    (String (Ascii.ascii_of_nat 128) (String (Ascii.ascii_of_nat 166) EmptyString)).

(** Everything written by a sequence of print calls. *)
Definition written (chunks : list string) : string :=
  fold_right String.append EmptyString chunks.

(** [ps.Dirty = false] *)
Definition clearDirty (ps : ProcessState) : ProcessState :=
  {| Err := Err ps; Name := Name ps;
     Lines := Lines ps; ByteSize := ByteSize ps;
     MaxLines := MaxLines ps; MaxBytes := MaxBytes ps;
     Done := Done ps; Running := Running ps;
     Dirty := false |}.

Section Terminal.

(** [errors.As] with an [*exec.ExitError] target. *)
Variable errors_As : error -> option ExitError.
(** [strings.TrimSpace] *)
Variable strings_TrimSpace : string -> string.

(** [FormatExitError] *)
Definition FormatExitError (err : option error) : string :=
  match err with
  | None => "ok"
  | Some e =>
      match errors_As e with
      | None => "error: " +:+ Error e
      | Some exitErr =>
          let exitCode := ExitCode exitErr in
          match Sys exitErr with
          | Some status =>
              if Signaled status
              then "killed by signal " +:+ Signal status
                   +:+ " (exit code " +:+ pretty exitCode +:+ ")"
              else "exit code " +:+ pretty exitCode
          | None => "exit code " +:+ pretty exitCode
          end
      end
  end.

(** The header and the lines [RenderScreen] prints for one process. *)
Definition screenLine (line : string) : string :=
  if String.eqb (strings_TrimSpace line) EmptyString then newline
  else "    " +:+ line +:+ newline.

Definition screenBlock (ps : ProcessState) : string :=
  let status := if Done ps then FormatExitError (Err ps) else "running" in
  "Running " +:+ Name ps +:+ ellipsis +:+ " [" +:+ status +:+ "]" +:+ newline
  +:+ written (map screenLine (Lines ps))
  +:+ newline.

(** [RenderScreen]: what it writes to stdout, and the slice it leaves. *)
Definition RenderScreen (states : list ProcessState) : string * list ProcessState :=
  let hasDirty := existsb Dirty states in
  if negb hasDirty then (EmptyString, states)
  else
    (clearScreen
     +:+ written (map screenBlock states)
     +:+ "Press Ctrl+C to cancel. Output updates in real time." +:+ newline,
     map clearDirty states).

(** [WriteFinalSummary]: what it writes to stderr. *)
Definition WriteFinalSummary (states : list ProcessState) : string :=
  newline +:+ "Summary:" +:+ newline
  +:+ written (map (fun ps =>
                      "  - " +:+ Name ps +:+ ": " +:+ FormatExitError (Err ps) +:+ newline)
                   states).

(** [fmt.Sprintf(logPrefix, name)], for the caller's format. *)
Variable fmt_Sprintf : string -> string -> string.

(** The name an event is printed under: the spec's, or ["proc-%d"]. *)
Definition displayName (spec : ProcessSpec) (index : Z) : string :=
  if String.eqb (specName spec) EmptyString then "proc-" +:+ pretty index
  else specName spec.

(** [output] of [RenderIncremental], for the text [body]. *)
Definition incrementalLine (showTimestamps : bool) (timestamp logPrefix name body : string)
  : string :=
  if showTimestamps
  then "[" +:+ timestamp +:+ "] " +:+ fmt_Sprintf logPrefix name +:+ " " +:+ body
  else fmt_Sprintf logPrefix name +:+ " " +:+ body.

(** [RenderIncremental]: what it writes to stdout, or [None] if it
    panics.  [timestamp] is [time.Now().UTC().Format(time.RFC3339)] at the
    call. *)
Definition RenderIncremental (timestamp : string) (ev : Event) (specs : list ProcessSpec)
    (_ : list ProcessState) (showTimestamps : bool) (logPrefix : string)
  : option string :=
  let logPrefix := if String.eqb logPrefix EmptyString then "[%s]" else logPrefix in
  match ev with
  | lineEvent eLine eIndex =>
      if (eIndex <? 0) || (eIndex >=? len_slice specs) then Some EmptyString
      else
        match indexSlice specs eIndex with
        | Some spec =>
            let name := displayName spec eIndex in
            let line := TrimRight eLine crlf in
            Some (incrementalLine showTimestamps timestamp logPrefix name line +:+ newline)
        | None => None
        end
  | doneEvent eErr eIndex =>
      if (eIndex <? 0) || (eIndex >=? len_slice specs) then Some EmptyString
      else
        match indexSlice specs eIndex with
        | Some spec =>
            let name := displayName spec eIndex in
            let status := FormatExitError eErr in
            Some (incrementalLine showTimestamps timestamp logPrefix name status +:+ newline)
        | None => None
        end
  end.

End Terminal.

(** *** What a task delivers *)

(** [merges l1 l2 l]: [l] interleaves [l1] and [l2], keeping the order of
    each. *)
Inductive merges {A : Type} : list A -> list A -> list A -> Prop :=
| merges_nil : merges [] [] []
| merges_left x l1 l2 l : merges l1 l2 l -> merges (x :: l1) l2 (x :: l)
| merges_right x l1 l2 l : merges l1 l2 l -> merges l1 (x :: l2) (x :: l).

(** The events a reader still has to send. *)
Definition pendingOf (r : ReaderPC) : list ProcessLine :=
  match r with
  | ReaderSending pending => pending
  | _ => []
  end.

Section Delivery.

Variable osCommand : ProcessSpec -> Command.
Variable ctxCause : option error.
Variable Duration_String : Z -> string.
Variable eng : Engine.
Variable idx : Z.
Variable spec : ProcessSpec.

(** The first part of [runProcess], up to [cmd.Start()]: the command and
    its two pipes, or the error of the completion event sent instead. *)
Definition startOf : Command * Stream * Stream + error :=
  match factoryOf osCommand eng spec with
  | inr err => inr (wrapError "create command" err)
  | inl cmd =>
      match cmdStdoutPipe cmd with
      | inr err => inr (wrapError "stdout pipe" err)
      | inl stdout =>
          match cmdStderrPipe cmd with
          | inr err => inr (wrapError "stderr pipe" err)
          | inl stderr =>
              match cmdStart cmd with
              | Some startErr => inr (wrapError "start" startErr)
              | None => inl (cmd, stdout, stderr)
              end
          end
      end
  end.

(** The error of the completion event: the one of the first part, or
    what [cmd.Wait()] answers. *)
Definition terminalError : option error :=
  match startOf with
  | inr err => Some err
  | inl (cmd, _, _) => cmdWait cmd
  end.

(** The lines [handleGracefulShutdown] sends of its own. *)
Definition causeLines : list ProcessLine :=
  match ctxCause with
  | Some cause =>
      if negb (errors_Is cause SentinelCanceled)
      then [lineOf idx ("[cancellation: " +:+ Error cause +:+ "]")]
      else []
  | None => []
  end.

Definition sigtermLine : ProcessLine :=
  lineOf idx "[sending SIGTERM for graceful shutdown...]".

Definition timeoutLine : ProcessLine :=
  lineOf idx ("[graceful shutdown timeout ("
              +:+ Duration_String (shutdownTimeout eng)
              +:+ "), force killing...]").

Definition gracefulLine : ProcessLine := lineOf idx "[gracefully terminated]".

Definition forceKilledLine : ProcessLine := lineOf idx "[force killed]".

(** The three ways through the [<-ctx.Done()] case: the process has
    exited already, it ends after SIGTERM, it is killed. *)
Definition shutdownTraces : list (list ProcessLine) :=
  [ causeLines;
    causeLines ++ [sigtermLine; gracefulLine];
    causeLines ++ [sigtermLine; timeoutLine; forceKilledLine] ].

(** The texts [handleGracefulShutdown] sends, as it writes them: the
    cancellation cause if there is one other than [context.Canceled], the
    SIGTERM notice, the timeout notice and the two outcomes. *)
Definition causeTexts : list string :=
  match ctxCause with
  | Some cause =>
      if negb (errors_Is cause SentinelCanceled)
      then ["[cancellation: " +:+ Error cause +:+ "]"]
      else []
  | None => []
  end.

Definition shutdownTexts : list (list string) :=
  [ causeTexts;
    causeTexts ++ ["[sending SIGTERM for graceful shutdown...]";
                   "[gracefully terminated]"];
    causeTexts ++ ["[sending SIGTERM for graceful shutdown...]";
                   "[graceful shutdown timeout ("
                   +:+ Duration_String (shutdownTimeout eng)
                   +:+ "), force killing...]";
                   "[force killed]"] ].

(** The lines of its own that [handleGracefulShutdown] has sent at a
    program point. *)
Definition diagAt (pc : MainPC) (cancelled : bool) (diag : list ProcessLine) : Prop :=
  match pc with
  | AtSelect => diag = []
  | AtCancelled => diag = [] /\ cancelled = true
  | AtProcess | AtExitedWait => diag = causeLines /\ cancelled = true
  | AtShutdownSelect | AtGraceful _ =>
      diag = causeLines ++ [sigtermLine] /\ cancelled = true
  | AtKillWait | AtForceKilled _ =>
      diag = causeLines ++ [sigtermLine; timeoutLine] /\ cancelled = true
  | AtComplete _ | Returned =>
      diag = [] \/ (cancelled = true /\ diag ∈ shutdownTraces)
  | _ => False
  end.

(** The value received from [done] is what [cmd.Wait()] answered. *)
Definition waitErrAt (pc : MainPC) (cmd : Command) : Prop :=
  match pc with
  | AtGraceful waitErr | AtForceKilled waitErr | AtComplete waitErr =>
      waitErr = cmdWait cmd
  | _ => True
  end.

(** The invariant of a task whose command has been started: the events
    sent so far interleave what the two readers have sent and the lines
    of [handleGracefulShutdown]. *)
Definition startedInv (cmd : Command) (stdout stderr : Stream)
    (tr : list ProcessLine) (c : Config) : Prop :=
  exists sentOut sentErr m diag body,
    merges sentOut sentErr m /\ merges m diag body
    /\ sentOut ++ pendingOf (cfgStdout c) = streamReader (bufio_NewScanner stdout) idx
    /\ sentErr ++ pendingOf (cfgStderr c) = streamReader (bufio_NewScanner stderr) idx
    /\ diagAt (cfgMain c) (ctxDone c) diag
    /\ waitErrAt (cfgMain c) cmd
    /\ (forall waitErr, done c = Some waitErr -> waitErr = cmdWait cmd)
    /\ match cfgWaiter c with
       | WaiterAtStreams cmd' | WaiterAtCmdWait cmd' => cmd' = cmd
       | _ => True
       end
    /\ tr = body ++ match cfgMain c with
                    | Returned => [completeOf idx (cmdWait cmd)]
                    | _ => []
                    end.

Definition deliveryInv (tr : list ProcessLine) (c : Config) : Prop :=
  match cfgMain c with
  | AtFactory => True
  | AtStdoutPipe cmd => factoryOf osCommand eng spec = inl cmd
  | AtStderrPipe cmd stdout =>
      factoryOf osCommand eng spec = inl cmd /\ cmdStdoutPipe cmd = inl stdout
  | AtStart cmd stdout stderr =>
      factoryOf osCommand eng spec = inl cmd /\ cmdStdoutPipe cmd = inl stdout
      /\ cmdStderrPipe cmd = inl stderr
  | Returned =>
      match startOf with
      | inr err => tr = [completeOf idx (Some err)]
      | inl (cmd, stdout, stderr) => startedInv cmd stdout stderr tr c
      end
  | _ =>
      exists cmd stdout stderr,
        startOf = inl (cmd, stdout, stderr) /\ startedInv cmd stdout stderr tr c
  end.

End Delivery.

(** A spec whose command cannot be created. *)
Definition brokenEngine : Engine :=
  {| engCommandFactory := Some (fun _ => inr (errorString "no such command"));
     Specs := [echoSpec];
     ShutdownTimeout := 0 |}.

Definition brokenFinal : EngineState :=
  {| tasks := [withMain Returned initConfig];
     output := [completeOf 0 (Some (wrapError "create command"
                                       (errorString "no such command")))] |}.

(** ** engine: building an engine *)

(** [engine.New] *)
Definition New (specs : list ProcessSpec) (shutdownTimeout : Z) : Engine :=
  {| Specs := specs;
     ShutdownTimeout := shutdownTimeout;
     engCommandFactory := None |}.

(** [WithCommandFactory], a method of [Engine] *)
Definition WithCommandFactory (eng : Engine) (factory : CommandFactory) : Engine :=
  {| Specs := Specs eng;
     ShutdownTimeout := ShutdownTimeout eng;
     engCommandFactory := Some factory |}.

(** ** runner/runner.go *)

Module runner.

Definition defaultMaxLinesPerProc : Z := 1000.
Definition defaultShutdownTimeout : Z := 5 * time_Second.
Definition eventChannelBuffer : Z := 128.

(** [runner.Config].  [IsTTY] is a [*bool]; a nil [Specs] slice is the
    empty list. *)
Record Config : Type := mkConfig {
  IsTTY : option bool;
  LogPrefix : string;
  Specs : list ProcessSpec;
  MaxLinesPerProc : Z;
  ShutdownTimeout : Z;
  FullScreen : bool;
  ShowSummary : bool;
  ShowTimestamps : bool
}.

Definition DefaultConfig : Config :=
  {| Specs := [];
     MaxLinesPerProc := defaultMaxLinesPerProc;
     FullScreen := true;
     ShowSummary := true;
     IsTTY := None;
     ShutdownTimeout := defaultShutdownTimeout;
     ShowTimestamps := false;
     LogPrefix := "[%s]" |}.

(** The first part of [Run]: the effective configuration.  [isTTY] is
    what [renderer.IsTTY()] answers, asked only when [cfg.IsTTY] is nil. *)
Definition effective (isTTY : bool) (cfg : Config) : Config :=
  let base := DefaultConfig in
  let maxLinesPerProc :=
    if MaxLinesPerProc cfg <=? 0 then MaxLinesPerProc base else MaxLinesPerProc cfg in
  let specs :=
    match Specs cfg with
    | [] => Specs base
    | _ => Specs cfg
    end in
  let tty :=
    match IsTTY cfg with
    | None => Some isTTY
    | Some val => Some val
    end in
  let shutdownTimeout :=
    if ShutdownTimeout cfg <=? 0 then ShutdownTimeout base else ShutdownTimeout cfg in
  let logPrefix :=
    if String.eqb (LogPrefix cfg) EmptyString then LogPrefix base else LogPrefix cfg in
  let fullScreen :=
    match tty with
    | Some false => false
    | _ => FullScreen cfg
    end in
  {| IsTTY := tty;
     LogPrefix := logPrefix;
     Specs := specs;
     MaxLinesPerProc := maxLinesPerProc;
     ShutdownTimeout := shutdownTimeout;
     FullScreen := fullScreen;
     ShowSummary := ShowSummary cfg;
     ShowTimestamps := ShowTimestamps cfg |}.

(** "Build initial render state." *)
Definition initialState (cfg : Config) (spec : ProcessSpec) : ProcessState :=
  let maxLines :=
    if specMaxLines spec <=? 0 then MaxLinesPerProc cfg else specMaxLines spec in
  let maxBytes := specMaxBytes spec in
  newProcessState (specName spec) maxLines maxBytes.

Definition initialStates (cfg : Config) : list ProcessState :=
  map (initialState cfg) (Specs cfg).

(** [eng := engine.New(specs, cfg.ShutdownTimeout)] *)
Definition engineOf (cfg : Config) : Engine :=
  New (Specs cfg) (ShutdownTimeout cfg).

(** [cfg.FullScreen && cfg.IsTTY != nil && *cfg.IsTTY]: the render
    goroutine runs and the main loop sends it requests. *)
Definition fullScreenMode (cfg : Config) : bool :=
  FullScreen cfg && match IsTTY cfg with
                    | Some true => true
                    | _ => false
                    end.

(** The main loop and, in full-screen mode, the render goroutine, on the
    slice [states] they share.  [renderCh] has capacity 1. *)
Record Loop : Type := mkLoop {
  loopStates : list ProcessState;
  loopEvents : list Event;      (* the events still to come on [events] *)
  renderCh : bool;              (* a request is queued *)
  rendering : bool;             (* the render goroutine has taken a request *)
  closed : bool                 (* the main loop is over *)
}.

Definition initLoop (cfg : Config) (events : list Event) : Loop :=
  {| loopStates := initialStates cfg;
     loopEvents := events;
     renderCh := fullScreenMode cfg;    (* "Queue initial render" *)
     rendering := false;
     closed := false |}.

Section Loop.

Variable errors_As : error -> option ExitError.
Variable strings_TrimSpace : string -> string.
Variable cfg : Config.

Inductive loopStep : Loop -> Loop -> Prop :=
(* [for ev := range events]: [ApplyEvent], then the non-blocking send
   of a request or the incremental renderer, which leaves [states] alone *)
| loop_event states states' ev rest ch busy :
    ApplyEvent states ev = Some states' ->
    loopStep (mkLoop states (ev :: rest) ch busy false)
             (mkLoop states' rest (ch || fullScreenMode cfg) busy false)
(* [events] is closed: the last request is sent, blocking while one is
   queued, and [renderCh] is closed *)
| loop_close states busy :
    loopStep (mkLoop states [] false busy false)
             (mkLoop states [] (fullScreenMode cfg) busy true)
(* [for range renderCh] *)
| loop_receive states evs done :
    loopStep (mkLoop states evs true false done)
             (mkLoop states evs false true done)
(* [renderer.RenderScreen(states)] *)
| loop_render states evs ch done :
    loopStep (mkLoop states evs ch true done)
             (mkLoop (snd (RenderScreen errors_As strings_TrimSpace states)) evs ch false done).

Inductive loopRuns (l : Loop) : Loop -> Prop :=
| loop_refl : loopRuns l l
| loop_step l1 l2 : loopRuns l l1 -> loopStep l1 l2 -> loopRuns l l2.

(** [Run] from the initial render state on, for the events [events]
    that arrive: after the loop, the summary is written from [states] and
    the exit code is read from it, the render goroutine going on
    meanwhile.  What is written to stdout is the output of [RenderScreen]
    and [RenderIncremental]. *)
Definition mainLoop (events : list Event) (summary : option string) (code : Z) : Prop :=
  exists l1 l2 l3,
    loopRuns (initLoop cfg events) l1 /\ closed l1 = true
    /\ loopRuns l1 l2
    /\ summary = (if ShowSummary cfg
                  then Some (WriteFinalSummary errors_As (loopStates l2))
                  else None)
    /\ loopRuns l2 l3
    /\ code = ExitCodeFromStates (loopStates l3).

End Loop.

(** [Run]: the effective configuration, then the render state, the loop,
    the summary and the exit code.  [isTTY] is what [renderer.IsTTY()]
    answers; [events] are the events of the engine, converted. *)
Definition Run (errors_As : error -> option ExitError)
    (strings_TrimSpace : string -> string) (isTTY : bool) (cfg : Config)
    (events : list Event) (summary : option string) (code : Z) : Prop :=
  mainLoop errors_As strings_TrimSpace (effective isTTY cfg) events summary code.

End runner.

(** ** cmd: the flags of [run] *)

(** The values of the command-line flags. *)
Record Flags : Type := mkFlags {
  flagFullscreen : bool;
  flagSummary : bool;
  flagTimestamps : bool;
  flagPrefix : string;
  flagMaxLines : Z;
  flagShutdownTimeout : Z
}.

(** Their defaults. *)
Definition defaultFlags : Flags :=
  {| flagFullscreen := true; flagSummary := true; flagTimestamps := false;
     flagPrefix := "[%s]"; flagMaxLines := 1000; flagShutdownTimeout := 5 |}.

(** The specs [run] is built with. *)
Definition runSpecs : list ProcessSpec :=
  [ {| specName := "Subprocess A"; specCommand := "sh";
       specArgs := ["-c";
         "echo 'A: Starting...'; sleep 1; echo 'A: working...'; sleep 1; echo 'A: Done.'"];
       specMaxLines := 0; specMaxBytes := 0 |};
    {| specName := "Subprocess B"; specCommand := "sh";
       specArgs := ["-c";
         "echo 'B: Starting...'; sleep 1; echo 'B: working...'; sleep 1; echo 'B: working...'; sleep 1; echo 'B: working...'; sleep 1; echo 'B: Done.'"];
       specMaxLines := 0; specMaxBytes := 0 |};
    {| specName := "Subprocess C"; specCommand := "sh";
       specArgs := ["-c";
         "echo 'C: Starting...'; sleep 1; echo 'C: working...'; sleep 1; echo 'C: working...'; sleep 1; echo 'C: Done.'"];
       specMaxLines := 0; specMaxBytes := 0 |} ].

(** [cfg] of [run], for its specs: [DefaultConfig()] with the flags
    written over it.
    The shutdown timeout is the flag's seconds times [time.Second], an
    [int64] product. *)
Definition runConfig (specs : list ProcessSpec) (flags : Flags) : runner.Config :=
  let cfg := runner.DefaultConfig in
  {| runner.IsTTY := runner.IsTTY cfg;
     runner.Specs := specs;
     runner.FullScreen := flagFullscreen flags;
     runner.ShowSummary := flagSummary flags;
     runner.ShowTimestamps := flagTimestamps flags;
     runner.LogPrefix := flagPrefix flags;
     runner.MaxLinesPerProc := flagMaxLines flags;
     runner.ShutdownTimeout := GoInt.wrap (flagShutdownTimeout flags * time_Second) |}.

(** *** The invariant of the loop

    The states of the loop are those of the events taken so far, up to
    the [Dirty] flags; the loop is over only when every event is taken. *)
Definition loopInv (init : list ProcessState) (events : list Event) (l : runner.Loop) : Prop :=
  exists taken pure,
    taken ++ runner.loopEvents l = events
    /\ applyAll init taken = Some pure
    /\ map clearDirty (runner.loopStates l) = map clearDirty pure
    /\ (runner.closed l = true -> runner.loopEvents l = []).

(** ** Lines as a process writes them *)

(** The end of line a writer puts after a line: ["\n"], or ["\r\n"]. *)
Definition eol (withCR : bool) : string := if withCR then crlf else newline.

(** The bytes of a sequence of lines, each written with its end of line. *)
Definition writtenLines (entries : list (string * bool)) : string :=
  written (map (fun entry => fst entry +:+ eol (snd entry)) entries).

(** ** Test doubles: [mockReadCloser]

    The pipe of a [MockCommand]: it serves its lines, each with a
    newline, one line per call. *)

Record mockReadCloser : Type := mkMockReadCloser {
  mockLines : list string;
  mockBuf : string;
  mockPos : Z
}.

(** [&mockReadCloser{lines: lines}] *)
Definition newMockReadCloser (lines : list string) : mockReadCloser :=
  {| mockLines := lines; mockBuf := EmptyString; mockPos := 0 |}.

(** [Read(p)] for a [p] of length [lenP]: the bytes copied into [p], the
    error, and the reader afterwards; [None] if the call panics. *)
Definition mockReadCloser_Read (m : mockReadCloser) (lenP : Z)
  : option (string * option error * mockReadCloser) :=
  if mockPos m >=? len_slice (mockLines m) then Some (EmptyString, Some io_EOF, m)
  else if len_string (mockBuf m) >? 0 then
    let n := Z.min lenP (len_string (mockBuf m)) in
    Some (slice (mockBuf m) 0 n, None,
          {| mockLines := mockLines m;
             mockBuf := sliceFrom (mockBuf m) n;
             mockPos := mockPos m |})
  else
    match indexSlice (mockLines m) (mockPos m) with
    | Some l =>
        let line := l +:+ newline in
        let pos := GoInt.add (mockPos m) 1 in
        let n := Z.min lenP (len_string line) in
        Some (slice line 0 n, None,
              {| mockLines := mockLines m;
                 mockBuf := if n <? len_string line then sliceFrom line n else mockBuf m;
                 mockPos := pos |})
    | None => None
    end.

(** A reader's calls of [Read] with buffers of the lengths [sizes], up to
    the first error: the bytes delivered and the error. *)
Fixpoint readAll (sizes : list Z) (m : mockReadCloser) : option (string * option error) :=
  match sizes with
  | [] => Some (EmptyString, None)
  | lenP :: rest =>
      match mockReadCloser_Read m lenP with
      | Some (data, Some err, _) => Some (data, Some err)
      | Some (data, None, m') =>
          match readAll rest m' with
          | Some (more, err) => Some (data +:+ more, err)
          | None => None
          end
      | None => None
      end
  end.

(** [s] repeated [2^k] times: a line as long as the scanner's buffer. *)
Fixpoint doubled (k : nat) (s : string) : string :=
  match k with
  | O => s
  | S k' => doubled k' (s +:+ s)
  end.

(** A buffer that is full at its cap of two lines. *)
Definition fullBuffer : ProcessState :=
  {| Err := None; Name := "p"; Lines := ["a"; "b"]; ByteSize := 2;
     MaxLines := 2; MaxBytes := 0;
     Done := false; Running := true; Dirty := false |}.

(** * Proofs *)

(** ** Go integers *)

Lemma wrap_in_range z : GoInt.in_range z -> GoInt.wrap z = z.
Proof.
  unfold GoInt.in_range, GoInt.wrap, GoInt.min_int, GoInt.max_int, GoInt.half, GoInt.modulus.
  intros H. rewrite Z.mod_small by lia. lia.
Qed.

Lemma wrap_add_l a b : GoInt.wrap (GoInt.wrap a + b) = GoInt.wrap (a + b).
Proof.
  unfold GoInt.wrap.
  replace ((a + GoInt.half) mod GoInt.modulus - GoInt.half + b + GoInt.half)
    with ((a + GoInt.half) mod GoInt.modulus + b) by lia.
  rewrite Zplus_mod_idemp_l. f_equal. f_equal. lia.
Qed.

Lemma wrap_sub_l a b : GoInt.wrap (GoInt.wrap a - b) = GoInt.wrap (a - b).
Proof. rewrite <- !Z.add_opp_r. apply wrap_add_l. Qed.

Lemma wrap_0 : GoInt.wrap 0 = 0.
Proof. reflexivity. Qed.

Lemma byteTotal_from a lines :
  fold_left (fun total l => GoInt.add total (len_string l)) lines (GoInt.wrap a)
  = GoInt.wrap (a + sumLen lines).
Proof.
  revert a. induction lines as [|l lines IH]; intros a; simpl.
  - f_equal. lia.
  - unfold GoInt.add at 2. rewrite wrap_add_l, IH. f_equal. lia.
Qed.

Lemma byteTotal_wrap lines : byteTotal lines = GoInt.wrap (sumLen lines).
Proof. unfold byteTotal. rewrite <- wrap_0 at 1. apply byteTotal_from. Qed.

(** As long as the sum fits an [int], Go's total is the sum. *)
Lemma byteTotal_exact lines :
  GoInt.in_range (sumLen lines) -> byteTotal lines = sumLen lines.
Proof. intros H. rewrite byteTotal_wrap. apply wrap_in_range, H. Qed.

Lemma byteTotal_nil : byteTotal [] = 0.
Proof. reflexivity. Qed.

Lemma byteTotal_snoc lines l :
  byteTotal (lines ++ [l]) = GoInt.add (byteTotal lines) (len_string l).
Proof. unfold byteTotal. rewrite fold_left_app. reflexivity. Qed.

Lemma byteTotal_tail l lines :
  byteTotal lines = GoInt.sub (byteTotal (l :: lines)) (len_string l).
Proof.
  rewrite !byteTotal_wrap. unfold GoInt.sub. rewrite wrap_sub_l. simpl. f_equal. lia.
Qed.

(** ** The eviction loop *)

Lemma evictLoop_unfold maxLines maxBytes lines byteSize :
  evictLoop maxLines maxBytes lines byteSize =
  if negb ((maxLines >? 0) && (len_slice lines >? maxLines))
     && negb ((maxBytes >? 0) && (byteSize >? maxBytes))
  then (lines, byteSize)
  else match lines with
       | [] => (lines, byteSize)
       | oldestLine :: rest =>
           evictLoop maxLines maxBytes rest (GoInt.sub byteSize (len_string oldestLine))
       end.
Proof. destruct lines; reflexivity. Qed.

Lemma evictLoop_accounted maxLines maxBytes lines byteSize :
  byteSize = byteTotal lines ->
  snd (evictLoop maxLines maxBytes lines byteSize)
  = byteTotal (fst (evictLoop maxLines maxBytes lines byteSize)).
Proof.
  revert byteSize. induction lines as [|l lines IH]; intros byteSize Hacc.
  - rewrite evictLoop_unfold, !Z.gtb_ltb. destruct (_ && _); exact Hacc.
  - rewrite evictLoop_unfold, !Z.gtb_ltb. destruct (_ && _); [exact Hacc|].
    apply IH. subst byteSize. symmetry. apply byteTotal_tail.
Qed.

Lemma evictLoop_caps maxLines maxBytes lines byteSize :
  byteSize = byteTotal lines ->
  (0 < maxLines -> len_slice (fst (evictLoop maxLines maxBytes lines byteSize)) <= maxLines) /\
  (0 < maxBytes -> snd (evictLoop maxLines maxBytes lines byteSize) <= maxBytes).
Proof.
  revert byteSize. induction lines as [|l lines IH]; intros byteSize Hacc.
  - rewrite evictLoop_unfold, !Z.gtb_ltb. subst byteSize. rewrite byteTotal_nil.
    unfold len_slice. simpl.
    destruct (_ && _); simpl; lia.
  - rewrite evictLoop_unfold, !Z.gtb_ltb.
    destruct (negb _ && negb _) eqn:E.
    + simpl. apply andb_prop in E as [E1 E2].
      apply negb_true_iff in E1, E2.
      apply andb_false_iff in E1, E2. split; intros Hpos.
      * destruct E1 as [E1|E1]; lia.
      * destruct E2 as [E2|E2]; lia.
    + apply IH. subst byteSize. symmetry. apply byteTotal_tail.
Qed.

Lemma evictLoop_line_cap maxLines maxBytes lines byteSize :
  0 < maxLines ->
  len_slice (fst (evictLoop maxLines maxBytes lines byteSize)) <= maxLines.
Proof.
  intros Hpos. revert byteSize. induction lines as [|l lines IH]; intros byteSize.
  - rewrite evictLoop_unfold, !Z.gtb_ltb. unfold len_slice.
    destruct (_ && _); simpl; lia.
  - rewrite evictLoop_unfold, !Z.gtb_ltb. destruct (negb _ && negb _) eqn:E; [|apply IH].
    simpl. apply andb_prop in E as [E _].
    apply negb_true_iff, andb_false_iff in E as [E|E]; lia.
Qed.

(** The loop computes what the specification's repetition describes, and
    the repetition has one outcome only. *)
Lemma evictLoop_evicts maxLines maxBytes lines byteSize :
  evicts maxLines maxBytes (lines, byteSize) (evictLoop maxLines maxBytes lines byteSize).
Proof.
  revert byteSize. induction lines as [|l lines IH]; intros byteSize.
  - rewrite evictLoop_unfold. destruct (_ && _) eqn:E.
    + apply evicts_stop. unfold capExceeded. simpl. apply andb_false_r.
    + apply evicts_stop. simpl. apply andb_false_r.
  - rewrite evictLoop_unfold. destruct (negb _ && negb _) eqn:E.
    + apply evicts_stop. unfold capExceeded.
      rewrite <- negb_orb in E. apply negb_true_iff in E. rewrite E. reflexivity.
    + apply evicts_oldest; [|apply IH].
      unfold capExceeded. rewrite <- negb_orb in E. apply negb_false_iff in E. exact E.
Qed.

Lemma evicts_functional maxLines maxBytes b r1 r2 :
  evicts maxLines maxBytes b r1 -> evicts maxLines maxBytes b r2 -> r1 = r2.
Proof.
  intros H1. revert r2. induction H1 as [lines byteSize Hstop|oldest rest byteSize result Hex H1 IH];
    intros r2 H2; inversion H2; subst.
  - reflexivity.
  - rewrite H1 in Hstop. unfold len_slice in Hstop. simpl in Hstop. discriminate.
  - match goal with H : _ && _ = false |- _ => rewrite Hex in H; unfold len_slice in H; simpl in H; discriminate end.
  - apply IH. assumption.
Qed.

(** ** [ApplyEvent] *)

Lemma indexSlice_lookup {A} (xs : list A) (n : nat) x :
  xs !! n = Some x -> indexSlice xs (Z.of_nat n) = Some x.
Proof.
  intros H. unfold indexSlice, len_slice. apply lookup_lt_Some in H as Hlt.
  rewrite Z.geb_leb.
  replace (Z.of_nat n <? 0) with false by lia.
  replace (Z.of_nat (length xs) <=? Z.of_nat n) with false by lia.
  simpl. rewrite Nat2Z.id. exact H.
Qed.

Lemma in_range_lookup {A} (xs : list A) (i : Z) :
  (i <? 0) || (i >=? len_slice xs) = false ->
  exists n x, i = Z.of_nat n /\ xs !! n = Some x.
Proof.
  intros H. rewrite Z.geb_leb in H.
  apply orb_false_iff in H as [H1 H2]. unfold len_slice in H2.
  assert (Hlt : (Z.to_nat i < length xs)%nat) by lia.
  apply lookup_lt_is_Some_2 in Hlt as [x Hx].
  exists (Z.to_nat i), x. split; [lia | exact Hx].
Qed.

Lemma out_of_range_test {A} (xs : list A) (n : nat) x :
  xs !! n = Some x -> (Z.of_nat n <? 0) || (Z.of_nat n >=? len_slice xs) = false.
Proof.
  intros H. apply lookup_lt_Some in H. unfold len_slice. rewrite Z.geb_leb.
  apply orb_false_iff. split; lia.
Qed.

Lemma ApplyEvent_line states (n : nat) ps line :
  states !! n = Some ps ->
  ApplyEvent states (lineEvent line (Z.of_nat n))
  = Some (<[n := applyLine ps line]> states).
Proof.
  intros H. unfold ApplyEvent.
  rewrite (out_of_range_test _ _ _ H), (indexSlice_lookup _ _ _ H), Nat2Z.id.
  reflexivity.
Qed.

Lemma ApplyEvent_done states (n : nat) ps err :
  states !! n = Some ps ->
  ApplyEvent states (doneEvent err (Z.of_nat n))
  = Some (<[n := applyDone ps err]> states).
Proof.
  intros H. unfold ApplyEvent.
  rewrite (out_of_range_test _ _ _ H), (indexSlice_lookup _ _ _ H), Nat2Z.id.
  reflexivity.
Qed.

Lemma ApplyEvent_ignored states ev :
  (eventIndex ev <? 0) || (eventIndex ev >=? len_slice states) = true ->
  ApplyEvent states ev = Some states.
Proof. intros H. destruct ev; simpl in *; rewrite H; reflexivity. Qed.

(** The three ways a call goes; none of them is a panic. *)
Lemma ApplyEvent_cases states ev :
  (ApplyEvent states ev = Some states /\
   (eventIndex ev < 0 \/ len_slice states <= eventIndex ev))
  \/ exists (n : nat) ps,
       eventIndex ev = Z.of_nat n /\ states !! n = Some ps /\
       ApplyEvent states ev
       = Some (<[n := match ev with
                      | lineEvent line _ => applyLine ps line
                      | doneEvent err _ => applyDone ps err
                      end]> states).
Proof.
  destruct ((eventIndex ev <? 0) || (eventIndex ev >=? len_slice states)) eqn:E.
  - left. split; [apply ApplyEvent_ignored, E|].
    rewrite Z.geb_leb in E. apply orb_true_iff in E. lia.
  - right. apply in_range_lookup in E as (n & ps & Hn & Hps).
    exists n, ps. split; [exact Hn|]. split; [exact Hps|].
    destruct ev; simpl in Hn; subst.
    + apply ApplyEvent_line, Hps.
    + apply ApplyEvent_done, Hps.
Qed.

Lemma applyLine_accounted ps line : accounted ps -> accounted (applyLine ps line).
Proof.
  unfold accounted, applyLine. intros H.
  pose proof (evictLoop_accounted (MaxLines ps) (MaxBytes ps) (Lines ps ++ [line])
                (GoInt.add (ByteSize ps) (len_string line))) as Hacc.
  destruct (evictLoop _ _ _ _) as [lines2 size2]. simpl in *.
  apply Hacc. rewrite byteTotal_snoc, H. reflexivity.
Qed.

Lemma applyLine_withinCaps ps line : accounted ps -> withinCaps (applyLine ps line).
Proof.
  unfold accounted, applyLine, withinCaps. intros H.
  pose proof (evictLoop_caps (MaxLines ps) (MaxBytes ps) (Lines ps ++ [line])
                (GoInt.add (ByteSize ps) (len_string line))) as Hcaps.
  destruct (evictLoop _ _ _ _) as [lines2 size2]. simpl in *.
  apply Hcaps. rewrite byteTotal_snoc, H. reflexivity.
Qed.

Lemma applyDone_accounted ps err : accounted ps -> accounted (applyDone ps err).
Proof. unfold accounted, applyDone. simpl. auto. Qed.

Lemma applyLine_caps ps line :
  MaxLines (applyLine ps line) = MaxLines ps /\ MaxBytes (applyLine ps line) = MaxBytes ps.
Proof. unfold applyLine. destruct (evictLoop _ _ _ _). split; reflexivity. Qed.

Lemma applyLine_line_cap ps line :
  0 < MaxLines ps -> len_slice (Lines (applyLine ps line)) <= MaxLines ps.
Proof.
  unfold applyLine. intros Hpos.
  pose proof (evictLoop_line_cap (MaxLines ps) (MaxBytes ps) (Lines ps ++ [line])
                (GoInt.add (ByteSize ps) (len_string line)) Hpos) as H.
  destruct (evictLoop _ _ _ _) as [lines2 size2]. exact H.
Qed.

(** A buffer keeps its configuration and its byte accounting through any
    call, whichever buffer the event is for. *)
Lemma ApplyEvent_keeps states ev (n : nat) ps :
  states !! n = Some ps ->
  exists states' ps',
    ApplyEvent states ev = Some states' /\ states' !! n = Some ps'
    /\ MaxLines ps' = MaxLines ps /\ MaxBytes ps' = MaxBytes ps
    /\ (accounted ps -> accounted ps').
Proof.
  intros Hps.
  destruct (ApplyEvent_cases states ev) as [[Heq _]|(m & qs & Hm & Hqs & Heq)].
  - exists states, ps. auto.
  - rewrite Heq. destruct (decide (m = n)) as [->|Hne].
    + eexists _, _. split; [reflexivity|]. split.
      * apply list_lookup_insert_eq. eapply lookup_lt_Some, Hps.
      * rewrite Hps in Hqs. injection Hqs as <-.
        destruct ev.
        -- destruct (applyLine_caps ps line) as [HL HB].
           split; [exact HL|]. split; [exact HB | apply applyLine_accounted].
        -- split; [reflexivity|]. split; [reflexivity | apply applyDone_accounted].
    + eexists _, ps.
      split; [reflexivity|]. split; [|auto].
      rewrite list_lookup_insert_ne by exact Hne. exact Hps.
Qed.

Lemma applyAll_keeps evs : forall states (n : nat) ps,
  states !! n = Some ps ->
  exists states' ps',
    applyAll states evs = Some states' /\ states' !! n = Some ps'
    /\ MaxLines ps' = MaxLines ps /\ MaxBytes ps' = MaxBytes ps
    /\ (accounted ps -> accounted ps').
Proof.
  induction evs as [|ev evs IH]; intros states n ps Hps; cbn [applyAll].
  - exists states, ps. auto.
  - destruct (ApplyEvent_keeps states ev n ps Hps)
      as (s1 & p1 & -> & Hp1 & HL1 & HB1 & Ha1).
    destruct (IH s1 n p1 Hp1) as (s2 & p2 & H2 & Hp2 & HL2 & HB2 & Ha2).
    exists s2, p2. repeat split; try assumption; try congruence. auto.
Qed.

Lemma applyAll_app states evs1 evs2 :
  applyAll states (evs1 ++ evs2)
  = match applyAll states evs1 with
    | Some states' => applyAll states' evs2
    | None => None
    end.
Proof.
  revert states. induction evs1 as [|ev evs1 IH]; intros states; simpl.
  - reflexivity.
  - destruct (ApplyEvent states ev); [apply IH | reflexivity].
Qed.

(** The repository's eviction tests, evaluated. *)
Example maxBytes_eviction :
  applyAll [newProcessState "test" 0 20]
           [lineEvent "12345" 0; lineEvent "67890" 0; lineEvent "ABCDE" 0;
            lineEvent "FGHIJ" 0; lineEvent "KLMNO" 0]
  = Some [{| Err := None; Name := "test";
             Lines := ["67890"; "ABCDE"; "FGHIJ"; "KLMNO"]; ByteSize := 20;
             MaxLines := 0; MaxBytes := 20;
             Done := false; Running := true; Dirty := true |}].
Proof. reflexivity. Qed.

Example dual_constraint_eviction :
  applyAll [newProcessState "test" 5 12]
           [lineEvent "lin01" 0; lineEvent "lin02" 0; lineEvent "lin03" 0]
  = Some [{| Err := None; Name := "test";
             Lines := ["lin02"; "lin03"]; ByteSize := 10;
             MaxLines := 5; MaxBytes := 12;
             Done := false; Running := true; Dirty := true |}].
Proof. reflexivity. Qed.

(** The byte bound relies on the accounting: a state whose [ByteSize]
    exceeds the bytes of its lines keeps the excess when the loop has
    emptied the buffer. *)
Example unaccounted_buffer :
  applyAll [{| Err := None; Name := "test"; Lines := []; ByteSize := 100;
               MaxLines := 0; MaxBytes := 10;
               Done := false; Running := true; Dirty := false |}]
           [lineEvent "a" 0]
  = Some [{| Err := None; Name := "test"; Lines := []; ByteSize := 100;
             MaxLines := 0; MaxBytes := 10;
             Done := false; Running := true; Dirty := true |}].
Proof. reflexivity. Qed.

(** C1.  The dual-constraint invariant.  Whatever events were applied
    before, after a line event is applied to buffer [n] the number of
    retained lines is at most a positive line cap; and for a buffer whose
    [ByteSize] is the byte total of its [Lines] (as [ByteSize]'s
    documentation has it, as holds of the initial state, and as every call
    preserves) the running byte total is at most a positive byte cap --
    both the [ByteSize] field and the sum of the lengths of the retained
    lines.  With both caps set, both bounds hold together.  No call
    panics. *)
Theorem ApplyEvent_dual_cap_invariant
    (states : list ProcessState) (n : nat) (ps : ProcessState)
    (earlier : list Event) (line : string) :
  states !! n = Some ps ->
  exists states' ps',
    applyAll states (earlier ++ [lineEvent line (Z.of_nat n)]) = Some states'
    /\ states' !! n = Some ps'
    /\ MaxLines ps' = MaxLines ps /\ MaxBytes ps' = MaxBytes ps
    /\ (0 < MaxLines ps' -> len_slice (Lines ps') <= MaxLines ps')
    /\ (accounted ps ->
        accounted ps'
        /\ (0 < MaxBytes ps' ->
            ByteSize ps' <= MaxBytes ps' /\ byteTotal (Lines ps') <= MaxBytes ps')).
Proof.
  intros Hps.
  destruct (applyAll_keeps earlier states n ps Hps)
    as (s1 & p1 & H1 & Hp1 & HL1 & HB1 & Ha1).
  rewrite applyAll_app, H1. cbn [applyAll]. rewrite (ApplyEvent_line _ _ _ _ Hp1).
  eexists _, _. split; [reflexivity|]. split.
  { apply list_lookup_insert_eq. eapply lookup_lt_Some, Hp1. }
  destruct (applyLine_caps p1 line) as [HL HB].
  split; [congruence|]. split; [congruence|]. split.
  - rewrite HL. apply applyLine_line_cap.
  - intros Hacc. specialize (Ha1 Hacc).
    pose proof (applyLine_accounted p1 line Ha1) as Ha.
    split; [exact Ha|]. intros Hpos.
    destruct (applyLine_withinCaps p1 line Ha1) as [_ Hbytes].
    unfold accounted in Ha. rewrite <- Ha. split; apply Hbytes, Hpos.
Qed.

Lemma ApplyEvent_dual_cap_invariant_witness :
  accounted (newProcessState "build" 2 8)
  /\ exists states' ps',
       applyAll [newProcessState "build" 2 8]
                ([lineEvent "12345" 0; doneEvent None 0] ++ [lineEvent "67890" (Z.of_nat 0)])
       = Some states'
       /\ states' !! 0%nat = Some ps'
       /\ MaxLines ps' = MaxLines (newProcessState "build" 2 8)
       /\ MaxBytes ps' = MaxBytes (newProcessState "build" 2 8)
       /\ (0 < MaxLines ps' -> len_slice (Lines ps') <= MaxLines ps')
       /\ (accounted (newProcessState "build" 2 8) ->
           accounted ps'
           /\ (0 < MaxBytes ps' ->
               ByteSize ps' <= MaxBytes ps' /\ byteTotal (Lines ps') <= MaxBytes ps')).
Proof.
  split; [reflexivity|].
  apply (ApplyEvent_dual_cap_invariant
           [newProcessState "build" 2 8] 0 (newProcessState "build" 2 8)
           [lineEvent "12345" 0; doneEvent None 0] "67890").
  reflexivity.
Defined.

(** C9.  [ApplyEvent] preserves the byte accounting: if [ByteSize] equals
    the sum of the byte lengths of [Lines] in every state of the slice,
    then after any event -- line or completion, any index -- the call
    returns and the equality holds in every state of the slice again. *)
Theorem ApplyEvent_preserves_accounting (states : list ProcessState) (ev : Event) :
  Forall accounted states ->
  exists states', ApplyEvent states ev = Some states' /\ Forall accounted states'.
Proof.
  intros Hall.
  destruct (ApplyEvent_cases states ev) as [[Heq _]|(m & qs & Hm & Hqs & Heq)].
  - exists states. auto.
  - rewrite Heq. eexists. split; [reflexivity|].
    apply Forall_insert; [exact Hall|].
    assert (Hq : accounted qs) by (eapply Forall_lookup_1; eassumption).
    destruct ev; [apply applyLine_accounted | apply applyDone_accounted]; exact Hq.
Qed.

Lemma ApplyEvent_preserves_accounting_witness :
  exists states',
    ApplyEvent [newProcessState "a" 1 0; newProcessState "b" 0 4] (lineEvent "hello" 1)
    = Some states' /\ Forall accounted states'.
Proof.
  apply (ApplyEvent_preserves_accounting
           [newProcessState "a" 1 0; newProcessState "b" 0 4] (lineEvent "hello" 1)).
  repeat constructor.
Defined.

(** C5.  An event whose index is negative or at least [len(states)] is
    ignored: the call returns without a panic and the slice it leaves is
    the slice it was given. *)
Theorem ApplyEvent_out_of_range (states : list ProcessState) (ev : Event) :
  eventIndex ev < 0 \/ len_slice states <= eventIndex ev ->
  ApplyEvent states ev = Some states.
Proof.
  intros H. apply ApplyEvent_ignored. rewrite Z.geb_leb. apply orb_true_iff. lia.
Qed.

Lemma ApplyEvent_out_of_range_witness :
  ApplyEvent [newProcessState "test" 0 0] (lineEvent "should be ignored" (-1))
  = Some [newProcessState "test" 0 0].
Proof.
  apply (ApplyEvent_out_of_range [newProcessState "test" 0 0]
           (lineEvent "should be ignored" (-1))).
  left. simpl. lia.
Defined.

Lemma applyLine_lineUpdate ps line : lineUpdate ps line (applyLine ps line).
Proof.
  unfold lineUpdate, applyLine.
  pose proof (evictLoop_evicts (MaxLines ps) (MaxBytes ps) (Lines ps ++ [line])
                (GoInt.add (ByteSize ps) (len_string line))) as H.
  destruct (evictLoop _ _ _ _) as [lines2 size2]. simpl. auto.
Qed.

(** C3.  On a line event for an in-range index the call replaces
    [states[n]] by a state that the specification's update relates to the
    old one -- the line appended, its length added to the byte total, the
    oldest lines evicted while a cap is exceeded and the buffer is not
    empty, the buffer marked dirty -- and that update has one outcome only.
    In particular lines ["l1"] to ["l5"] applied to an empty buffer with a
    line cap of 3 leave exactly ["l3"; "l4"; "l5"]. *)
Theorem ApplyEvent_line_update
    (states : list ProcessState) (n : nat) (ps : ProcessState) (line : string) :
  states !! n = Some ps ->
  (exists ps',
      ApplyEvent states (lineEvent line (Z.of_nat n)) = Some (<[n := ps']> states)
      /\ lineUpdate ps line ps'
      /\ (forall ps'', lineUpdate ps line ps'' ->
            Lines ps'' = Lines ps' /\ ByteSize ps'' = ByteSize ps' /\ Dirty ps'' = Dirty ps'))
  /\ (forall name,
        exists ps5,
          applyAll [newProcessState name 3 0]
                   [lineEvent "l1" 0; lineEvent "l2" 0; lineEvent "l3" 0;
                    lineEvent "l4" 0; lineEvent "l5" 0]
          = Some [ps5]
          /\ Lines ps5 = ["l3"; "l4"; "l5"]).
Proof.
  intros Hps. split.
  - exists (applyLine ps line). split; [apply ApplyEvent_line, Hps|].
    pose proof (applyLine_lineUpdate ps line) as Hup. split; [exact Hup|].
    intros ps'' [Hev Hdirty]. destruct Hup as [Hev' Hdirty'].
    pose proof (evicts_functional _ _ _ _ _ Hev Hev') as Heq.
    injection Heq as HL HB. rewrite Hdirty, Hdirty'. auto.
  - intros name. eexists. split; reflexivity.
Qed.

Lemma ApplyEvent_line_update_witness :
  (exists ps',
      ApplyEvent [newProcessState "a" 1 0] (lineEvent "x" (Z.of_nat 0))
      = Some (<[0%nat := ps']> [newProcessState "a" 1 0])
      /\ lineUpdate (newProcessState "a" 1 0) "x" ps'
      /\ (forall ps'', lineUpdate (newProcessState "a" 1 0) "x" ps'' ->
            Lines ps'' = Lines ps' /\ ByteSize ps'' = ByteSize ps' /\ Dirty ps'' = Dirty ps'))
  /\ (forall name,
        exists ps5,
          applyAll [newProcessState name 3 0]
                   [lineEvent "l1" 0; lineEvent "l2" 0; lineEvent "l3" 0;
                    lineEvent "l4" 0; lineEvent "l5" 0]
          = Some [ps5]
          /\ Lines ps5 = ["l3"; "l4"; "l5"]).
Proof.
  apply (ApplyEvent_line_update [newProcessState "a" 1 0] 0 (newProcessState "a" 1 0) "x").
  reflexivity.
Defined.

(** C6.  On a completion event for an in-range index the call sets
    [Done], clears [Running], stores the carried error and marks the
    buffer dirty.  Applying it to a process that an earlier completion
    event has finished is permitted and overwrites the stored error: the
    result is the same whatever error the earlier event carried. *)
Theorem ApplyEvent_done_update
    (states : list ProcessState) (n : nat) (ps : ProcessState) (err : option error) :
  states !! n = Some ps ->
  exists ps',
    ApplyEvent states (doneEvent err (Z.of_nat n)) = Some (<[n := ps']> states)
    /\ Done ps' = true /\ Running ps' = false /\ Err ps' = err /\ Dirty ps' = true
    /\ (forall earlier : option error,
          applyAll states [doneEvent earlier (Z.of_nat n); doneEvent err (Z.of_nat n)]
          = Some (<[n := ps']> states)).
Proof.
  intros Hps. exists (applyDone ps err).
  split; [apply ApplyEvent_done, Hps|]. repeat split.
  intros earlier. cbn [applyAll].
  rewrite (ApplyEvent_done _ _ _ _ Hps).
  assert (Hin : <[n := applyDone ps earlier]> states !! n = Some (applyDone ps earlier)).
  { apply list_lookup_insert_eq. eapply lookup_lt_Some, Hps. }
  rewrite (ApplyEvent_done _ _ _ _ Hin), list_insert_insert_eq.
  reflexivity.
Qed.

Lemma ApplyEvent_done_update_witness :
  exists ps',
    ApplyEvent [newProcessState "test" 0 0] (doneEvent (Some (errorString "different error")) (Z.of_nat 0))
    = Some (<[0%nat := ps']> [newProcessState "test" 0 0])
    /\ Done ps' = true /\ Running ps' = false
    /\ Err ps' = Some (errorString "different error") /\ Dirty ps' = true
    /\ (forall earlier : option error,
          applyAll [newProcessState "test" 0 0]
                   [doneEvent earlier (Z.of_nat 0);
                    doneEvent (Some (errorString "different error")) (Z.of_nat 0)]
          = Some (<[0%nat := ps']> [newProcessState "test" 0 0])).
Proof.
  apply (ApplyEvent_done_update [newProcessState "test" 0 0] 0
           (newProcessState "test" 0 0) (Some (errorString "different error"))).
  reflexivity.
Defined.

(** C10.  The frame of [ApplyEvent].  An event with in-range index [n]
    changes [states[n]] only: the slice keeps its length and every other
    element.  In [states[n]] neither kind of event changes [Name],
    [MaxLines] and [MaxBytes]; a line event leaves [Done], [Running] and
    [Err] as they were, and a completion event leaves [Lines] and
    [ByteSize] as they were. *)
Theorem ApplyEvent_frame
    (states : list ProcessState) (ev : Event) (n : nat) (ps : ProcessState) :
  eventIndex ev = Z.of_nat n ->
  states !! n = Some ps ->
  exists states' ps',
    ApplyEvent states ev = Some states'
    /\ length states' = length states
    /\ states' !! n = Some ps'
    /\ (forall m : nat, m <> n -> states' !! m = states !! m)
    /\ Name ps' = Name ps /\ MaxLines ps' = MaxLines ps /\ MaxBytes ps' = MaxBytes ps
    /\ match ev with
       | lineEvent _ _ =>
           Done ps' = Done ps /\ Running ps' = Running ps /\ Err ps' = Err ps
       | doneEvent _ _ =>
           Lines ps' = Lines ps /\ ByteSize ps' = ByteSize ps
       end.
Proof.
  intros Hidx Hps.
  assert (Hlt : (n < length states)%nat) by (eapply lookup_lt_Some, Hps).
  destruct ev as [line i|err i]; simpl in Hidx; subst i.
  - rewrite (ApplyEvent_line _ _ _ _ Hps).
    exists (<[n := applyLine ps line]> states), (applyLine ps line).
    split; [reflexivity|]. split; [apply length_insert|].
    split; [apply list_lookup_insert_eq, Hlt|].
    split; [intros m Hm; apply list_lookup_insert_ne; congruence|].
    unfold applyLine. destruct (evictLoop _ _ _ _). simpl. repeat split.
  - rewrite (ApplyEvent_done _ _ _ _ Hps).
    exists (<[n := applyDone ps err]> states), (applyDone ps err).
    split; [reflexivity|]. split; [apply length_insert|].
    split; [apply list_lookup_insert_eq, Hlt|].
    split; [intros m Hm; apply list_lookup_insert_ne; congruence|].
    simpl. repeat split.
Qed.

Lemma ApplyEvent_frame_witness :
  exists states' ps',
    ApplyEvent [newProcessState "a" 1 0; newProcessState "b" 0 4] (lineEvent "hello" 1)
    = Some states'
    /\ length states' = length [newProcessState "a" 1 0; newProcessState "b" 0 4]
    /\ states' !! 1%nat = Some ps'
    /\ (forall m : nat, m <> 1%nat ->
          states' !! m = [newProcessState "a" 1 0; newProcessState "b" 0 4] !! m)
    /\ Name ps' = Name (newProcessState "b" 0 4)
    /\ MaxLines ps' = MaxLines (newProcessState "b" 0 4)
    /\ MaxBytes ps' = MaxBytes (newProcessState "b" 0 4)
    /\ (Done ps' = Done (newProcessState "b" 0 4)
        /\ Running ps' = Running (newProcessState "b" 0 4)
        /\ Err ps' = Err (newProcessState "b" 0 4)).
Proof.
  apply (ApplyEvent_frame [newProcessState "a" 1 0; newProcessState "b" 0 4]
           (lineEvent "hello" 1) 1 (newProcessState "b" 0 4)).
  - reflexivity.
  - reflexivity.
Defined.

(** C4.  The aggregate exit code is 0 exactly when every state has a nil
    [Err] (so also for the empty list), 1 exactly when some state has a
    non-nil [Err], and never anything else. *)
Theorem ExitCodeFromStates_aggregate (states : list ProcessState) :
  (ExitCodeFromStates states = 0 <-> Forall (fun ps => Err ps = None) states)
  /\ (ExitCodeFromStates states = 1 <-> Exists (fun ps => Err ps <> None) states)
  /\ (ExitCodeFromStates states = 0 \/ ExitCodeFromStates states = 1).
Proof.
  induction states as [|ps states (IH0 & IH1 & IH)]; simpl.
  - split; [|split].
    + split; [constructor | reflexivity].
    + split; [discriminate | intros H; inversion H].
    + left. reflexivity.
  - destruct (Err ps) as [e|] eqn:E.
    + split; [|split].
      * split; [discriminate|]. intros H. inversion H; congruence.
      * split; [|reflexivity]. intros _. apply Exists_cons_hd. congruence.
      * right. reflexivity.
    + split; [|split].
      * rewrite IH0. split.
        -- intros H. constructor; assumption.
        -- intros H. inversion H; assumption.
      * rewrite IH1. split.
        -- intros H. apply Exists_cons_tl, H.
        -- intros H. inversion H; [congruence | assumption].
      * exact IH.
Qed.

(** ** Strings *)

Lemma app_cons (a : Ascii.ascii) (s t : string) :
  String a s +:+ t = String a (s +:+ t).
Proof. reflexivity. Qed.

Lemma app_empty_l (t : string) : EmptyString +:+ t = t.
Proof. reflexivity. Qed.

Lemma length_app (a b : string) :
  String.length (a +:+ b) = (String.length a + String.length b)%nat.
Proof. induction a as [|c a IH]; simpl; [reflexivity | rewrite IH; reflexivity]. Qed.

Ltac Zbool :=
  symmetry;
  first [apply Z.ltb_lt | apply Z.ltb_ge | apply Z.leb_le | apply Z.leb_gt
        | apply Z.eqb_eq | apply Z.eqb_neq];
  unfold len_string; rewrite ?length_app; cbn [String.length]; lia.

Lemma substring_all (s : string) : String.substring 0 (String.length s) s = s.
Proof. induction s as [|c s IH]; simpl; [reflexivity | rewrite IH; reflexivity]. Qed.

Lemma substring_app_l (a b : string) :
  String.substring 0 (String.length a) (a +:+ b) = a.
Proof.
  induction a as [|c a IH]; simpl.
  - destruct b; reflexivity.
  - rewrite IH. reflexivity.
Qed.

Lemma substring_app_r (a b : string) :
  String.substring (String.length a) (String.length b) (a +:+ b) = b.
Proof. induction a as [|c a IH]; simpl; [apply substring_all | exact IH]. Qed.

Lemma length_substring (n m : nat) (s : string) :
  (n + m <= String.length s)%nat -> String.length (String.substring n m s) = m.
Proof.
  revert n m. induction s as [|c s IH]; intros n m H; simpl in *.
  - destruct n, m; simpl; lia.
  - destruct n as [|n].
    + destruct m as [|m]; simpl; [reflexivity|]. rewrite IH by lia. reflexivity.
    + apply IH. lia.
Qed.

Lemma get_last (s : string) :
  String.get (String.length s - 1)%nat s = lastByte s.
Proof.
  induction s as [|c s IH]; [reflexivity|].
  destruct s as [|c' s]; [reflexivity|].
  cbn [String.length lastByte] in *.
  replace (S (S (String.length s)) - 1)%nat with (S (String.length s)) by lia.
  replace (S (String.length s) - 1)%nat with (String.length s) in IH by lia.
  cbn [String.get]. exact IH.
Qed.

Lemma lastByte_app (a b : string) : b <> EmptyString -> lastByte (a +:+ b) = lastByte b.
Proof.
  intros Hb. induction a as [|c a IH]; simpl; [reflexivity|].
  destruct (a +:+ b) eqn:E; [|exact IH].
  destruct a; simpl in E; [contradiction | discriminate].
Qed.

Lemma dropCR_spec (s : string) :
  dropCR s = match lastByte s with
             | Some a => if Ascii.eqb a CR
                         then String.substring 0 (String.length s - 1)%nat s
                         else s
             | None => s
             end.
Proof.
  unfold dropCR, len_string, slice. rewrite Z.gtb_ltb.
  replace (Z.to_nat (Z.of_nat (String.length s) - 1)) with (String.length s - 1)%nat by lia.
  rewrite get_last.
  destruct s as [|c s]; [reflexivity|].
  replace (0 <? Z.of_nat (String.length (String c s))) with true by Zbool.
  rewrite andb_true_l.
  destruct (lastByte (String c s)) as [a|]; [|reflexivity].
  destruct (Ascii.eqb a CR); [|reflexivity].
  f_equal. lia.
Qed.

Lemma dropCR_app_CR (s : string) : dropCR (s +:+ String CR EmptyString) = s.
Proof.
  rewrite dropCR_spec, lastByte_app by discriminate. simpl.
  rewrite length_app. simpl.
  replace (String.length s + 1 - 1)%nat with (String.length s) by lia.
  apply substring_app_l.
Qed.

Lemma dropCR_no_EOL (s : string) : endsWithEOL s = false -> dropCR s = s.
Proof.
  unfold endsWithEOL. rewrite dropCR_spec.
  destruct (lastByte s) as [a|]; [|reflexivity].
  simpl. destruct (Ascii.eqb a CR); [discriminate | reflexivity].
Qed.

Lemma plainText_no_EOL (s : string) : plainText s = true -> endsWithEOL s = false.
Proof.
  unfold endsWithEOL. induction s as [|c s IH]; simpl; [reflexivity|].
  intros H. apply andb_prop in H as [Hc Hs].
  destruct s as [|c' s].
  - apply negb_true_iff in Hc. exact Hc.
  - apply IH, Hs.
Qed.

Lemma plainText_app (a b : string) :
  plainText (a +:+ b) = plainText a && plainText b.
Proof.
  induction a as [|c a IH]; simpl; [reflexivity|].
  rewrite IH. apply andb_assoc.
Qed.

Lemma TrimRight_no_EOL (s : string) : endsWithEOL s = false -> TrimRight s crlf = s.
Proof.
  unfold endsWithEOL. induction s as [|c s IH]; [reflexivity|].
  intros H. cbn [TrimRight]. destruct s as [|c' s].
  - simpl in *. rewrite H. reflexivity.
  - rewrite IH by exact H. reflexivity.
Qed.

Lemma TrimRight_app_CR (s : string) :
  endsWithEOL s = false -> TrimRight (s +:+ String CR EmptyString) crlf = s.
Proof.
  unfold endsWithEOL. induction s as [|c s IH]; [reflexivity|].
  intros H. destruct s as [|c' s].
  - simpl in *. rewrite H. reflexivity.
  - change (String c (String c' s) +:+ String CR EmptyString)
      with (String c (String c' s +:+ String CR EmptyString)).
    cbn [TrimRight]. rewrite IH by exact H. reflexivity.
Qed.

Lemma TrimRight_ends (s : string) : endsWithEOL (TrimRight s crlf) = false.
Proof.
  unfold endsWithEOL. induction s as [|c s IH]; [reflexivity|].
  cbn [TrimRight]. destruct (TrimRight s crlf) as [|c' r] eqn:E.
  - destruct (inCutset c crlf) eqn:Ec; simpl; [reflexivity | exact Ec].
  - exact IH.
Qed.

Lemma inCutset_crlf (a : Ascii.ascii) :
  inCutset a crlf = Ascii.eqb a CR || Ascii.eqb a LF.
Proof. unfold crlf. cbn [inCutset]. rewrite orb_false_r. reflexivity. Qed.

Lemma plainText_cons (a : Ascii.ascii) (s : string) :
  plainText (String a s) = true ->
  Ascii.eqb a CR = false /\ Ascii.eqb a LF = false /\ plainText s = true.
Proof.
  cbn [plainText]. rewrite inCutset_crlf. intros H.
  apply andb_prop in H as [Ha Hs].
  apply negb_true_iff, orb_false_iff in Ha as [H1 H2]. auto.
Qed.

(** ** [bufio.ScanLines] *)

Lemma IndexByte_range (d : string) (c : Ascii.ascii) :
  IndexByte d c = -1 \/ 0 <= IndexByte d c < len_string d.
Proof.
  unfold len_string. induction d as [|a d IH]; simpl; [left; reflexivity|].
  destruct (Ascii.eqb a c); [right; lia|].
  destruct (IndexByte d c <? 0) eqn:E; [left; reflexivity | right; lia].
Qed.

Lemma IndexByte_plain_LF (text rest : string) :
  plainText text = true ->
  IndexByte (text +:+ String LF rest) LF = len_string text.
Proof.
  unfold len_string. induction text as [|a text IH]; intros H.
  - reflexivity.
  - apply plainText_cons in H as (_ & Ha & Ht).
    rewrite app_cons. cbn [IndexByte String.length].
    rewrite Ha, IH by exact Ht.
    replace (Z.of_nat (String.length text) <? 0) with false by Zbool. lia.
Qed.

Lemma IndexByte_plain_none (text : string) :
  plainText text = true -> IndexByte text LF = -1.
Proof.
  induction text as [|a text IH]; intros H; [reflexivity|].
  apply plainText_cons in H as (_ & Ha & Ht).
  cbn [IndexByte]. rewrite Ha, IH by exact Ht. reflexivity.
Qed.

Lemma ScanLines_advance (d : string) advance token :
  ScanLines d true = (advance, Some token) -> 0 < advance <= len_string d.
Proof.
  unfold ScanLines. rewrite Z.geb_leb. simpl.
  destruct (len_string d =? 0) eqn:E0; [discriminate|].
  apply Z.eqb_neq in E0.
  destruct (IndexByte_range d LF) as [Hi|Hi].
  - rewrite Hi. simpl. intros H. injection H as <- _.
    unfold len_string in *. lia.
  - replace (0 <=? IndexByte d LF) with true by Zbool.
    intros H. injection H as <- _. lia.
Qed.

Lemma length_sliceFrom (d : string) (advance : Z) :
  0 <= advance <= len_string d ->
  len_string (sliceFrom d advance) = len_string d - advance.
Proof.
  unfold sliceFrom, slice, len_string. intros H.
  rewrite length_substring by lia. lia.
Qed.

Lemma scanLoop_fuel (maxTokenSize : Z) (n m : nat) : forall d : string,
  (String.length d < n)%nat -> (String.length d < m)%nat ->
  scanLoop maxTokenSize n d = scanLoop maxTokenSize m d.
Proof.
  revert m. induction n as [|n IH]; intros m d Hn Hm; [lia|].
  destruct m as [|m]; [lia|]. cbn [scanLoop].
  destruct (ScanLines d true) as [advance [token|]] eqn:E; [|reflexivity].
  destruct (tokenFits maxTokenSize d); [|reflexivity].
  apply ScanLines_advance in E as Hadv.
  pose proof (length_sliceFrom d advance ltac:(lia)) as Hlen.
  unfold len_string in *. rewrite (IH m) by lia. reflexivity.
Qed.

(** A token that fits is scanned, and scanning goes on behind it. *)
Lemma scanAll_step (maxTokenSize : Z) (d : string) advance token :
  ScanLines d true = (advance, Some token) ->
  tokenFits maxTokenSize d = true ->
  scanAll maxTokenSize d
  = (token :: fst (scanAll maxTokenSize (sliceFrom d advance)),
     snd (scanAll maxTokenSize (sliceFrom d advance))).
Proof.
  intros E Hfits. unfold scanAll at 1. cbn [scanLoop]. rewrite E, Hfits.
  apply ScanLines_advance in E as Hadv.
  pose proof (length_sliceFrom d advance ltac:(lia)) as Hlen.
  unfold scanAll, len_string in *.
  rewrite (scanLoop_fuel _ (String.length d) (S (String.length (sliceFrom d advance)))) by lia.
  destruct (scanLoop _ _ _). reflexivity.
Qed.

Lemma scanAll_empty (maxTokenSize : Z) : scanAll maxTokenSize EmptyString = ([], None).
Proof. reflexivity. Qed.

Lemma sliceFrom_app (a b : string) :
  sliceFrom (a +:+ b) (len_string a) = b.
Proof.
  unfold sliceFrom, slice, len_string. rewrite length_app.
  replace (Z.to_nat (Z.of_nat (String.length a + String.length b) - Z.of_nat (String.length a)))
    with (String.length b) by lia.
  rewrite Nat2Z.id. apply substring_app_r.
Qed.

Lemma slice_app (a b : string) : slice (a +:+ b) 0 (len_string a) = a.
Proof.
  unfold slice, len_string. simpl Z.to_nat.
  replace (Z.to_nat (Z.of_nat (String.length a) - 0)) with (String.length a) by lia.
  apply substring_app_l.
Qed.

Lemma app_assoc_string (a b c : string) : (a +:+ b) +:+ c = a +:+ (b +:+ c).
Proof.
  induction a as [|x a IH]; [reflexivity|]. rewrite !app_cons, IH. reflexivity.
Qed.

(** A plain text followed by a newline is the next token. *)
Lemma scanAll_LF (maxTokenSize : Z) (text rest : string) :
  plainText text = true ->
  len_string text + 1 <= maxTokenSize ->
  scanAll maxTokenSize (text +:+ String LF rest)
  = (text :: fst (scanAll maxTokenSize rest), snd (scanAll maxTokenSize rest)).
Proof.
  intros Hplain Hfit.
  assert (E : ScanLines (text +:+ String LF rest) true
              = (len_string text + 1, Some text)).
  { unfold ScanLines. rewrite Z.geb_leb. simpl andb.
    replace (len_string (text +:+ String LF rest) =? 0) with false by Zbool.
    rewrite IndexByte_plain_LF by exact Hplain.
    replace (0 <=? len_string text) with true by Zbool.
    rewrite slice_app, dropCR_no_EOL by (apply plainText_no_EOL, Hplain).
    reflexivity. }
  assert (Hfits : tokenFits maxTokenSize (text +:+ String LF rest) = true).
  { unfold tokenFits. rewrite Z.geb_leb, IndexByte_plain_LF by exact Hplain.
    replace (0 <=? len_string text) with true by Zbool.
    apply Z.leb_le, Hfit. }
  rewrite (scanAll_step _ _ _ _ E Hfits).
  change (text +:+ String LF rest) with (text +:+ (String LF EmptyString +:+ rest)).
  rewrite <- app_assoc_string.
  replace (len_string text + 1) with (len_string (text +:+ String LF EmptyString))
    by (unfold len_string; rewrite length_app; cbn [String.length]; lia).
  rewrite sliceFrom_app. reflexivity.
Qed.

(** A plain text followed by a carriage return and a newline is the next
    token, too. *)
Lemma scanAll_CRLF (maxTokenSize : Z) (text rest : string) :
  plainText text = true ->
  len_string text + 2 <= maxTokenSize ->
  scanAll maxTokenSize (text +:+ String CR (String LF rest))
  = (text :: fst (scanAll maxTokenSize rest), snd (scanAll maxTokenSize rest)).
Proof.
  intros Hplain Hfit.
  assert (Hidx : IndexByte (text +:+ String CR (String LF rest)) LF = len_string text + 1).
  { clear Hfit. unfold len_string. induction text as [|a text IH].
    - reflexivity.
    - apply plainText_cons in Hplain as (_ & Ha & Ht).
      rewrite app_cons. cbn [IndexByte String.length].
      rewrite Ha, IH by exact Ht.
      replace (Z.of_nat (String.length text) + 1 <? 0) with false by Zbool. lia. }
  assert (E : ScanLines (text +:+ String CR (String LF rest)) true
              = (len_string text + 2, Some text)).
  { unfold ScanLines. rewrite Z.geb_leb. simpl andb.
    replace (len_string (text +:+ String CR (String LF rest)) =? 0) with false by Zbool.
    rewrite Hidx.
    replace (0 <=? len_string text + 1) with true by Zbool.
    change (text +:+ String CR (String LF rest))
      with (text +:+ (String CR EmptyString +:+ String LF rest)).
    rewrite <- app_assoc_string.
    replace (len_string text + 1) with (len_string (text +:+ String CR EmptyString))
      by (unfold len_string; rewrite length_app; cbn [String.length]; lia).
    rewrite slice_app, dropCR_app_CR.
    f_equal. unfold len_string. rewrite length_app. cbn [String.length]. lia. }
  assert (Hfits : tokenFits maxTokenSize (text +:+ String CR (String LF rest)) = true).
  { unfold tokenFits. rewrite Z.geb_leb, Hidx.
    replace (0 <=? len_string text + 1) with true by Zbool.
    apply Z.leb_le. lia. }
  rewrite (scanAll_step _ _ _ _ E Hfits).
  change (text +:+ String CR (String LF rest))
    with (text +:+ (String CR (String LF EmptyString) +:+ rest)).
  rewrite <- app_assoc_string.
  replace (len_string text + 2)
    with (len_string (text +:+ String CR (String LF EmptyString)))
    by (unfold len_string; rewrite length_app; cbn [String.length]; lia).
  rewrite sliceFrom_app. reflexivity.
Qed.

(** Text without a newline is one token, whatever carriage returns it
    holds before its last byte. *)
Lemma scanAll_no_LF (maxTokenSize : Z) (d : string) :
  d <> EmptyString -> IndexByte d LF = -1 -> len_string d < maxTokenSize ->
  scanAll maxTokenSize d = ([dropCR d], None).
Proof.
  intros Hne Hidx Hfit.
  assert (Hlen : 0 < len_string d).
  { unfold len_string. destruct d; [contradiction | cbn [String.length]; lia]. }
  assert (E : ScanLines d true = (len_string d, Some (dropCR d))).
  { unfold ScanLines. rewrite Z.geb_leb. simpl andb.
    replace (len_string d =? 0) with false by (symmetry; apply Z.eqb_neq; lia).
    rewrite Hidx. reflexivity. }
  assert (Hfits : tokenFits maxTokenSize d = true).
  { unfold tokenFits. rewrite Hidx. simpl. apply Z.ltb_lt, Hfit. }
  rewrite (scanAll_step _ _ _ _ E Hfits).
  assert (Hrest : sliceFrom d (len_string d) = EmptyString).
  { unfold sliceFrom, slice.
    replace (len_string d - len_string d) with 0 by lia.
    unfold len_string. rewrite Nat2Z.id. simpl Z.to_nat.
    clear. induction d as [|a d IH]; [reflexivity | exact IH]. }
  rewrite Hrest. reflexivity.
Qed.

Lemma IndexByte_app_no_LF (a b : string) :
  IndexByte a LF = -1 -> IndexByte b LF = -1 -> IndexByte (a +:+ b) LF = -1.
Proof.
  intros Ha Hb. induction a as [|x a IH]; [exact Hb|].
  rewrite app_cons. cbn [IndexByte] in *.
  destruct (Ascii.eqb x LF); [discriminate|].
  destruct (IndexByte a LF <? 0) eqn:E.
  - rewrite IH; [reflexivity|]. apply Z.ltb_lt in E.
    destruct (IndexByte_range a LF) as [H|H]; [exact H | lia].
  - lia.
Qed.

(** ** The line framer *)

(** The ceiling [streamReader] sets. *)
Lemma streamReader_ceiling :
  Z.max scannerInitialBufferSize scannerMaxBufferSize = scannerMaxBufferSize.
Proof. reflexivity. Qed.

Lemma framedLines_cons (d rest : string) (token : string) (err : error) :
  scanAll scannerMaxBufferSize d
  = (token :: fst (scanAll scannerMaxBufferSize rest),
     snd (scanAll scannerMaxBufferSize rest)) ->
  framedLines (mkStream d err) = TrimRight token crlf :: framedLines (mkStream rest err).
Proof.
  intros H. unfold framedLines, streamReader, Scanner_Buffer, bufio_NewScanner.
  rewrite streamReader_ceiling. cbn [scan_tokens scan_err stream_data stream_err].
  rewrite H. cbn [fst snd]. rewrite !map_app, !map_map. reflexivity.
Qed.

Lemma noNewline_spec (s : string) : noNewline s = true <-> IndexByte s LF = -1.
Proof.
  unfold noNewline. destruct (IndexByte_range s LF) as [H|H].
  - rewrite H. split; reflexivity.
  - split; intros H'; [apply Z.ltb_lt in H' | ]; lia.
Qed.

Lemma plainText_noNewline (s : string) : plainText s = true -> noNewline s = true.
Proof. intros H. apply noNewline_spec, IndexByte_plain_none, H. Qed.

Lemma noNewline_app_CR (a b : string) :
  noNewline a = true -> noNewline b = true -> noNewline (a +:+ String CR b) = true.
Proof.
  rewrite !noNewline_spec. intros Ha Hb.
  apply IndexByte_app_no_LF; [exact Ha|].
  cbn [IndexByte]. replace (Ascii.eqb CR LF) with false by reflexivity.
  rewrite Hb. reflexivity.
Qed.

(** The first newline behind a text without one. *)
Lemma IndexByte_next_LF (text rest : string) :
  IndexByte text LF = -1 ->
  IndexByte (text +:+ String LF rest) LF = len_string text.
Proof.
  unfold len_string. induction text as [|a text IH]; intros H.
  - reflexivity.
  - rewrite app_cons. cbn [IndexByte String.length] in *.
    destruct (Ascii.eqb a LF); [discriminate|].
    destruct (IndexByte text LF <? 0) eqn:E; [|lia].
    apply Z.ltb_lt in E.
    rewrite IH by (destruct (IndexByte_range text LF) as [Hi|Hi]; [exact Hi | lia]).
    replace (Z.of_nat (String.length text) <? 0) with false by Zbool. lia.
Qed.

Lemma lastByte_snoc (s : string) (a : Ascii.ascii) :
  lastByte s = Some a ->
  s = String.substring 0 (String.length s - 1)%nat s +:+ String a EmptyString.
Proof.
  induction s as [|c s IH]; [discriminate|].
  destruct s as [|c' s].
  - intros H. injection H as <-. reflexivity.
  - intros H. cbn [lastByte] in H. specialize (IH H).
    cbn [String.length] in *.
    replace (S (S (String.length s)) - 1)%nat with (S (String.length s)) by lia.
    replace (S (String.length s) - 1)%nat with (String.length s) in IH by lia.
    cbn [String.substring]. rewrite app_cons. f_equal. exact IH.
Qed.

Lemma TrimRight_snoc (s cutset : string) (c : Ascii.ascii) :
  inCutset c cutset = true ->
  TrimRight (s +:+ String c EmptyString) cutset = TrimRight s cutset.
Proof.
  intros Hc. induction s as [|a s IH].
  - change (TrimRight (String c EmptyString) cutset = EmptyString).
    cbn [TrimRight]. rewrite Hc. reflexivity.
  - rewrite app_cons. cbn [TrimRight]. rewrite IH. reflexivity.
Qed.

(** Trimming makes the carriage return [ScanLines] drops invisible. *)
Lemma TrimRight_dropCR (s : string) : TrimRight (dropCR s) crlf = TrimRight s crlf.
Proof.
  rewrite dropCR_spec. destruct (lastByte s) as [a|] eqn:E; [|reflexivity].
  destruct (Ascii.eqb a CR) eqn:Ea; [|reflexivity].
  apply lastByte_snoc in E.
  transitivity (TrimRight (String.substring 0 (String.length s - 1)%nat s
                           +:+ String a EmptyString) crlf);
    [|rewrite <- E; reflexivity].
  rewrite TrimRight_snoc; [reflexivity|].
  rewrite inCutset_crlf, Ea. reflexivity.
Qed.

(** A text without a newline, followed by a newline, is the next token,
    less one carriage return at its end. *)
Lemma scanAll_next_LF (maxTokenSize : Z) (text rest : string) :
  IndexByte text LF = -1 ->
  len_string text + 1 <= maxTokenSize ->
  scanAll maxTokenSize (text +:+ String LF rest)
  = (dropCR text :: fst (scanAll maxTokenSize rest), snd (scanAll maxTokenSize rest)).
Proof.
  intros Hidx Hfit.
  assert (E : ScanLines (text +:+ String LF rest) true
              = (len_string text + 1, Some (dropCR text))).
  { unfold ScanLines. rewrite Z.geb_leb. simpl andb.
    replace (len_string (text +:+ String LF rest) =? 0) with false by Zbool.
    rewrite IndexByte_next_LF by exact Hidx.
    replace (0 <=? len_string text) with true by Zbool.
    rewrite slice_app. reflexivity. }
  assert (Hfits : tokenFits maxTokenSize (text +:+ String LF rest) = true).
  { unfold tokenFits. rewrite Z.geb_leb, IndexByte_next_LF by exact Hidx.
    replace (0 <=? len_string text) with true by Zbool.
    apply Z.leb_le, Hfit. }
  rewrite (scanAll_step _ _ _ _ E Hfits).
  change (text +:+ String LF rest) with (text +:+ (String LF EmptyString +:+ rest)).
  rewrite <- app_assoc_string.
  replace (len_string text + 1) with (len_string (text +:+ String LF EmptyString))
    by (unfold len_string; rewrite length_app; cbn [String.length]; lia).
  rewrite sliceFrom_app. reflexivity.
Qed.

(** Every newline ends a line: the line is the text before it, less the
    carriage returns at its end. *)
Lemma framedLines_next_LF (text rest : string) (err : error) :
  noNewline text = true ->
  len_string text + 1 <= scannerMaxBufferSize ->
  framedLines (mkStream (text +:+ String LF rest) err)
  = TrimRight text crlf :: framedLines (mkStream rest err).
Proof.
  intros Hnl Hfit. apply noNewline_spec in Hnl.
  rewrite (framedLines_cons _ rest (dropCR text)).
  - rewrite TrimRight_dropCR. reflexivity.
  - apply scanAll_next_LF; [exact Hnl | exact Hfit].
Qed.

(** What is left behind the last newline is the last line. *)
Lemma framedLines_last (text : string) (err : error) :
  noNewline text = true -> text <> EmptyString ->
  len_string text < scannerMaxBufferSize ->
  framedLines (mkStream text err)
  = TrimRight text crlf :: framedLines (mkStream EmptyString err).
Proof.
  intros Hnl Hne Hfit. apply noNewline_spec in Hnl.
  rewrite (framedLines_cons _ EmptyString (dropCR text)).
  - rewrite TrimRight_dropCR. reflexivity.
  - rewrite (scanAll_no_LF _ _ Hne Hnl Hfit). reflexivity.
Qed.

Lemma terminatesLine_LF : terminatesLine (String LF EmptyString).
Proof.
  intros text rest err Hnl Hend Hfit.
  change (text +:+ String LF EmptyString +:+ rest) with (text +:+ String LF rest).
  rewrite (framedLines_next_LF _ _ _ Hnl Hfit), TrimRight_no_EOL by exact Hend.
  reflexivity.
Qed.

Lemma terminatesLine_CRLF : terminatesLine crlf.
Proof.
  intros text rest err Hnl Hend Hfit.
  change (text +:+ crlf +:+ rest)
    with (text +:+ (String CR EmptyString +:+ String LF rest)).
  rewrite <- app_assoc_string.
  rewrite framedLines_next_LF.
  - rewrite TrimRight_app_CR by exact Hend. reflexivity.
  - apply noNewline_app_CR; [exact Hnl | reflexivity].
  - revert Hfit. unfold len_string. rewrite length_app.
    cbn [String.length crlf]. lia.
Qed.

(** Trimming stops at the last byte that is not in the cutset: a carriage
    return with such a byte behind it stays inside its line. *)
Lemma TrimRight_app_keep (a b cutset : string) :
  TrimRight b cutset <> EmptyString ->
  TrimRight (a +:+ b) cutset = a +:+ TrimRight b cutset.
Proof.
  intros Hb. induction a as [|c a IH]; [reflexivity|].
  rewrite !app_cons. cbn [TrimRight]. rewrite IH.
  destruct (a +:+ TrimRight b cutset) eqn:E; [|reflexivity].
  destruct a; simpl in E; [contradiction | discriminate].
Qed.

Lemma streamReader_no_EOL (scanner : Scanner) (idx : Z) :
  Forall (fun pl => endsWithEOL (plLine pl) = false) (streamReader scanner idx).
Proof.
  unfold streamReader. apply Forall_app. split.
  - apply Forall_map, Forall_forall. intros token _. apply TrimRight_ends.
  - destruct (scan_err _) as [err|]; [|constructor].
    destruct (negb _); constructor; [|constructor].
    unfold endsWithEOL. simpl plLine.
    rewrite !lastByte_app; [reflexivity | discriminate |].
    destruct (Error err); discriminate.
Qed.

Lemma IndexByte_app_found (d more : string) :
  0 <= IndexByte d LF -> IndexByte (d +:+ more) LF = IndexByte d LF.
Proof.
  induction d as [|a d IH]; intros H; [simpl in H; lia|].
  rewrite app_cons. cbn [IndexByte] in *.
  destruct (Ascii.eqb a LF); [reflexivity|].
  destruct (IndexByte d LF <? 0) eqn:E; [lia|].
  apply Z.ltb_ge in E as E'. rewrite (IH E'), E. reflexivity.
Qed.

Lemma substring_app_prefix (n : nat) (d more : string) :
  (n <= String.length d)%nat ->
  String.substring 0 n (d +:+ more) = String.substring 0 n d.
Proof.
  revert n. induction d as [|a d IH]; intros n Hn.
  - cbn [String.length] in Hn. replace n with 0%nat by lia.
    destruct more; reflexivity.
  - rewrite app_cons. destruct n as [|n]; [reflexivity|].
    cbn [String.substring String.length] in *. rewrite IH by lia. reflexivity.
Qed.

(** A buffer that holds a newline yields the same token whatever follows
    it and whether or not the input has ended. *)
Lemma ScanLines_more_data (d more : string) (atEOF : bool) advance token :
  ScanLines d false = (advance, Some token) ->
  ScanLines (d +:+ more) atEOF = (advance, Some token).
Proof.
  unfold ScanLines. rewrite !Z.geb_leb. simpl andb.
  destruct (IndexByte_range d LF) as [Hi|Hi].
  - rewrite Hi. simpl. discriminate.
  - replace (0 <=? IndexByte d LF) with true by Zbool.
    intros H. injection H as <- <-.
    rewrite IndexByte_app_found by lia.
    replace (len_string (d +:+ more) =? 0) with false
      by (symmetry; apply Z.eqb_neq; unfold len_string in *; rewrite length_app; lia).
    rewrite andb_false_r.
    replace (0 <=? IndexByte d LF) with true by Zbool.
    unfold slice. rewrite substring_app_prefix; [reflexivity|].
    unfold len_string in Hi. lia.
Qed.

(** Framing, evaluated: the three kinds of line ends, and a read error
    after an unfinished line. *)
Example framing_mixed :
  framedLines (mkStream ("a" +:+ String LF ("b" +:+ String CR (String LF "c"))) io_EOF)
  = ["a"; "b"; "c"].
Proof. reflexivity. Qed.

Example framing_read_error :
  framedLines (mkStream ("a" +:+ String LF "b") (errorString "read error"))
  = ["a"; "b"; "[stream error: read error]"].
Proof. reflexivity. Qed.

(** A line longer than the buffer stops the scan (here with a buffer of
    4 bytes). *)
Example scan_too_long :
  bufio_NewScanner (mkStream ("abcdef" +:+ String LF "xy") io_EOF) 4
  = mkScan [] (Some bufio_ErrTooLong).
Proof. reflexivity. Qed.

(** C7.  When the scanner stops with an error that is not end-of-stream,
    the framer sends the lines of the tokens scanned so far and then
    exactly one more event, and nothing after it.  That last event is a
    line event of the process ([IsComplete] false, no [Err], the index of
    the process) whose [Line] is the text ["[stream error: <cause>]"]; the
    [Line] fields of the events before it are the trimmed tokens, one
    event per token.  Every event sent is a line event of the process
    without an error attached: none is a completion event.  A stream whose
    read fails with such a cause is a scanner that stops with an error
    that is not end-of-stream: with that cause, unless a line too long for
    the buffer stopped it before. *)
Theorem streamReader_read_error (scanner : Scanner) (idx : Z) (cause : error) :
  scan_err (Scanner_Buffer scanner scannerInitialBufferSize scannerMaxBufferSize)
  = Some cause ->
  errors_Is cause SentinelEOF = false ->
  streamReader scanner idx
  = map (fun token => lineOf idx (TrimRight token crlf))
        (scan_tokens (Scanner_Buffer scanner scannerInitialBufferSize scannerMaxBufferSize))
    ++ [lineOf idx ("[stream error: " +:+ Error cause +:+ "]")]
  /\ map plLine (streamReader scanner idx)
     = map (fun token => TrimRight token crlf)
           (scan_tokens (Scanner_Buffer scanner scannerInitialBufferSize scannerMaxBufferSize))
       ++ ["[stream error: " +:+ Error cause +:+ "]"]
  /\ (exists (before : list ProcessLine) (last : ProcessLine),
        streamReader scanner idx = before ++ [last]
        /\ List.length before
           = List.length (scan_tokens (Scanner_Buffer scanner scannerInitialBufferSize
                                                      scannerMaxBufferSize))
        /\ plLine last = "[stream error: " +:+ Error cause +:+ "]"
        /\ plIsComplete last = false
        /\ plErr last = None
        /\ plIndex last = idx)
  /\ Forall (fun pl => plIsComplete pl = false /\ plErr pl = None /\ plIndex pl = idx)
            (streamReader scanner idx)
  /\ (forall (data : string) (maxTokenSize : Z),
        scan_err (bufio_NewScanner (mkStream data cause) maxTokenSize) = Some cause
        \/ scan_err (bufio_NewScanner (mkStream data cause) maxTokenSize)
           = Some bufio_ErrTooLong).
Proof.
  intros Herr Hcause. unfold streamReader. rewrite Herr, Hcause. simpl negb.
  split; [reflexivity|]. split; [|split; [|split]].
  - rewrite map_app, map_map. reflexivity.
  - eexists _, _. split; [reflexivity|].
    split; [apply List.length_map|]. repeat split.
  - apply Forall_app. split.
    + apply Forall_map, Forall_forall. intros token _. auto.
    + constructor; [auto | constructor].
  - intros data maxTokenSize. unfold bufio_NewScanner, scanAll.
    cbn [scan_err stream_data stream_err].
    assert (Hloop : forall fuel d,
               snd (scanLoop maxTokenSize fuel d) = None
               \/ snd (scanLoop maxTokenSize fuel d) = Some bufio_ErrTooLong).
    { induction fuel as [|fuel IH]; intros d; cbn [scanLoop]; [left; reflexivity|].
      destruct (ScanLines d true) as [advance [token|]]; [|left; reflexivity].
      destruct (tokenFits maxTokenSize d); [|right; reflexivity].
      specialize (IH (sliceFrom d advance)).
      destruct (scanLoop maxTokenSize fuel (sliceFrom d advance)). exact IH. }
    destruct (Hloop (S (String.length data)) data) as [-> | ->].
    + left. destruct cause; [discriminate | reflexivity ..].
    + right. reflexivity.
Qed.

Lemma streamReader_read_error_witness :
  streamReader (fun _ => mkScan ["partial"] (Some (errorString "read error"))) 3
  = map (fun token => lineOf 3 (TrimRight token crlf)) ["partial"]
    ++ [lineOf 3 ("[stream error: " +:+ Error (errorString "read error") +:+ "]")]
  /\ map plLine
         (streamReader (fun _ => mkScan ["partial"] (Some (errorString "read error"))) 3)
     = ["partial"; "[stream error: read error]"]
  /\ (exists (before : list ProcessLine) (last : ProcessLine),
        streamReader (fun _ => mkScan ["partial"] (Some (errorString "read error"))) 3
        = before ++ [last]
        /\ List.length before = 1%nat
        /\ plLine last = "[stream error: read error]"
        /\ plIsComplete last = false
        /\ plErr last = None
        /\ plIndex last = 3)
  /\ Forall (fun pl => plIsComplete pl = false /\ plErr pl = None /\ plIndex pl = 3)
            (streamReader (fun _ => mkScan ["partial"] (Some (errorString "read error"))) 3)
  /\ (forall (data : string) (maxTokenSize : Z),
        scan_err (bufio_NewScanner (mkStream data (errorString "read error")) maxTokenSize)
        = Some (errorString "read error")
        \/ scan_err (bufio_NewScanner (mkStream data (errorString "read error")) maxTokenSize)
           = Some bufio_ErrTooLong).
Proof.
  apply (streamReader_read_error
           (fun _ => mkScan ["partial"] (Some (errorString "read error"))) 3
           (errorString "read error")).
  - reflexivity.
  - reflexivity.
Defined.

(** C8 as the claim states it fails: a lone carriage return is not a line
    terminator of the input.  The input ["a\rb"] is framed as the single
    line ["a\rb"], not as the lines ["a"] and ["b"]; so a carriage return
    is no line terminator, not even when only texts without carriage
    returns and newlines stand before it. *)
Lemma lone_CR_terminates_no_line :
  framedLines (mkStream ("a" +:+ String CR "b") io_EOF) = ["a" +:+ String CR "b"]
  /\ framedLines (mkStream ("a" +:+ String CR "b") io_EOF)
     <> "a" :: framedLines (mkStream "b" io_EOF)
  /\ ~ terminatesLine (String CR EmptyString)
  /\ ~ (forall (text rest : string) (err : error),
          plainText text = true ->
          len_string text + 1 <= scannerMaxBufferSize ->
          framedLines (mkStream (text +:+ String CR rest) err)
          = text :: framedLines (mkStream rest err)).
Proof.
  split; [reflexivity|]. split; [|split].
  - vm_compute. discriminate.
  - intros H.
    assert (Hfit : len_string "a" + len_string (String CR EmptyString)
                   <= scannerMaxBufferSize) by (vm_compute; discriminate).
    specialize (H "a" "b" io_EOF eq_refl eq_refl Hfit).
    vm_compute in H. discriminate H.
  - intros H.
    assert (Hfit : len_string "a" + 1 <= scannerMaxBufferSize)
      by (vm_compute; discriminate).
    specialize (H "a" "b" io_EOF eq_refl Hfit).
    vm_compute in H. discriminate H.
Qed.

(** Framing, evaluated: a carriage return inside a line that a newline
    ends, and carriage returns before a newline. *)
Example framing_CR_inside :
  framedLines (mkStream ("a" +:+ String CR ("b" +:+ String LF "c")) io_EOF)
  = ["a" +:+ String CR "b"; "c"].
Proof. reflexivity. Qed.

Example framing_CR_CR_LF :
  framedLines (mkStream ("a" +:+ String CR (String CR (String LF "c"))) io_EOF)
  = ["a"; "c"].
Proof. reflexivity. Qed.

(** C8, amended.  The framer produces a finite list of lines.  A newline
    and a carriage return followed by a newline are line terminators of
    the input, for lines that fit the scanner's buffer of 1 MiB: whatever
    text without a newline stands before them is one line, be there
    carriage returns inside it or not.  In general every newline ends a
    line, which is the text before it less the carriage returns at its
    end.  A carriage return followed by other text of its line (text that
    is not only carriage returns) stays inside the line, whether a newline
    ends that line or the input ends there; what is left behind the last
    newline is the last line, and a carriage return at the very end of the
    input is stripped from it.  No line the framer sends ends with a
    carriage return or a newline. *)
Theorem framedLines_line_endings :
  terminatesLine (String LF EmptyString)
  /\ terminatesLine crlf
  /\ (forall (text rest : string) (err : error),
        noNewline text = true ->
        len_string text + 1 <= scannerMaxBufferSize ->
        framedLines (mkStream (text +:+ String LF rest) err)
        = TrimRight text crlf :: framedLines (mkStream rest err))
  /\ (forall (text more rest : string) (err : error),
        noNewline text = true -> noNewline more = true ->
        TrimRight more crlf <> EmptyString ->
        len_string (text +:+ String CR more) + 1 <= scannerMaxBufferSize ->
        framedLines (mkStream ((text +:+ String CR more) +:+ String LF rest) err)
        = (text +:+ String CR (TrimRight more crlf)) :: framedLines (mkStream rest err))
  /\ (forall (text more : string) (err : error),
        noNewline text = true -> noNewline more = true ->
        TrimRight more crlf <> EmptyString ->
        len_string (text +:+ String CR more) < scannerMaxBufferSize ->
        framedLines (mkStream (text +:+ String CR more) err)
        = (text +:+ String CR (TrimRight more crlf))
          :: framedLines (mkStream EmptyString err))
  /\ (forall (text : string) (err : error),
        noNewline text = true -> text <> EmptyString ->
        len_string text < scannerMaxBufferSize ->
        framedLines (mkStream text err)
        = TrimRight text crlf :: framedLines (mkStream EmptyString err))
  /\ (forall (text : string) (err : error),
        noNewline text = true -> endsWithEOL text = false ->
        len_string (text +:+ String CR EmptyString) < scannerMaxBufferSize ->
        framedLines (mkStream (text +:+ String CR EmptyString) err)
        = text :: framedLines (mkStream EmptyString err))
  /\ (forall (scanner : Scanner) (idx : Z),
        Forall (fun pl => endsWithEOL (plLine pl) = false) (streamReader scanner idx)).
Proof.
  split; [exact terminatesLine_LF|]. split; [exact terminatesLine_CRLF|].
  split; [exact framedLines_next_LF|].
  split; [|split; [|split; [exact framedLines_last|split; [|exact streamReader_no_EOL]]]].
  - intros text more rest err Htext Hmore Hkeep Hfit.
    assert (Htrim : TrimRight (text +:+ String CR more) crlf
                    = text +:+ String CR (TrimRight more crlf)).
    { rewrite TrimRight_app_keep.
      - cbn [TrimRight]. destruct (TrimRight more crlf); [contradiction | reflexivity].
      - cbn [TrimRight]. destruct (TrimRight more crlf); [contradiction | discriminate]. }
    rewrite framedLines_next_LF.
    + rewrite Htrim. reflexivity.
    + apply noNewline_app_CR; assumption.
    + exact Hfit.
  - intros text more err Htext Hmore Hkeep Hfit.
    assert (Htrim : TrimRight (text +:+ String CR more) crlf
                    = text +:+ String CR (TrimRight more crlf)).
    { rewrite TrimRight_app_keep.
      - cbn [TrimRight]. destruct (TrimRight more crlf); [contradiction | reflexivity].
      - cbn [TrimRight]. destruct (TrimRight more crlf); [contradiction | discriminate]. }
    rewrite framedLines_last.
    + rewrite Htrim. reflexivity.
    + apply noNewline_app_CR; assumption.
    + destruct text; discriminate.
    + exact Hfit.
  - intros text err Htext Hend Hfit.
    rewrite framedLines_last.
    + rewrite TrimRight_app_CR by exact Hend. reflexivity.
    + apply noNewline_app_CR; [exact Htext | reflexivity].
    + destruct text; discriminate.
    + exact Hfit.
Qed.

Lemma framedLines_line_endings_witness :
  noNewline ("a" +:+ String CR "b") = true
  /\ endsWithEOL ("a" +:+ String CR "b") = false
  /\ len_string ("a" +:+ String CR "b") + len_string crlf <= scannerMaxBufferSize
  /\ framedLines (mkStream (("a" +:+ String CR "b") +:+ crlf +:+ "cd") io_EOF)
     = ("a" +:+ String CR "b") :: framedLines (mkStream "cd" io_EOF).
Proof.
  assert (Hfit : len_string ("a" +:+ String CR "b") + len_string crlf
                 <= scannerMaxBufferSize)
    by (vm_compute; discriminate).
  split; [reflexivity|]. split; [reflexivity|]. split; [exact Hfit|].
  destruct framedLines_line_endings as (_ & Hcrlf & _).
  apply (Hcrlf ("a" +:+ String CR "b") "cd" io_EOF); [reflexivity | reflexivity | exact Hfit].
Defined.

(** ** The process task *)

Lemma onlyLines_snoc idx tr ev :
  onlyLines idx tr -> plIndex ev = idx -> plIsComplete ev = false ->
  onlyLines idx (tr ++ [ev]).
Proof.
  intros Htr Hi Hc. apply Forall_app. split; [exact Htr|].
  constructor; [split; assumption | constructor].
Qed.

Lemma onlyLines_lineOf idx tr line :
  onlyLines idx tr -> onlyLines idx (tr ++ [lineOf idx line]).
Proof. intros H. apply onlyLines_snoc; [exact H | reflexivity ..]. Qed.

Lemma linesThenComplete_snoc idx tr err :
  onlyLines idx tr -> linesThenComplete idx (tr ++ [completeOf idx err]).
Proof. intros H. exists tr, err. split; [reflexivity | exact H]. Qed.

Lemma streamReader_onlyLines scanner idx : onlyLines idx (streamReader scanner idx).
Proof.
  unfold streamReader, onlyLines. apply Forall_app. split.
  - apply Forall_map, Forall_forall. intros token _. split; reflexivity.
  - destruct (scan_err _) as [err|]; [|constructor].
    destruct (negb _); constructor; [split; reflexivity | constructor].
Qed.

Section TaskFacts.

Variable osCommand : ProcessSpec -> Command.
Variable ctxCause : option error.
Variable Duration_String : Z -> string.
Variable eng : Engine.
Variable idx : Z.
Variable spec : ProcessSpec.

Local Abbreviation mainSteps' := (mainSteps osCommand ctxCause Duration_String eng idx spec).
Local Abbreviation goroutineSteps' := (goroutineSteps osCommand ctxCause Duration_String eng idx spec).
Local Abbreviation successors' := (successors osCommand ctxCause Duration_String eng idx spec).
Local Abbreviation step' := (step osCommand ctxCause Duration_String eng idx spec).
Local Abbreviation runs' := (runs osCommand ctxCause Duration_String eng idx spec).
Local Abbreviation configFuel' := (configFuel osCommand eng idx spec).

(** Splits a hypothesis [s ∈ steps] into one case per listed step. *)
Ltac step_cases H :=
  repeat match type of H with
    | _ ∈ [] => apply elem_of_nil in H; contradiction
    | _ ∈ _ ++ _ => apply elem_of_app in H as [H|H]
    | _ ∈ _ :: _ => apply elem_of_cons in H as [H|H]
    | _ ∈ match ?x with _ => _ end => destruct x eqn:?
    | _ ∈ (if ?x then _ else _) => destruct x eqn:?
    | (_, _) = (_, _) => injection H as ? ?; subst
    end.

Lemma taskInv_init : taskInv idx [] initConfig.
Proof. repeat split. Qed.

Ltac unfold_inv :=
  unfold running, finished, notStarted, readerLines, readerActive in *;
  cbn [cfgMain cfgStdout cfgStderr cfgWaiter streamsWG done ctxDone
       withMain withDone withStdout withStderr withWaiter withCtxDone] in *.

(** Once [done] holds a value, both readers and the waiter have exited. *)
Lemma running_received c waitErr pc :
  running idx c -> done c = Some waitErr ->
  finished (withMain pc (withDone None c)).
Proof.
  destruct c as [m so se w wg d cd]. unfold_inv.
  intros (Hso & Hse & _ & _ & Hwg & Hw) ->.
  destruct w as [|cmd|cmd|]; [contradiction | discriminate | destruct Hw; discriminate |].
  destruct Hw as [Hz _]. subst wg.
  destruct so, se; try congruence; try lia. repeat split.
Qed.

Lemma taskInv_main tr c ev c' :
  taskInv idx tr c -> (ev, c') ∈ mainSteps' c ->
  taskInv idx (tr ++ option_list ev) c'.
Proof.
  intros Hinv Hstep. destruct c as [pc so se w wg d cd].
  unfold mainSteps' in Hstep. cbn [cfgMain] in Hstep.
  unfold taskInv in Hinv. cbn [cfgMain] in Hinv.
  destruct pc; step_cases Hstep; unfold taskInv;
    cbn [cfgMain withMain withDone option_list] in *;
    rewrite ?app_nil_r.
  all: try (destruct Hinv as [-> Hns]; split;
            [first [reflexivity | apply (linesThenComplete_snoc idx []); constructor
                   | constructor ]
            | first [ left; exact Hns | exact Hns | idtac ] ]).
  all: try (destruct Hinv as [Htr Hrun]; split;
            [first [exact Htr | apply onlyLines_lineOf, Htr
                   | apply linesThenComplete_snoc, Htr] | ]).
  all: try exact Hrun.
  all: try (eapply (running_received _ _ _ Hrun); eassumption).
  all: try (right; exact Hrun).
  - unfold_inv. unfold streamGoRoutines.
    repeat split; try discriminate; apply streamReader_onlyLines.
Qed.

Lemma onlyLines_cons_inv ev pending :
  onlyLines idx (ev :: pending) ->
  (plIndex ev = idx /\ plIsComplete ev = false) /\ onlyLines idx pending.
Proof. intros H. inversion H; subst. auto. Qed.

Lemma readerActive_range r : 0 <= readerActive r <= 1.
Proof. destruct r; simpl; lia. Qed.

(** A reader or the waiter can step only while [runProcess] is between
    the [go] statements and the receive from [done]. *)
Ltac not_running Hinv :=
  unfold_inv;
  first [ destruct Hinv as [_ (? & ? & ? & ?)]; congruence
        | destruct Hinv as [_ [(? & ? & ? & ?)|(? & ? & ? & ?)]]; congruence ].

Lemma taskInv_reader tr c ev r wg :
  taskInv idx tr c ->
  ((ev, (r, wg)) ∈ readerSteps (cfgStdout c) (streamsWG c) ->
   taskInv idx (tr ++ option_list ev) (withStdout r wg c))
  /\ ((ev, (r, wg)) ∈ readerSteps (cfgStderr c) (streamsWG c) ->
      taskInv idx (tr ++ option_list ev) (withStderr r wg c)).
Proof.
  intros Hinv. destruct c as [pc so se w wg0 d cd].
  unfold taskInv in *. cbn [cfgMain cfgStdout cfgStderr streamsWG withStdout withStderr] in *.
  split; intros Hstep; unfold readerSteps in Hstep; step_cases Hstep;
    cbn [option_list]; rewrite ?app_nil_r.
  all: destruct pc; try (not_running Hinv); unfold_inv;
    destruct Hinv as (Htr & Hso & Hse & Hlso & Hlse & Hwg & Hw).
  all: repeat match goal with r : ReaderPC |- _ => destruct r end.
  all: try (apply onlyLines_cons_inv in Hlso as [[Hi Hc] Hp]).
  all: try (apply onlyLines_cons_inv in Hlse as [[Hi Hc] Hp]).
  all: split; [first [exact Htr | apply onlyLines_snoc; assumption]|].
  all: repeat split; try discriminate; try assumption; try lia.
  all: destruct w; try contradiction; try assumption; try (destruct Hw; split; [lia | assumption]).
Qed.

Lemma taskInv_waiter tr c ev c' :
  taskInv idx tr c -> (ev, c') ∈ waiterSteps c ->
  taskInv idx (tr ++ option_list ev) c'.
Proof.
  intros Hinv Hstep. destruct c as [pc so se w wg d cd].
  unfold waiterSteps in Hstep. cbn [cfgWaiter streamsWG done] in Hstep.
  step_cases Hstep; cbn [option_list]; rewrite ?app_nil_r.
  all: unfold taskInv in *; cbn [cfgMain withWaiter withDone] in *.
  all: destruct pc; try (not_running Hinv); unfold_inv;
    destruct Hinv as (Htr & Hso & Hse & Hlso & Hlse & Hwg & Hw).
  all: split; [exact Htr|].
  all: repeat split; try assumption; try discriminate.
  all: try (apply Z.eqb_eq; assumption).
  all: try (destruct Hw; assumption).
Qed.

Lemma taskInv_ctx tr c ev c' :
  taskInv idx tr c -> (ev, c') ∈ ctxSteps c ->
  taskInv idx (tr ++ option_list ev) c'.
Proof.
  intros Hinv Hstep. destruct c as [pc so se w wg d cd].
  unfold ctxSteps in Hstep. cbn [ctxDone] in Hstep.
  step_cases Hstep; cbn [option_list]; rewrite ?app_nil_r.
  exact Hinv.
Qed.

Lemma taskInv_step tr c ev c' :
  taskInv idx tr c -> step' c ev c' -> taskInv idx (tr ++ option_list ev) c'.
Proof.
  intros Hinv Hstep. unfold step, successors, goroutineSteps in Hstep.
  rewrite !elem_of_app in Hstep.
  destruct Hstep as [[Hm|[Hso|[Hse|Hw]]]|Hctx].
  - eapply taskInv_main; eassumption.
  - unfold stdoutSteps in Hso. apply list_elem_of_In, in_map_iff in Hso as ([ev0 [r wg]] & Heq & Hin).
    injection Heq as <- <-. apply list_elem_of_In in Hin.
    apply (taskInv_reader tr c ev0 r wg Hinv), Hin.
  - unfold stderrSteps in Hse. apply list_elem_of_In, in_map_iff in Hse as ([ev0 [r wg]] & Heq & Hin).
    injection Heq as <- <-. apply list_elem_of_In in Hin.
    apply (taskInv_reader tr c ev0 r wg Hinv), Hin.
  - eapply taskInv_waiter; eassumption.
  - eapply taskInv_ctx; eassumption.
Qed.

Lemma runs_taskInv tr c : runs' initConfig tr c -> taskInv idx tr c.
Proof.
  induction 1 as [|tr c1 ev c2 Hruns IH Hstep].
  - apply taskInv_init.
  - eapply taskInv_step; eassumption.
Qed.

Lemma taskInv_indices tr c :
  taskInv idx tr c -> Forall (fun pl => plIndex pl = idx) tr.
Proof.
  assert (Hlines : forall l, onlyLines idx l -> Forall (fun pl => plIndex pl = idx) l).
  { intros l Hl. eapply Forall_impl; [exact Hl|]. intros pl [Hi _]. exact Hi. }
  unfold taskInv. destruct (cfgMain c); intros [Htr _]; auto.
  - subst. constructor.
  - subst. constructor.
  - subst. constructor.
  - subst. constructor.
  - destruct Htr as (lines & err & -> & Hl). apply Forall_app. split; [auto|].
    constructor; [reflexivity | constructor].
Qed.

(** Every event a task sends carries the task's index. *)
Lemma step_event_index tr c ev c' :
  taskInv idx tr c -> step' c (Some ev) c' -> plIndex ev = idx.
Proof.
  intros Hinv Hstep.
  pose proof (taskInv_indices _ _ (taskInv_step _ _ _ _ Hinv Hstep)) as H.
  apply Forall_app in H as [_ H]. cbn [option_list] in H.
  apply Forall_cons in H as [H _]. exact H.
Qed.


(** While [runProcess] has not returned, some goroutine of the task can
    take a step. *)
Lemma task_progress tr c :
  taskInv idx tr c -> cfgMain c <> Returned -> goroutineSteps' c <> [].
Proof.
  intros Hinv Hret Hnil. destruct c as [pc so se w wg d cd].
  unfold goroutineSteps in Hnil.
  apply app_eq_nil in Hnil as [Hm Hnil].
  apply app_eq_nil in Hnil as [Hso Hnil].
  apply app_eq_nil in Hnil as [Hse Hw].
  unfold mainSteps, stdoutSteps, stderrSteps, waiterSteps in *.
  unfold taskInv in Hinv.
  cbn [cfgMain cfgStdout cfgStderr cfgWaiter streamsWG done ctxDone] in *.
  destruct pc; try contradiction;
    repeat match type of Hm with
      | match ?x with _ => _ end = [] => destruct x
      | (if ?x then _ else _) = [] => destruct x
      | _ ++ _ = [] => apply app_eq_nil in Hm as [Hm _]
      end; try discriminate.
  all: unfold_inv; destruct Hinv as (_ & Hso' & Hse' & _ & _ & Hwg & Hw').
  all: destruct w as [|cmd|cmd|]; try contradiction; try (destruct Hw'; congruence).
  all: destruct (wg =? 0) eqn:E; try discriminate.
  all: apply Z.eqb_neq in E.
  all: destruct so as [|[|? ?]|]; try discriminate; try congruence.
  all: destruct se as [|[|? ?]|]; try discriminate; try congruence.
  all: simpl in Hwg; lia.
Qed.

(** Every step uses up fuel: no task runs forever. *)
Lemma step_fuel c ev c' : step' c ev c' -> (configFuel' c' < configFuel' c)%nat.
Proof.
  intros Hstep. destruct c as [pc so se w wg d cd].
  unfold step, successors, goroutineSteps,
    mainSteps, stdoutSteps, stderrSteps, waiterSteps, ctxSteps in Hstep.
  unfold configFuel, mainFuel, fuelAtStdoutPipe, fuelAtStderrPipe,
    fuelAtStart.
  cbn [cfgMain cfgStdout cfgStderr cfgWaiter streamsWG done ctxDone] in *.
  rewrite !elem_of_app in Hstep.
  destruct Hstep as [[Hm|[Hso|[Hse|Hw]]]|Hctx].
  - destruct pc; step_cases Hm;
      cbn [cfgMain cfgStdout cfgStderr cfgWaiter ctxDone withMain withDone
           readerFuel waiterFuel];
      repeat match goal with H : ?x = _ |- context [match ?x with _ => _ end] =>
               rewrite H end;
      try lia.
  - destruct so as [|[|e p]|]; cbn [readerSteps map] in Hso; step_cases Hso;
      cbn [cfgMain cfgStdout cfgStderr cfgWaiter ctxDone withStdout readerFuel length];
      lia.
  - destruct se as [|[|e p]|]; cbn [readerSteps map] in Hse; step_cases Hse;
      cbn [cfgMain cfgStdout cfgStderr cfgWaiter ctxDone withStderr readerFuel length];
      lia.
  - step_cases Hw;
      cbn [cfgMain cfgStdout cfgStderr cfgWaiter ctxDone withWaiter withDone waiterFuel];
      lia.
  - step_cases Hctx;
      cbn [cfgMain cfgStdout cfgStderr cfgWaiter ctxDone withCtxDone]; lia.
Qed.

End TaskFacts.

(** ** The engine *)

Lemma eventsOf_app i out1 out2 :
  eventsOf i (out1 ++ out2) = eventsOf i out1 ++ eventsOf i out2.
Proof. apply filter_app. Qed.

Lemma eventsOf_own i ev :
  eventsOf i (option_list ev) = option_list ev
  \/ exists pl, ev = Some pl /\ plIndex pl <> i.
Proof.
  destruct ev as [pl|]; [|left; reflexivity].
  destruct (decide (plIndex pl = i)) as [Heq|Hne].
  - left. unfold eventsOf. change (option_list (Some pl)) with [pl]. rewrite filter_cons.
    destruct (decide (plIndex pl = i)); [reflexivity | contradiction].
  - right. exists pl. auto.
Qed.

Lemma eventsOf_other i ev :
  (forall pl, ev = Some pl -> plIndex pl <> i) -> eventsOf i (option_list ev) = [].
Proof.
  destruct ev as [pl|]; [|reflexivity]. intros H.
  unfold eventsOf. change (option_list (Some pl)) with [pl]. rewrite filter_cons.
  destruct (decide (plIndex pl = i)) as [Heq|Hne]; [|reflexivity].
  exfalso. exact (H pl eq_refl Heq).
Qed.

Section RunFacts.

Variable osCommand : ProcessSpec -> Command.
Variable ctxCause : option error.
Variable Duration_String : Z -> string.
Variable eng : Engine.

Local Abbreviation step' := (step osCommand ctxCause Duration_String eng).
Local Abbreviation runs' := (runs osCommand ctxCause Duration_String eng).
Local Abbreviation engineSuccessors' := (engineSuccessors osCommand ctxCause Duration_String eng).
Local Abbreviation engineRuns' := (engineRuns osCommand ctxCause Duration_String eng).
Local Abbreviation engineReachable' := (engineReachable osCommand ctxCause Duration_String eng).

(** An engine step is a step of one task. *)
Lemma engineSuccessors_inv st st' :
  st' ∈ engineSuccessors' st ->
  exists (j : nat) spec c ev c',
    Specs eng !! j = Some spec /\ tasks st !! j = Some c
    /\ step' (Z.of_nat j) spec c ev c'
    /\ st' = {| tasks := <[j := c']> (tasks st);
                output := output st ++ option_list ev |}.
Proof.
  unfold engineSuccessors. intros H.
  apply list_elem_of_In, in_concat in H as (l & Hl & Hin).
  apply list_elem_of_In, elem_of_lookup_imap in Hl as (j & spec & -> & Hspec).
  unfold taskSteps in Hin. destruct (tasks st !! j) as [c|] eqn:Hc; [|contradiction].
  apply in_map_iff in Hin as ([ev c'] & <- & Hin). apply list_elem_of_In in Hin.
  exists j, spec, c, ev, c'. auto.
Qed.

Lemma engineRuns_trans st1 st2 st3 :
  engineRuns' st1 st2 -> engineRuns' st2 st3 -> engineRuns' st1 st3.
Proof.
  intros H12 H23. induction H23 as [|st3 st4 _ IH Hstep]; [exact H12|].
  eapply engine_step; eassumption.
Qed.

(** The events of index [i] in the engine's stream are the events task
    [i] has sent, in the order it sent them. *)
Lemma engineReachable_tasks st :
  engineReachable' st ->
  length (tasks st) = length (Specs eng)
  /\ forall (i : nat) spec c,
       Specs eng !! i = Some spec -> tasks st !! i = Some c ->
       runs' (Z.of_nat i) spec initConfig (eventsOf (Z.of_nat i) (output st)) c.
Proof.
  unfold engineReachable.
  induction 1 as [|st1 st2 Hreach [IHlen IH] Hstep].
  - split; [apply length_map|]. intros i spec c Hspec Hc.
    unfold engineInit in Hc. cbn [tasks] in Hc.
    apply list_elem_of_lookup_2, list_elem_of_In, in_map_iff in Hc as (x & <- & _).
    apply runs_refl.
  - apply engineSuccessors_inv in Hstep as (j & specj & cj & ev & cj' & Hsj & Hcj & Hst & ->).
    cbn [tasks output]. split; [rewrite length_insert; exact IHlen|].
    intros i spec c Hspec Hc. rewrite eventsOf_app.
    pose proof (IH j specj cj Hsj Hcj) as Hrunj.
    pose proof (runs_taskInv _ _ _ _ _ _ _ _ Hrunj) as Hinvj.
    destruct (decide (i = j)) as [->|Hne].
    + rewrite list_lookup_insert_eq in Hc by (eapply lookup_lt_Some, Hcj).
      injection Hc as <-. rewrite Hsj in Hspec. injection Hspec as <-.
      destruct (eventsOf_own (Z.of_nat j) ev) as [->|(pl & -> & Hpl)].
      * eapply runs_step; eassumption.
      * exfalso. apply Hpl. eapply step_event_index; eassumption.
    + rewrite list_lookup_insert_ne in Hc by congruence.
      rewrite eventsOf_other, app_nil_r; [apply IH; assumption|].
      intros pl ->. rewrite (step_event_index _ _ _ _ _ _ _ _ _ _ Hinvj Hst). lia.
Qed.


End RunFacts.

Section ScheduleFacts.

Variable osCommand : ProcessSpec -> Command.
Variable ctxCause : option error.
Variable Duration_String : Z -> string.
Variable eng : Engine.

(** A schedule is a run of the engine. *)
Lemma follow_runs choices : forall st st',
  follow osCommand ctxCause Duration_String eng st choices = Some st' ->
  engineRuns osCommand ctxCause Duration_String eng st st'.
Proof.
  induction choices as [|k rest IH]; intros st st' H; cbn [follow] in H.
  - injection H as <-. apply engine_refl.
  - destruct (engineSuccessors _ _ _ _ st !! k) as [st1|] eqn:E; [|discriminate].
    eapply engineRuns_trans; [|apply IH, H].
    eapply engine_step; [apply engine_refl|].
    eapply list_elem_of_lookup_2, E.
Qed.

End ScheduleFacts.

(** The scenario's first command, scheduled to its end: one line, then the
    completion event without an error. *)
Example echo_run :
  follow (fun _ => echoCommand) None (fun _ => "5s") echoEngine
         (engineInit echoEngine) (replicate 11 0%nat)
  = Some echoFinal.
Proof. vm_compute. reflexivity. Qed.

(** The same command under a cancellation with a cause, on the schedule
    where the shutdown timer fires first: the diagnostic lines and the line
    of the command in some order, then the completion event. *)
Example forced_kill_run :
  option_map output
    (follow (fun _ => echoCommand) (Some (errorString "deadline")) (fun _ => "5s")
            echoEngine (engineInit echoEngine)
            [0; 0; 0; 0; 2; 0; 0; 0; 0; 0; 0; 0; 0; 0; 0; 0; 0]%nat)
  = Some [lineOf 0 "[cancellation: deadline]";
          lineOf 0 "[sending SIGTERM for graceful shutdown...]";
          lineOf 0 "[graceful shutdown timeout (5s), force killing...]";
          lineOf 0 "x";
          lineOf 0 "[force killed]";
          completeOf 0 None].
Proof. vm_compute. reflexivity. Qed.

(** The loop drops a prefix: what it leaves is the lines from some
    position on, with the byte total that goes with them; every shorter
    cut exceeded a cap, and the cut made does not. *)
Lemma evictLoop_cut maxLines maxBytes lines :
  exists k : nat,
    (k <= length lines)%nat
    /\ evictLoop maxLines maxBytes lines (byteTotal lines)
       = (drop k lines, byteTotal (drop k lines))
    /\ capExceeded maxLines maxBytes (drop k lines) (byteTotal (drop k lines)) = false
    /\ forall j : nat, (j < k)%nat ->
         capExceeded maxLines maxBytes (drop j lines) (byteTotal (drop j lines)) = true.
Proof.
  induction lines as [|l lines IH].
  - exists 0%nat. split; [simpl; lia|].
    split; [rewrite evictLoop_unfold; destruct (negb _ && negb _); reflexivity|].
    split; [|intros j Hj; lia].
    unfold capExceeded, len_slice. cbn [drop length]. rewrite byteTotal_nil.
    rewrite !Z.gtb_ltb.
    destruct (Z.ltb_spec 0 maxLines), (Z.ltb_spec 0 maxBytes);
      cbn [andb orb]; try reflexivity;
      repeat match goal with
             | |- context [?a <? ?b] =>
                 replace (a <? b) with false by (symmetry; apply Z.ltb_ge; simpl; lia)
             end; reflexivity.
  - rewrite evictLoop_unfold.
    destruct (negb _ && negb _) eqn:E.
    + exists 0%nat. split; [simpl; lia|]. split; [reflexivity|].
      split; [|intros j Hj; lia].
      unfold capExceeded. rewrite <- negb_orb in E.
      apply negb_true_iff in E. exact E.
    + rewrite <- byteTotal_tail.
      destruct IH as (k & Hk & Heq & Hstop & Hmore).
      exists (S k). split; [simpl; lia|]. split; [exact Heq|].
      split; [exact Hstop|].
      intros [|j] Hj.
      * unfold capExceeded. rewrite <- negb_orb in E.
        apply negb_false_iff in E. exact E.
      * apply Hmore. lia.
Qed.

Lemma applyLine_cut ps line :
  accounted ps ->
  exists k : nat,
    (k <= length (Lines ps ++ [line]))%nat
    /\ Lines (applyLine ps line) = drop k (Lines ps ++ [line])
    /\ ByteSize (applyLine ps line) = byteTotal (drop k (Lines ps ++ [line]))
    /\ capExceeded (MaxLines ps) (MaxBytes ps)
         (drop k (Lines ps ++ [line])) (byteTotal (drop k (Lines ps ++ [line]))) = false
    /\ forall j : nat, (j < k)%nat ->
         capExceeded (MaxLines ps) (MaxBytes ps)
           (drop j (Lines ps ++ [line])) (byteTotal (drop j (Lines ps ++ [line]))) = true.
Proof.
  intros Hacc. unfold applyLine.
  destruct (evictLoop_cut (MaxLines ps) (MaxBytes ps) (Lines ps ++ [line]))
    as (k & Hk & Heq & Hstop & Hmore).
  rewrite byteTotal_snoc, <- Hacc in Heq. rewrite Heq. cbn [Lines ByteSize].
  exists k. auto.
Qed.

(** X1.  What a line event keeps.  For a buffer whose [ByteSize] is the
    total of its lines, the lines after the event are the old lines and
    the new one with the first [k] dropped -- a suffix, in order -- and
    [k] is least: the suffix kept exceeds no configured cap, with
    [ByteSize] its byte total, and every shorter cut exceeded one. *)
Theorem ApplyEvent_keeps_longest_suffix
    (states : list ProcessState) (n : nat) (ps : ProcessState) (line : string) :
  states !! n = Some ps ->
  accounted ps ->
  exists (k : nat) (ps' : ProcessState),
    ApplyEvent states (lineEvent line (Z.of_nat n)) = Some (<[n := ps']> states)
    /\ (k <= length (Lines ps ++ [line]))%nat
    /\ Lines ps' = drop k (Lines ps ++ [line])
    /\ ByteSize ps' = byteTotal (Lines ps')
    /\ capExceeded (MaxLines ps) (MaxBytes ps) (Lines ps') (ByteSize ps') = false
    /\ forall j : nat, (j < k)%nat ->
         capExceeded (MaxLines ps) (MaxBytes ps)
           (drop j (Lines ps ++ [line])) (byteTotal (drop j (Lines ps ++ [line]))) = true.
Proof.
  intros Hps Hacc.
  destruct (applyLine_cut ps line Hacc) as (k & Hk & HL & HB & Hstop & Hmore).
  exists k, (applyLine ps line).
  split; [apply ApplyEvent_line, Hps|]. split; [exact Hk|]. split; [exact HL|].
  rewrite HL, HB. auto.
Qed.

(** A third line at a cap of two lines evicts the oldest one. *)
Example fullBuffer_eviction :
  ApplyEvent [fullBuffer] (lineEvent "c" 0)
  = Some [{| Err := None; Name := "p"; Lines := ["b"; "c"]; ByteSize := 2;
             MaxLines := 2; MaxBytes := 0;
             Done := false; Running := true; Dirty := true |}].
Proof. reflexivity. Qed.

Lemma ApplyEvent_keeps_longest_suffix_witness :
  [fullBuffer] !! 0%nat = Some fullBuffer
  /\ accounted fullBuffer
  /\ exists ps' : ProcessState,
       ApplyEvent [fullBuffer] (lineEvent "c" (Z.of_nat 0))
       = Some (<[0%nat := ps']> [fullBuffer])
       /\ Lines ps' = ["b"; "c"]
       /\ ByteSize ps' = 2.
Proof.
  split; [reflexivity|]. split; [reflexivity|].
  destruct (ApplyEvent_keeps_longest_suffix [fullBuffer] 0 fullBuffer "c"
              eq_refl eq_refl)
    as (k & ps' & Happ & Hk & HL & HB & Hstop & Hmin).
  exists ps'. split; [exact Happ|].
  destruct k as [|[|k]].
  - rewrite HB, HL in Hstop. vm_compute in Hstop. discriminate Hstop.
  - split; [exact HL|]. rewrite HB, HL. reflexivity.
  - specialize (Hmin 1%nat (le_n_S _ _ (le_n_S _ _ (Nat.le_0_l k)))).
    vm_compute in Hmin. discriminate Hmin.
Defined.

Lemma evictLoop_no_caps maxLines maxBytes lines byteSize :
  maxLines <= 0 -> maxBytes <= 0 ->
  evictLoop maxLines maxBytes lines byteSize = (lines, byteSize).
Proof.
  intros HL HB. rewrite evictLoop_unfold, !Z.gtb_ltb.
  replace (0 <? maxLines) with false by (symmetry; apply Z.ltb_ge; lia).
  replace (0 <? maxBytes) with false by (symmetry; apply Z.ltb_ge; lia).
  reflexivity.
Qed.

(** X3.  No caps.  When neither cap is positive (zero or negative) a
    line event evicts nothing: the line is appended and [ByteSize] grows by
    its length, whatever the buffer holds. *)
Theorem ApplyEvent_unbounded
    (states : list ProcessState) (n : nat) (ps : ProcessState) (line : string) :
  states !! n = Some ps ->
  MaxLines ps <= 0 -> MaxBytes ps <= 0 ->
  exists ps',
    ApplyEvent states (lineEvent line (Z.of_nat n)) = Some (<[n := ps']> states)
    /\ Lines ps' = Lines ps ++ [line]
    /\ ByteSize ps' = GoInt.add (ByteSize ps) (len_string line).
Proof.
  intros Hps HL HB. exists (applyLine ps line).
  split; [apply ApplyEvent_line, Hps|].
  unfold applyLine. rewrite evictLoop_no_caps by assumption. split; reflexivity.
Qed.

Lemma ApplyEvent_unbounded_witness :
  exists ps',
    ApplyEvent [newProcessState "p" (-1) 0] (lineEvent "x" (Z.of_nat 0))
    = Some (<[0%nat := ps']> [newProcessState "p" (-1) 0])
    /\ Lines ps' = Lines (newProcessState "p" (-1) 0) ++ ["x"]
    /\ ByteSize ps' = GoInt.add (ByteSize (newProcessState "p" (-1) 0)) (len_string "x").
Proof.
  apply (ApplyEvent_unbounded [newProcessState "p" (-1) 0] 0 (newProcessState "p" (-1) 0) "x").
  - reflexivity.
  - simpl. lia.
  - simpl. lia.
Defined.

(** ** Sequences of events, process by process *)

Lemma sumLen_nonneg lines : 0 <= sumLen lines.
Proof. induction lines; simpl; unfold len_string; lia. Qed.

Lemma sumLen_app l1 l2 : sumLen (l1 ++ l2) = sumLen l1 + sumLen l2.
Proof. induction l1; simpl; lia. Qed.

Lemma sumLen_drop j lines : 0 <= sumLen (drop j lines) <= sumLen lines.
Proof.
  rewrite <- (take_drop j lines) at 3. rewrite sumLen_app.
  pose proof (sumLen_nonneg (take j lines)). pose proof (sumLen_nonneg (drop j lines)). lia.
Qed.

Lemma in_range_below a b : 0 <= a <= b -> GoInt.in_range b -> GoInt.in_range a.
Proof. unfold GoInt.in_range, GoInt.min_int, GoInt.half. lia. Qed.

Lemma byteTotal_drop j lines :
  GoInt.in_range (sumLen lines) -> byteTotal (drop j lines) = sumLen (drop j lines).
Proof.
  intros H. apply byteTotal_exact. eapply in_range_below; [apply sumLen_drop | exact H].
Qed.

(** X2.  The newest line.  For an accounted buffer whose total fits an
    [int]: if there is no byte cap, or the new line fits it, the new line
    is kept as the last one; if the new line alone is longer than a
    positive byte cap, the buffer is left empty with [ByteSize] 0. *)
Theorem ApplyEvent_newest_line
    (states : list ProcessState) (n : nat) (ps : ProcessState) (line : string) :
  states !! n = Some ps ->
  accounted ps ->
  GoInt.in_range (sumLen (Lines ps ++ [line])) ->
  exists ps',
    ApplyEvent states (lineEvent line (Z.of_nat n)) = Some (<[n := ps']> states)
    /\ (MaxBytes ps <= 0 \/ len_string line <= MaxBytes ps -> last (Lines ps') = Some line)
    /\ (0 < MaxBytes ps < len_string line -> Lines ps' = [] /\ ByteSize ps' = 0).
Proof.
  intros Hps Hacc Hrange.
  destruct (applyLine_cut ps line Hacc) as (k & Hk & HL & HB & Hstop & Hmore).
  exists (applyLine ps line).
  split; [apply ApplyEvent_line, Hps|].
  rewrite HL, HB. rewrite List.length_app in Hk. cbn [length] in Hk.
  split.
  - intros Hfits.
    assert (Hle : (k <= length (Lines ps))%nat).
    { destruct (decide (k <= length (Lines ps))%nat) as [|Hgt]; [assumption|].
      exfalso.
      specialize (Hmore (length (Lines ps)) ltac:(lia)).
      rewrite drop_app_length in Hmore.
      rewrite byteTotal_exact in Hmore
        by (eapply in_range_below; [|exact Hrange];
            rewrite sumLen_app; pose proof (sumLen_nonneg (Lines ps));
            simpl; unfold len_string; lia).
      unfold capExceeded, len_slice in Hmore. cbn [length sumLen fold_right] in Hmore.
      rewrite !Z.gtb_ltb in Hmore.
      apply orb_true_iff in Hmore.
      destruct Hmore as [H|H]; apply andb_true_iff in H; destruct H as [H1 H2];
        apply Z.ltb_lt in H1, H2; lia. }
    rewrite drop_app_le by exact Hle. apply last_snoc.
  - intros Hbig.
    assert (Hk' : k = S (length (Lines ps))).
    { destruct (decide (k <= length (Lines ps))%nat) as [Hle|]; [|lia].
      exfalso.
      rewrite byteTotal_drop in Hstop by exact Hrange.
      rewrite drop_app_le in Hstop by exact Hle.
      rewrite sumLen_app in Hstop. cbn [sumLen fold_right] in Hstop.
      pose proof (sumLen_nonneg (drop k (Lines ps))).
      unfold capExceeded in Hstop. apply orb_false_iff in Hstop.
      destruct Hstop as [_ Hstop]. rewrite !Z.gtb_ltb in Hstop.
      apply andb_false_iff in Hstop.
      destruct Hstop as [H1|H1]; apply Z.ltb_ge in H1; lia. }
    subst k. rewrite drop_ge by (rewrite List.length_app; simpl; lia).
    split; reflexivity.
Qed.

Lemma ApplyEvent_newest_line_witness :
  exists ps',
    ApplyEvent [mkProcessState None "p" ["ab"] 2 0 4 false true false]
               (lineEvent "hello" (Z.of_nat 0))
    = Some (<[0%nat := ps']> [mkProcessState None "p" ["ab"] 2 0 4 false true false])
    /\ (MaxBytes (mkProcessState None "p" ["ab"] 2 0 4 false true false) <= 0
        \/ len_string "hello" <= MaxBytes (mkProcessState None "p" ["ab"] 2 0 4 false true false)
        -> last (Lines ps') = Some "hello")
    /\ (0 < MaxBytes (mkProcessState None "p" ["ab"] 2 0 4 false true false) < len_string "hello"
        -> Lines ps' = [] /\ ByteSize ps' = 0).
Proof.
  apply (ApplyEvent_newest_line [mkProcessState None "p" ["ab"] 2 0 4 false true false] 0
           (mkProcessState None "p" ["ab"] 2 0 4 false true false) "hello").
  - reflexivity.
  - reflexivity.
  - vm_compute. split; discriminate.
Defined.

(** The state of every process after a sequence of events is its state
    before, taken through its own events in their order. *)
Lemma ownEvents_cons_eq (n : nat) ev evs :
  eventIndex ev = Z.of_nat n -> ownEvents n (ev :: evs) = ev :: ownEvents n evs.
Proof. intros H. unfold ownEvents. rewrite filter_cons_True by exact H. reflexivity. Qed.

Lemma ownEvents_cons_ne (n : nat) ev evs :
  eventIndex ev <> Z.of_nat n -> ownEvents n (ev :: evs) = ownEvents n evs.
Proof. intros H. unfold ownEvents. rewrite filter_cons_False by exact H. reflexivity. Qed.

Lemma applyAll_replay evs : forall states,
  applyAll states evs
  = Some (imap (fun n ps => fold_left applyOne (ownEvents n evs) ps) states).
Proof.
  induction evs as [|ev evs IH]; intros states; cbn [applyAll].
  - f_equal. apply list_eq. intros i. rewrite list_lookup_imap.
    destruct (states !! i); reflexivity.
  - destruct (ApplyEvent_cases states ev) as [[Heq Hout]|(m & qs & Hm & Hqs & Heq)];
      rewrite Heq, IH; f_equal; apply list_eq; intros i; rewrite !list_lookup_imap.
    + destruct (states !! i) as [ps|] eqn:Hi; [|reflexivity]. cbn [fmap option_fmap option_map].
      rewrite ownEvents_cons_ne; [reflexivity|].
      apply lookup_lt_Some in Hi. unfold len_slice in Hout. lia.
    + destruct (decide (i = m)) as [->|Hne].
      * rewrite list_lookup_insert_eq by (eapply lookup_lt_Some, Hqs).
        rewrite Hqs. cbn [fmap option_fmap option_map]. rewrite ownEvents_cons_eq by exact Hm.
        cbn [fold_left]. destruct ev; reflexivity.
      * rewrite list_lookup_insert_ne by congruence.
        destruct (states !! i) as [ps|]; [|reflexivity]. cbn [fmap option_fmap option_map].
        rewrite ownEvents_cons_ne by lia. reflexivity.
Qed.

(** X4.  Interleaving.  Two sequences of events that agree, for every
    process of the slice, on the events of that process and their order,
    leave the same slice: how the events of different processes are
    interleaved does not matter. *)
Theorem applyAll_interleaving (states : list ProcessState) (evs1 evs2 : list Event) :
  (forall n : nat, (n < length states)%nat -> ownEvents n evs1 = ownEvents n evs2) ->
  applyAll states evs1 = applyAll states evs2.
Proof.
  intros Hsame. rewrite !applyAll_replay. f_equal.
  apply list_eq. intros i. rewrite !list_lookup_imap.
  destruct (states !! i) as [ps|] eqn:Hi; [|reflexivity]. cbn [fmap option_fmap option_map].
  rewrite (Hsame i) by (eapply lookup_lt_Some, Hi). reflexivity.
Qed.

Lemma applyAll_interleaving_witness :
  applyAll [newProcessState "a" 1 0; newProcessState "b" 0 4]
           [lineEvent "x" 0; lineEvent "hello" 1; lineEvent "y" 0; doneEvent None 1]
  = applyAll [newProcessState "a" 1 0; newProcessState "b" 0 4]
           [lineEvent "hello" 1; doneEvent None 1; lineEvent "x" 0; lineEvent "y" 0].
Proof.
  apply (applyAll_interleaving [newProcessState "a" 1 0; newProcessState "b" 0 4]
           [lineEvent "x" 0; lineEvent "hello" 1; lineEvent "y" 0; doneEvent None 1]
           [lineEvent "hello" 1; doneEvent None 1; lineEvent "x" 0; lineEvent "y" 0]).
  intros [|[|n]] Hn; [reflexivity | reflexivity | simpl in Hn; lia].
Defined.

(** The loop only ever drops a prefix. *)
Lemma evictLoop_drop maxLines maxBytes lines : forall byteSize,
  exists k : nat, (k <= length lines)%nat
    /\ fst (evictLoop maxLines maxBytes lines byteSize) = drop k lines.
Proof.
  induction lines as [|l lines IH]; intros byteSize; rewrite evictLoop_unfold.
  - exists 0%nat. split; [simpl; lia|]. destruct (negb _ && negb _); reflexivity.
  - destruct (negb _ && negb _).
    + exists 0%nat. split; [simpl; lia|]. reflexivity.
    + destruct (IH (GoInt.sub byteSize (len_string l))) as (k & Hk & Heq).
      exists (S k). split; [simpl; lia|]. exact Heq.
Qed.

Lemma applyLine_drop ps line :
  exists k : nat, (k <= length (Lines ps ++ [line]))%nat
    /\ Lines (applyLine ps line) = drop k (Lines ps ++ [line]).
Proof.
  unfold applyLine.
  destruct (evictLoop_drop (MaxLines ps) (MaxBytes ps) (Lines ps ++ [line])
              (GoInt.add (ByteSize ps) (len_string line))) as (k & Hk & Heq).
  destruct (evictLoop _ _ _ _) as [lines2 size2]. cbn [Lines]. cbn [fst] in Heq.
  exists k. auto.
Qed.

Lemma linesFor_own (n : nat) evs : linesFor (Z.of_nat n) (ownEvents n evs) = linesFor (Z.of_nat n) evs.
Proof.
  induction evs as [|ev evs IH]; [reflexivity|].
  destruct (decide (eventIndex ev = Z.of_nat n)) as [Heq|Hne].
  - rewrite ownEvents_cons_eq by exact Heq.
    destruct ev; cbn [linesFor]; rewrite IH; reflexivity.
  - rewrite ownEvents_cons_ne by exact Hne. rewrite IH.
    destruct ev as [line i|err i]; cbn [linesFor]; [|reflexivity].
    cbn [eventIndex] in Hne. apply Z.eqb_neq in Hne. rewrite Hne. reflexivity.
Qed.

Lemma replay_tail (n : nat) evs : forall ps,
  Forall (fun ev => eventIndex ev = Z.of_nat n) evs ->
  exists k : nat, (k <= length (Lines ps ++ linesFor (Z.of_nat n) evs))%nat
    /\ Lines (fold_left applyOne evs ps) = drop k (Lines ps ++ linesFor (Z.of_nat n) evs).
Proof.
  induction evs as [|ev evs IH]; intros ps Hall.
  - exists 0%nat. split; [lia|]. cbn [linesFor fold_left]. rewrite app_nil_r. reflexivity.
  - inversion Hall as [|? ? Hev Hrest]; subst. cbn [fold_left].
    destruct (IH (applyOne ps ev) Hrest) as (k & Hk & Heq). rewrite Heq.
    destruct ev as [line i|err i]; cbn [eventIndex] in Hev; subst i; cbn [linesFor applyOne] in *.
    + rewrite Z.eqb_refl.
      destruct (applyLine_drop ps line) as (j & Hj & Hcut). rewrite Hcut in *.
      rewrite <- drop_app_le in * by exact Hj.
      rewrite <- app_assoc in *. cbn [app] in *.
      rewrite drop_drop. exists (j + k)%nat. split; [|reflexivity].
      rewrite length_drop in Hk. rewrite !List.length_app in *. cbn [length] in *. lia.
    + exists k. auto.
Qed.

(** X5.  History.  After any sequence of events the lines of a process
    are a suffix of its lines before followed by the lines of its own
    line events, in the order they came: nothing is reordered, repeated or
    taken from another process. *)
Theorem applyAll_tail_of_history
    (states : list ProcessState) (evs : list Event) (n : nat) (ps : ProcessState) :
  states !! n = Some ps ->
  exists (states' : list ProcessState) (ps' : ProcessState) (k : nat),
    applyAll states evs = Some states'
    /\ states' !! n = Some ps'
    /\ Lines ps' = drop k (Lines ps ++ linesFor (Z.of_nat n) evs).
Proof.
  intros Hps. rewrite applyAll_replay.
  destruct (replay_tail n (ownEvents n evs) ps) as (k & _ & Heq).
  { unfold ownEvents. apply list.Forall_forall. intros ev Hin.
    apply list_elem_of_filter in Hin. tauto. }
  rewrite linesFor_own in Heq.
  eexists _, _, k. split; [reflexivity|].
  rewrite list_lookup_imap, Hps. cbn [fmap option_fmap option_map]. split; [reflexivity | exact Heq].
Qed.

Lemma applyAll_tail_of_history_witness :
  exists (states' : list ProcessState) (ps' : ProcessState) (k : nat),
    applyAll [newProcessState "a" 1 0; newProcessState "b" 0 4]
             [lineEvent "x" 0; lineEvent "hello" 1; lineEvent "y" 0] = Some states'
    /\ states' !! 0%nat = Some ps'
    /\ Lines ps' = drop k (Lines (newProcessState "a" 1 0)
                           ++ linesFor (Z.of_nat 0)
                                [lineEvent "x" 0; lineEvent "hello" 1; lineEvent "y" 0]).
Proof.
  apply (applyAll_tail_of_history [newProcessState "a" 1 0; newProcessState "b" 0 4]
           [lineEvent "x" 0; lineEvent "hello" 1; lineEvent "y" 0] 0 (newProcessState "a" 1 0)).
  reflexivity.
Defined.

(** ** The terminal renderer *)

Lemma append_nonempty_r (a b : string) : b <> EmptyString -> a +:+ b <> EmptyString.
Proof.
  intros Hb H. apply (f_equal String.length) in H.
  rewrite length_app in H. destruct b; [contradiction|]. simpl in H. lia.
Qed.

Lemma append_nonempty_l (a b : string) : a <> EmptyString -> a +:+ b <> EmptyString.
Proof.
  intros Ha H. apply (f_equal String.length) in H.
  rewrite length_app in H. destruct a; [contradiction|]. simpl in H. lia.
Qed.

Section TerminalFacts.

Variable errors_As : error -> option ExitError.
Variable strings_TrimSpace : string -> string.
Variable fmt_Sprintf : string -> string -> string.

Local Abbreviation FormatExitError' := (FormatExitError errors_As).
Local Abbreviation RenderScreen' := (RenderScreen errors_As strings_TrimSpace).
Local Abbreviation RenderIncremental' := (RenderIncremental errors_As fmt_Sprintf).

Lemma FormatExitError_ok (err : option error) :
  FormatExitError' err = "ok" <-> err = None.
Proof.
  split; [|intros ->; reflexivity].
  destruct err as [e|]; [|reflexivity]. unfold FormatExitError.
  destruct (errors_As e) as [[code [[[] sig]|]]|]; cbn [Sys ExitCode Signaled Signal];
    rewrite ?app_cons; discriminate.
Qed.

(** X6.  Exit code and status text.  [ExitCodeFromStates] is 0 exactly
    when [FormatExitError] says ["ok"] for every process, and it is 0 or
    1. *)
Theorem ExitCodeFromStates_summary (states : list ProcessState) :
  (ExitCodeFromStates states = 0
   <-> Forall (fun ps => FormatExitError' (Err ps) = "ok") states)
  /\ (ExitCodeFromStates states = 0 \/ ExitCodeFromStates states = 1).
Proof.
  induction states as [|ps states [IH IH01]]; cbn [ExitCodeFromStates].
  - split; [|left; reflexivity]. split; [constructor | reflexivity].
  - destruct (Err ps) as [e|] eqn:E.
    + split; [|right; reflexivity]. split; [discriminate|].
      intros H. apply Forall_cons in H as [H _]. rewrite E in H.
      apply FormatExitError_ok in H. discriminate.
    + split; [|exact IH01]. rewrite IH. split.
      * intros H. constructor; [rewrite E; reflexivity | exact H].
      * intros H. apply Forall_cons in H as [_ H]. exact H.
Qed.

Lemma existsb_clearDirty states : existsb Dirty (map clearDirty states) = false.
Proof. induction states as [|ps states IH]; [reflexivity|]. cbn. exact IH. Qed.

Lemma RenderScreen_clean states :
  existsb Dirty states = false -> RenderScreen' states = (EmptyString, states).
Proof. intros H. unfold RenderScreen. rewrite H. reflexivity. Qed.

Lemma RenderScreen_leaves_clean states :
  existsb Dirty (snd (RenderScreen' states)) = false.
Proof.
  unfold RenderScreen. destruct (existsb Dirty states) eqn:E; cbn [negb snd].
  - apply existsb_clearDirty.
  - exact E.
Qed.

Lemma RenderScreen_dirty states :
  existsb Dirty states = true -> fst (RenderScreen' states) <> EmptyString.
Proof.
  intros H. unfold RenderScreen. rewrite H. cbn [negb fst].
  unfold clearScreen. rewrite app_cons. discriminate.
Qed.

(** X7.  [RenderScreen] twice.  Right after a call a second call writes
    nothing and leaves the slice as it is. *)
Theorem RenderScreen_twice (states : list ProcessState) :
  RenderScreen' (snd (RenderScreen' states))
  = (EmptyString, snd (RenderScreen' states)).
Proof. apply RenderScreen_clean, RenderScreen_leaves_clean. Qed.

Lemma applyLine_Dirty ps line : Dirty (applyLine ps line) = true.
Proof. unfold applyLine. destruct (evictLoop _ _ _ _). reflexivity. Qed.

Lemma existsb_Dirty_insert states (n : nat) ps :
  (n < length states)%nat -> Dirty ps = true -> existsb Dirty (<[n := ps]> states) = true.
Proof.
  intros Hn Hd. apply existsb_exists. exists ps. split; [|exact Hd].
  apply list_elem_of_In, list_elem_of_lookup. exists n. apply list_lookup_insert_eq, Hn.
Qed.

(** X8.  Redrawing.  After a frame has been drawn, [ApplyEvent]
    followed by [RenderScreen] writes nothing exactly when the event's
    index is out of range; an event for an existing process always
    causes a redraw. *)
Theorem RenderScreen_after_event (states : list ProcessState) (ev : Event) :
  exists states',
    ApplyEvent (snd (RenderScreen' states)) ev = Some states'
    /\ (fst (RenderScreen' states') = EmptyString
        <-> eventIndex ev < 0 \/ len_slice states <= eventIndex ev).
Proof.
  pose proof (RenderScreen_leaves_clean states) as Hclean.
  assert (Hlen : len_slice (snd (RenderScreen' states)) = len_slice states).
  { unfold RenderScreen, len_slice. destruct (negb _); cbn [snd]; [reflexivity|].
    rewrite length_map. reflexivity. }
  destruct (ApplyEvent_cases (snd (RenderScreen' states)) ev)
    as [[Heq Hout]|(m & qs & Hm & Hqs & Heq)]; rewrite Heq; eexists; (split; [reflexivity|]).
  - rewrite RenderScreen_clean by exact Hclean. cbn [fst]. rewrite <- Hlen. tauto.
  - split.
    + intros Hnone. exfalso. revert Hnone. apply RenderScreen_dirty.
      apply existsb_Dirty_insert; [eapply lookup_lt_Some, Hqs|].
      destruct ev; [apply applyLine_Dirty | reflexivity].
    + intros Hout. exfalso. apply lookup_lt_Some in Hqs.
      unfold len_slice in *. lia.
Qed.

(** X9.  [RenderIncremental] never panics; it writes nothing exactly
    when the event's index is negative or at least [len(specs)], and what
    it writes otherwise ends with a newline. *)
Theorem RenderIncremental_silent_iff (timestamp : string) (ev : Event)
    (specs : list ProcessSpec) (states : list ProcessState)
    (showTimestamps : bool) (logPrefix : string) :
  exists out,
    RenderIncremental' timestamp ev specs states showTimestamps logPrefix = Some out
    /\ (out = EmptyString <-> eventIndex ev < 0 \/ len_slice specs <= eventIndex ev)
    /\ (out <> EmptyString -> lastByte out = Some LF).
Proof.
  unfold RenderIncremental.
  destruct ev as [line i|err i]; cbn [eventIndex];
    (destruct ((i <? 0) || (i >=? len_slice specs)) eqn:E;
     [ exists EmptyString; split; [reflexivity|]; split; [|congruence];
       split; [intros _|reflexivity];
       apply orb_true_iff in E as [E|E];
       [left; apply Z.ltb_lt, E | right; rewrite Z.geb_leb in E; apply Z.leb_le, E]
     | destruct (in_range_lookup specs i E) as (n & spec & Hn & Hspec);
       subst i; rewrite (indexSlice_lookup _ _ _ Hspec);
       apply lookup_lt_Some in Hspec;
       eexists; split; [reflexivity|]; split;
       [ split; [intros H; exfalso; revert H; apply append_nonempty_r; discriminate
                | unfold len_slice; lia]
       | intros _; apply lastByte_app; discriminate ] ]).
Qed.

End TerminalFacts.

(** ** What a task delivers *)

Lemma merges_snoc_left {A} (x : A) l1 l2 l :
  merges l1 l2 l -> merges (l1 ++ [x]) l2 (l ++ [x]).
Proof.
  induction 1; cbn [app].
  - repeat constructor.
  - constructor. assumption.
  - constructor. assumption.
Qed.

Lemma merges_snoc_right {A} (x : A) l1 l2 l :
  merges l1 l2 l -> merges l1 (l2 ++ [x]) (l ++ [x]).
Proof.
  induction 1; cbn [app].
  - repeat constructor.
  - constructor. assumption.
  - constructor. assumption.
Qed.

Lemma merges_nil_r {A} (l : list A) : merges l [] l.
Proof. induction l; constructor; assumption. Qed.

Lemma merges_nil_l {A} (l : list A) : merges [] l l.
Proof. induction l; constructor; assumption. Qed.

Lemma merges_nil_r_inv {A} (l1 l : list A) : merges l1 [] l -> l = l1.
Proof.
  intros H. remember [] as l2 eqn:E. induction H; try discriminate.
  - reflexivity.
  - f_equal. auto.
Qed.

Lemma merges_length {A} (l1 l2 l : list A) :
  merges l1 l2 l -> length l = (length l1 + length l2)%nat.
Proof. induction 1; cbn [length]; lia. Qed.

Lemma merges_Forall {A} (P : A -> Prop) (l1 l2 l : list A) :
  merges l1 l2 l -> Forall P l <-> Forall P l1 /\ Forall P l2.
Proof.
  induction 1.
  - split; [split|]; constructor.
  - rewrite !Forall_cons, IHmerges. tauto.
  - rewrite !Forall_cons, IHmerges. tauto.
Qed.

Section DeliveryFacts.

Variable osCommand : ProcessSpec -> Command.
Variable ctxCause : option error.
Variable Duration_String : Z -> string.
Variable eng : Engine.
Variable idx : Z.
Variable spec : ProcessSpec.

Local Abbreviation mainSteps' := (mainSteps osCommand ctxCause Duration_String eng idx spec).
Local Abbreviation step' := (step osCommand ctxCause Duration_String eng idx spec).
Local Abbreviation runs' := (runs osCommand ctxCause Duration_String eng idx spec).
Local Abbreviation startOf' := (startOf osCommand eng spec).
Local Abbreviation startedInv' := (startedInv ctxCause Duration_String eng idx).
Local Abbreviation deliveryInv' := (deliveryInv osCommand ctxCause Duration_String eng idx spec).
Local Abbreviation causeLines' := (causeLines ctxCause idx).
Local Abbreviation shutdownTraces' := (shutdownTraces ctxCause Duration_String eng idx).

Ltac split_steps H :=
  repeat match type of H with
    | _ ∈ [] => apply elem_of_nil in H; contradiction
    | _ ∈ _ ++ _ => apply elem_of_app in H as [H|H]
    | _ ∈ _ :: _ => apply elem_of_cons in H as [H|H]
    | _ ∈ match ?x with _ => _ end => destruct x eqn:?
    | _ ∈ (if ?x then _ else _) => destruct x eqn:?
    | (_, _) = (_, _) => injection H as ? ?; subst
    end.

Ltac simpl_config :=
  cbn [cfgMain cfgStdout cfgStderr cfgWaiter streamsWG done ctxDone
       withMain withDone withStdout withStderr withWaiter withCtxDone
       option_list pendingOf] in *.

Lemma deliveryInv_init : deliveryInv' [] initConfig.
Proof. exact I. Qed.

(** A step of [runProcess] that sends nothing of its own. *)
Lemma startedInv_main_silent cmd stdout stderr tr c c' :
  startedInv' cmd stdout stderr tr c ->
  cfgMain c <> Returned -> cfgMain c' <> Returned ->
  cfgStdout c' = cfgStdout c -> cfgStderr c' = cfgStderr c ->
  cfgWaiter c' = cfgWaiter c -> ctxDone c' = ctxDone c ->
  (done c' = None \/ done c' = done c) ->
  (forall diag, diagAt ctxCause Duration_String eng idx (cfgMain c) (ctxDone c) diag ->
                diagAt ctxCause Duration_String eng idx (cfgMain c') (ctxDone c) diag) ->
  ((forall waitErr, done c = Some waitErr -> waitErr = cmdWait cmd) ->
   waitErrAt (cfgMain c) cmd -> waitErrAt (cfgMain c') cmd) ->
  startedInv' cmd stdout stderr tr c'.
Proof.
  intros (sentOut & sentErr & m & diag & body & Hm & Hb & Hso & Hse & Hdiag & Hwait
          & Hdone & Hw & Htr) Hc Hpc Eso Ese Ew Ecd Hd Hdiag' Hwait'.
  exists sentOut, sentErr, m, diag, body.
  rewrite Eso, Ese, Ew, Ecd.
  repeat split; try assumption; auto.
  - intros waitErr Hsome. destruct Hd as [Hd|Hd]; rewrite Hd in Hsome;
      [discriminate | auto].
  - rewrite Htr. destruct (cfgMain c); try contradiction;
      destruct (cfgMain c'); try contradiction; reflexivity.
Qed.

(** A step of [runProcess] that sends a line of its own. *)
Lemma startedInv_main_line cmd stdout stderr tr c c' line :
  startedInv' cmd stdout stderr tr c ->
  cfgMain c <> Returned -> cfgMain c' <> Returned ->
  cfgStdout c' = cfgStdout c -> cfgStderr c' = cfgStderr c ->
  cfgWaiter c' = cfgWaiter c -> ctxDone c' = ctxDone c -> done c' = done c ->
  (forall diag, diagAt ctxCause Duration_String eng idx (cfgMain c) (ctxDone c) diag ->
                diagAt ctxCause Duration_String eng idx (cfgMain c') (ctxDone c) (diag ++ [line])) ->
  (waitErrAt (cfgMain c) cmd -> waitErrAt (cfgMain c') cmd) ->
  startedInv' cmd stdout stderr (tr ++ [line]) c'.
Proof.
  intros (sentOut & sentErr & m & diag & body & Hm & Hb & Hso & Hse & Hdiag & Hwait
          & Hdone & Hw & Htr) Hc Hpc Eso Ese Ew Ecd Ed Hdiag' Hwait'.
  exists sentOut, sentErr, m, (diag ++ [line]), (body ++ [line]).
  rewrite Eso, Ese, Ew, Ecd, Ed.
  repeat split; try assumption; auto using merges_snoc_right.
  rewrite Htr. destruct (cfgMain c); try contradiction;
    destruct (cfgMain c'); try contradiction; rewrite !app_nil_r; reflexivity.
Qed.

(** The last step of [runProcess]: the completion event. *)
Lemma startedInv_main_complete cmd stdout stderr tr c waitErr :
  startedInv' cmd stdout stderr tr c ->
  cfgMain c = AtComplete waitErr ->
  startedInv' cmd stdout stderr (tr ++ [completeOf idx waitErr]) (withMain Returned c).
Proof.
  intros (sentOut & sentErr & m & diag & body & Hm & Hb & Hso & Hse & Hdiag & Hwait
          & Hdone & Hw & Htr) Hc.
  exists sentOut, sentErr, m, diag, body. rewrite Hc in *. simpl_config.
  cbn [waitErrAt diagAt] in *. subst waitErr.
  repeat split; try assumption. rewrite Htr, app_nil_r. reflexivity.
Qed.

Lemma causeLines_some cause :
  ctxCause = Some cause -> negb (errors_Is cause SentinelCanceled) = true ->
  causeLines' = [lineOf idx ("[cancellation: " +:+ Error cause +:+ "]")].
Proof. intros H1 H2. unfold causeLines. rewrite H1, H2. reflexivity. Qed.

Lemma causeLines_canceled cause :
  ctxCause = Some cause -> negb (errors_Is cause SentinelCanceled) = false ->
  causeLines' = [].
Proof. intros H1 H2. unfold causeLines. rewrite H1, H2. reflexivity. Qed.

Lemma causeLines_none : ctxCause = None -> causeLines' = [].
Proof. intros H1. unfold causeLines. rewrite H1. reflexivity. Qed.

Lemma deliveryInv_main tr c ev c' :
  taskInv idx tr c -> deliveryInv' tr c -> (ev, c') ∈ mainSteps' c ->
  deliveryInv' (tr ++ option_list ev) c'.
Proof.
  intros Htask Hinv Hstep. destruct c as [pc so se w wg d cd].
  unfold mainSteps in Hstep. cbn [cfgMain] in Hstep.
  unfold taskInv in Htask. unfold deliveryInv in Hinv. cbn [cfgMain] in Htask, Hinv.
  (* the cases of [ctxCause] are taken on a copy, kept apart from [subst] *)
  remember ctxCause as cause0 eqn:Hcause in Hstep.
  apply (conj I) in Hcause.
  destruct pc; split_steps Hstep; unfold deliveryInv; simpl_config; rewrite ?app_nil_r.
  (* before the [go] statements *)
  all: try (destruct Htask as [-> _]; unfold startOf;
            repeat match goal with
                   | H : _ /\ _ |- _ => destruct H
                   end;
            repeat match goal with
                   | H : ?x = _ |- context [match ?x with _ => _ end] => rewrite H
                   end;
            first [ reflexivity | assumption | (repeat split; assumption) | idtac ]).
  all: try (destruct Hcause as [_ Hcause]; symmetry in Hcause).
  all: try (destruct Hinv as (cmd0 & stdout0 & stderr0 & Hstart & Hinv)).
  (* the [go] statements *)
  1: { exists cmd, stdout, stderr. split; [reflexivity|].
       exists [], [], [], [], []. simpl_config. cbn [diagAt waitErrAt app].
       repeat split; try constructor. discriminate. }
  (* the remaining steps but the last *)
  all: repeat match goal with
         | |- context [option_list (Some ?x)] => change (option_list (Some x)) with [x]
         end.
  all: try (rewrite Hstart; apply startedInv_main_complete; [exact Hinv | reflexivity]).
  all: try (exists cmd0, stdout0, stderr0; (split; [exact Hstart|])).
  all: try first
    [ eapply startedInv_main_silent; [exact Hinv | simpl_config ..]
    | eapply startedInv_main_line; [exact Hinv | simpl_config ..] ];
    try discriminate; try reflexivity; try (left; reflexivity); try (right; reflexivity).
  all: cbn [diagAt waitErrAt]; try tauto.
  all: try (intros Hd _; apply Hd; assumption).
  all: try (intros diag [-> ->]).
  all: try (erewrite causeLines_some by eassumption).
  all: try (erewrite causeLines_canceled by eassumption).
  all: try (rewrite causeLines_none by assumption).
  all: try (split; [rewrite <- ?app_assoc; reflexivity | reflexivity]).
  all: try (right; (split; [reflexivity|]); unfold shutdownTraces;
    rewrite <- ?app_assoc; cbn [app];
    unfold sigtermLine, timeoutLine, gracefulLine, forceKilledLine; rewrite !elem_of_cons; auto).
Qed.

Ltac unfold_task :=
  unfold taskInv, running, finished, notStarted, readerLines, readerActive in *;
  simpl_config.

(** A reader sends its next event. *)
Lemma startedInv_stdout cmd stdout stderr tr c ev pending wg :
  startedInv' cmd stdout stderr tr c ->
  cfgMain c <> Returned ->
  cfgStdout c = ReaderSending (ev :: pending) ->
  startedInv' cmd stdout stderr (tr ++ [ev]) (withStdout (ReaderSending pending) wg c).
Proof.
  intros (sentOut & sentErr & m & diag & body & Hm & Hb & Hso & Hse & Hdiag & Hwait
          & Hdone & Hw & Htr) Hc Hr.
  exists (sentOut ++ [ev]), sentErr, (m ++ [ev]), diag, (body ++ [ev]).
  rewrite Hr in Hso. simpl_config.
  repeat split; try assumption; auto using merges_snoc_left.
  - rewrite <- app_assoc. exact Hso.
  - rewrite Htr. destruct (cfgMain c); try contradiction; rewrite !app_nil_r; reflexivity.
Qed.

Lemma startedInv_stderr cmd stdout stderr tr c ev pending wg :
  startedInv' cmd stdout stderr tr c ->
  cfgMain c <> Returned ->
  cfgStderr c = ReaderSending (ev :: pending) ->
  startedInv' cmd stdout stderr (tr ++ [ev]) (withStderr (ReaderSending pending) wg c).
Proof.
  intros (sentOut & sentErr & m & diag & body & Hm & Hb & Hso & Hse & Hdiag & Hwait
          & Hdone & Hw & Htr) Hc Hr.
  exists sentOut, (sentErr ++ [ev]), (m ++ [ev]), diag, (body ++ [ev]).
  rewrite Hr in Hse. simpl_config.
  repeat split; try assumption; auto using merges_snoc_left, merges_snoc_right.
  - rewrite <- app_assoc. exact Hse.
  - rewrite Htr. destruct (cfgMain c); try contradiction; rewrite !app_nil_r; reflexivity.
Qed.

(** A step that sends nothing and leaves [runProcess] where it is: a
    reader's [wg.Done()], a step of the waiting goroutine, the
    cancellation of [ctx]. *)
Lemma startedInv_other cmd stdout stderr tr c c' :
  startedInv' cmd stdout stderr tr c ->
  cfgMain c' = cfgMain c ->
  pendingOf (cfgStdout c') = pendingOf (cfgStdout c) ->
  pendingOf (cfgStderr c') = pendingOf (cfgStderr c) ->
  (ctxDone c = true -> ctxDone c' = true) ->
  (forall waitErr, done c' = Some waitErr ->
     done c = Some waitErr
     \/ exists cmd', cfgWaiter c = WaiterAtCmdWait cmd' /\ waitErr = cmdWait cmd') ->
  match cfgWaiter c' with
  | WaiterAtStreams cmd' | WaiterAtCmdWait cmd' =>
      cfgWaiter c = WaiterAtStreams cmd' \/ cfgWaiter c = WaiterAtCmdWait cmd'
  | _ => True
  end ->
  startedInv' cmd stdout stderr tr c'.
Proof.
  intros (sentOut & sentErr & m & diag & body & Hm & Hb & Hso & Hse & Hdiag & Hwait
          & Hdone & Hw & Htr) Emain Eso Ese Hcd Hd Hw'.
  exists sentOut, sentErr, m, diag, body. rewrite Emain, Eso, Ese.
  repeat split; try assumption.
  - destruct (cfgMain c); cbn [diagAt] in *; try tauto.
  - intros waitErr Hsome. destruct (Hd waitErr Hsome) as [H|(cmd' & H & ->)]; [auto|].
    rewrite H in Hw. subst cmd'. reflexivity.
  - destruct (cfgWaiter c') as [|cmd'|cmd'|]; try exact I;
      destruct Hw' as [H|H]; rewrite H in Hw; exact Hw.
Qed.

Ltac change_sent :=
  repeat match goal with
    | |- context [option_list (Some ?x)] => change (option_list (Some x)) with [x]
    | |- context [option_list None] => change (@option_list ProcessLine None) with (@nil ProcessLine)
    end;
  rewrite ?app_nil_r.

(** After [runProcess] has returned, or before it has started its
    goroutines, neither reader is sending and the waiting goroutine is
    not waiting. *)
Ltac idle Htask :=
  exfalso; unfold_task;
  first [ destruct Htask as [_ (? & ? & ? & ?)]; congruence
        | destruct Htask as [_ [(? & ? & ? & ?)|(? & ? & ? & ?)]]; congruence ].

Lemma deliveryInv_stdout tr c ev r wg :
  taskInv idx tr c -> deliveryInv' tr c ->
  (ev, (r, wg)) ∈ readerSteps (cfgStdout c) (streamsWG c) ->
  deliveryInv' (tr ++ option_list ev) (withStdout r wg c).
Proof.
  intros Htask Hinv Hstep. destruct c as [pc so se w wg0 d cd]. simpl_config.
  destruct so as [|[|e p]|]; cbn [readerSteps] in Hstep; split_steps Hstep; change_sent.
  all: unfold deliveryInv in *; simpl_config.
  all: destruct pc; try exact Hinv; try (idle Htask).
  all: destruct Hinv as (cmd0 & stdout0 & stderr0 & Hstart & Hinv);
    exists cmd0, stdout0, stderr0; (split; [exact Hstart|]).
  all: first [ apply startedInv_stdout; [exact Hinv | discriminate | reflexivity]
             | eapply startedInv_other; [exact Hinv | simpl_config ..];
               try reflexivity; auto; destruct w; auto ].
Qed.

Lemma deliveryInv_stderr tr c ev r wg :
  taskInv idx tr c -> deliveryInv' tr c ->
  (ev, (r, wg)) ∈ readerSteps (cfgStderr c) (streamsWG c) ->
  deliveryInv' (tr ++ option_list ev) (withStderr r wg c).
Proof.
  intros Htask Hinv Hstep. destruct c as [pc so se w wg0 d cd]. simpl_config.
  destruct se as [|[|e p]|]; cbn [readerSteps] in Hstep; split_steps Hstep; change_sent.
  all: unfold deliveryInv in *; simpl_config.
  all: destruct pc; try exact Hinv; try (idle Htask).
  all: destruct Hinv as (cmd0 & stdout0 & stderr0 & Hstart & Hinv);
    exists cmd0, stdout0, stderr0; (split; [exact Hstart|]).
  all: first [ apply startedInv_stderr; [exact Hinv | discriminate | reflexivity]
             | eapply startedInv_other; [exact Hinv | simpl_config ..];
               try reflexivity; auto; destruct w; auto ].
Qed.

Lemma deliveryInv_waiter tr c ev c' :
  taskInv idx tr c -> deliveryInv' tr c -> (ev, c') ∈ waiterSteps c ->
  deliveryInv' (tr ++ option_list ev) c'.
Proof.
  intros Htask Hinv Hstep. destruct c as [pc so se w wg d cd].
  unfold waiterSteps in Hstep. simpl_config.
  split_steps Hstep; change_sent.
  all: unfold deliveryInv in *; simpl_config.
  all: destruct pc; try exact Hinv; try (idle Htask).
  all: destruct Hinv as (cmd0 & stdout0 & stderr0 & Hstart & Hinv);
    exists cmd0, stdout0, stderr0; (split; [exact Hstart|]).
  all: eapply startedInv_other; [exact Hinv | simpl_config ..];
    try reflexivity; auto.
  all: intros waitErr [= <-]; right; eexists; split; reflexivity.
Qed.

Lemma deliveryInv_ctx tr c ev c' :
  deliveryInv' tr c -> (ev, c') ∈ ctxSteps c ->
  deliveryInv' (tr ++ option_list ev) c'.
Proof.
  intros Hinv Hstep. destruct c as [pc so se w wg d cd].
  unfold ctxSteps in Hstep. simpl_config.
  split_steps Hstep; change_sent.
  unfold deliveryInv in *; simpl_config.
  destruct pc; try exact Hinv.
  all: try (destruct Hinv as (cmd0 & stdout0 & stderr0 & Hstart & Hinv);
            exists cmd0, stdout0, stderr0; (split; [exact Hstart|])).
  all: try (destruct (startOf' ) as [[[cmd0 stdout0] stderr0]|err]; [|exact Hinv]).
  all: eapply startedInv_other; [exact Hinv | simpl_config ..];
    try reflexivity; auto; destruct w; auto.
Qed.

Lemma deliveryInv_step tr c ev c' :
  taskInv idx tr c -> deliveryInv' tr c -> step' c ev c' ->
  deliveryInv' (tr ++ option_list ev) c'.
Proof.
  intros Htask Hinv Hstep. unfold step, successors, goroutineSteps in Hstep.
  rewrite !elem_of_app in Hstep.
  destruct Hstep as [[Hm|[Hso|[Hse|Hw]]]|Hctx].
  - eapply deliveryInv_main; eassumption.
  - unfold stdoutSteps in Hso.
    apply list_elem_of_In, in_map_iff in Hso as ([ev0 [r wg]] & Heq & Hin).
    injection Heq as <- <-. apply list_elem_of_In in Hin.
    apply deliveryInv_stdout; assumption.
  - unfold stderrSteps in Hse.
    apply list_elem_of_In, in_map_iff in Hse as ([ev0 [r wg]] & Heq & Hin).
    injection Heq as <- <-. apply list_elem_of_In in Hin.
    apply deliveryInv_stderr; assumption.
  - eapply deliveryInv_waiter; eassumption.
  - eapply deliveryInv_ctx; eassumption.
Qed.

Lemma runs_deliveryInv tr c : runs' initConfig tr c -> deliveryInv' tr c.
Proof.
  induction 1 as [|tr c1 ev c2 Hruns IH Hstep].
  - apply deliveryInv_init.
  - eapply deliveryInv_step; [|exact IH|exact Hstep].
    eapply runs_taskInv, Hruns.
Qed.

(** What a task that has returned has sent. *)
Lemma returned_delivery tr c :
  runs' initConfig tr c -> cfgMain c = Returned ->
  match startOf' with
  | inr err => tr = [completeOf idx (Some err)]
  | inl (cmd, stdout, stderr) =>
      exists m diag body,
        tr = body ++ [completeOf idx (cmdWait cmd)]
        /\ merges (streamReader (bufio_NewScanner stdout) idx)
                  (streamReader (bufio_NewScanner stderr) idx) m
        /\ merges m diag body
        /\ (diag = [] \/ (ctxDone c = true /\ diag ∈ shutdownTraces'))
  end.
Proof.
  intros Hruns Hret.
  pose proof (runs_taskInv _ _ _ _ _ _ _ _ Hruns) as Htask.
  pose proof (runs_deliveryInv _ _ Hruns) as Hinv.
  unfold deliveryInv in Hinv. unfold taskInv in Htask. rewrite Hret in Hinv, Htask.
  destruct startOf' as [[[cmd stdout] stderr]|err]; [|exact Hinv].
  destruct Hinv as (sentOut & sentErr & m & diag & body & Hm & Hb & Hso & Hse & Hdiag
                    & _ & _ & _ & Htr).
  rewrite Hret in Htr, Hdiag. cbn [diagAt] in Hdiag.
  assert (Hidle : pendingOf (cfgStdout c) = [] /\ pendingOf (cfgStderr c) = []).
  { destruct Htask as [_ [(-> & -> & _)|(-> & -> & _)]]; split; reflexivity. }
  destruct Hidle as [Eo Ee]. rewrite Eo, Ee, !app_nil_r in *. subst sentOut sentErr.
  exists m, diag, body. auto.
Qed.

(** What a task that has returned has sent, with the error of its
    completion event. *)
Lemma returned_terminal tr c :
  runs' initConfig tr c ->
  cfgMain c = Returned ->
  exists lines,
    tr = lines ++ [completeOf idx (terminalError osCommand eng spec)]
    /\ onlyLines idx lines.
Proof.
  intros Hruns Hret.
  pose proof (runs_taskInv _ _ _ _ _ _ _ _ Hruns) as Htask.
  pose proof (returned_delivery _ _ Hruns Hret) as Hdel.
  unfold taskInv in Htask. rewrite Hret in Htask.
  destruct Htask as [(lines & err & Htr & Hlines) _].
  exists lines. split; [|exact Hlines].
  unfold terminalError.
  destruct (startOf osCommand eng spec) as [[[cmd stdout] stderr]|serr].
  - destruct Hdel as (m & diag & body & Hbody & _).
    rewrite Htr in Hbody. apply app_inj_tail in Hbody as [_ Hc].
    rewrite Htr. f_equal. f_equal. f_equal.
    injection Hc as Hc. exact Hc.
  - rewrite Htr in Hdel. change [completeOf idx (Some serr)]
      with ([] ++ [completeOf idx (Some serr)]) in Hdel.
    apply app_inj_tail in Hdel as [_ Hc].
    rewrite Htr. f_equal. f_equal. f_equal.
    injection Hc as Hc. exact Hc.
Qed.

End DeliveryFacts.


Section EngineEvents.

Variable osCommand : ProcessSpec -> Command.
Variable ctxCause : option error.
Variable Duration_String : Z -> string.
Variable eng : Engine.

Local Abbreviation step' := (step osCommand ctxCause Duration_String eng).
Local Abbreviation engineRuns' := (engineRuns osCommand ctxCause Duration_String eng).
Local Abbreviation engineReachable' := (engineReachable osCommand ctxCause Duration_String eng).


End EngineEvents.


(** The fields of the events a task sends before its completion event. *)
Lemma merges_map {A B} (f : A -> B) (l1 l2 l : list A) :
  merges l1 l2 l -> merges (map f l1) (map f l2) (map f l).
Proof. induction 1; cbn [map]; constructor; assumption. Qed.

Lemma streamReader_fields (scanner : Scanner) (idx : Z) :
  Forall (fun pl => plIsComplete pl = false /\ plErr pl = None /\ plIndex pl = idx)
         (streamReader scanner idx).
Proof.
  unfold streamReader. apply Forall_app. split.
  - apply Forall_map, Forall_forall. intros token _. auto.
  - destruct (scan_err _) as [err|]; [|constructor].
    destruct (negb _); repeat constructor.
Qed.

(** The texts of the lines of a stream do not depend on the index of the
    process. *)
Lemma streamReader_texts (scanner : Scanner) (idx : Z) :
  map plLine (streamReader scanner idx) = map plLine (streamReader scanner 0).
Proof.
  unfold streamReader. rewrite !map_app, !map_map. f_equal.
  destruct (scan_err _) as [err|]; [|reflexivity].
  destruct (negb _); reflexivity.
Qed.

Lemma causeLines_fields (ctxCause : option error) (idx : Z) :
  Forall (fun pl => plIsComplete pl = false /\ plErr pl = None /\ plIndex pl = idx)
         (causeLines ctxCause idx)
  /\ map plLine (causeLines ctxCause idx) = causeTexts ctxCause.
Proof.
  unfold causeLines, causeTexts. destruct ctxCause as [cause|]; [|split; constructor].
  destruct (negb _); split; repeat constructor.
Qed.

Lemma shutdownTraces_fields (ctxCause : option error) (Duration_String : Z -> string)
    (eng : Engine) (idx : Z) (diag : list ProcessLine) :
  diag ∈ shutdownTraces ctxCause Duration_String eng idx ->
  Forall (fun pl => plIsComplete pl = false /\ plErr pl = None /\ plIndex pl = idx) diag
  /\ map plLine diag ∈ shutdownTexts ctxCause Duration_String eng.
Proof.
  destruct (causeLines_fields ctxCause idx) as [Hcause Htexts].
  unfold shutdownTraces, shutdownTexts. rewrite !elem_of_cons.
  intros [->|[->|[->|Hd]]]; [| | |apply elem_of_nil in Hd; contradiction].
  - split; [exact Hcause|]. rewrite Htexts. left. reflexivity.
  - split.
    + apply Forall_app. split; [exact Hcause|]. repeat constructor.
    + rewrite map_app, Htexts. right. left. reflexivity.
  - split.
    + apply Forall_app. split; [exact Hcause|]. repeat constructor.
    + rewrite map_app, Htexts. right. right. left. reflexivity.
Qed.

Section EngineDelivery.

Variable osCommand : ProcessSpec -> Command.
Variable ctxCause : option error.
Variable Duration_String : Z -> string.
Variable eng : Engine.

Local Abbreviation engineRuns' := (engineRuns osCommand ctxCause Duration_String eng).
Local Abbreviation engineReachable' := (engineReachable osCommand ctxCause Duration_String eng).

(** X10.  What a started process delivers.  Once the task of a process
    whose command was created, piped and started has returned, the events
    of its index are a body of events followed by one last event.  The
    last event has [IsComplete] true, the index of the process, an empty
    [Line], and as [Err] what [cmd.Wait()] answered.  Every event of the
    body has [IsComplete] false, no [Err] and the index of the process.
    The body is every line of stdout and every line of stderr, each stream
    in its order, interleaved with the lines of the shutdown sequence; so
    the [Line] texts of the body interleave the framed lines of stdout,
    the framed lines of stderr and the texts of the shutdown sequence.
    The shutdown sequence is empty unless the context was cancelled; else
    its texts are one of: the cancellation cause, if any, alone; the cause,
    the SIGTERM notice and ["[gracefully terminated]"]; the cause, the
    SIGTERM notice, the timeout notice and ["[force killed]"]. *)
Theorem engine_delivers_streams (st : EngineState) (i : nat) (spec : ProcessSpec)
    (c : Config) (cmd : Command) (stdout stderr : Stream) :
  engineReachable' st ->
  Specs eng !! i = Some spec ->
  tasks st !! i = Some c ->
  cfgMain c = Returned ->
  startOf osCommand eng spec = inl (cmd, stdout, stderr) ->
  exists (m diag body : list ProcessLine) (last : ProcessLine),
    eventsOf (Z.of_nat i) (output st) = body ++ [last]
    /\ last = completeOf (Z.of_nat i) (cmdWait cmd)
    /\ plIsComplete last = true
    /\ plErr last = cmdWait cmd
    /\ plIndex last = Z.of_nat i
    /\ plLine last = EmptyString
    /\ Forall (fun pl => plIsComplete pl = false /\ plErr pl = None
                         /\ plIndex pl = Z.of_nat i) body
    /\ merges (streamReader (bufio_NewScanner stdout) (Z.of_nat i))
              (streamReader (bufio_NewScanner stderr) (Z.of_nat i)) m
    /\ merges m diag body
    /\ merges (framedLines stdout) (framedLines stderr) (map plLine m)
    /\ merges (map plLine m) (map plLine diag) (map plLine body)
    /\ (diag = []
        \/ (ctxDone c = true
            /\ diag ∈ shutdownTraces ctxCause Duration_String eng (Z.of_nat i)
            /\ map plLine diag ∈ shutdownTexts ctxCause Duration_String eng)).
Proof.
  intros Hreach Hspec Hc Hret Hstart.
  destruct (engineReachable_tasks _ _ _ _ st Hreach) as [_ Htasks].
  pose proof (returned_delivery _ _ _ _ _ _ _ _ (Htasks i spec c Hspec Hc) Hret) as H.
  rewrite Hstart in H. destruct H as (m & diag & body & Htr & Hm & Hb & Hdiag).
  exists m, diag, body, (completeOf (Z.of_nat i) (cmdWait cmd)).
  split; [exact Htr|]. do 5 (split; [reflexivity|]).
  assert (Hfields : Forall (fun pl => plIsComplete pl = false /\ plErr pl = None
                                      /\ plIndex pl = Z.of_nat i) diag).
  { destruct Hdiag as [->|[_ Hd]]; [constructor|].
    apply (shutdownTraces_fields _ _ _ _ _ Hd). }
  split.
  { apply (merges_Forall _ _ _ _ Hb). split; [|exact Hfields].
    apply (merges_Forall _ _ _ _ Hm). split; apply streamReader_fields. }
  split; [exact Hm|]. split; [exact Hb|]. split.
  { unfold framedLines.
    rewrite <- (streamReader_texts _ (Z.of_nat i)).
    rewrite <- (streamReader_texts (bufio_NewScanner stderr) (Z.of_nat i)).
    apply merges_map, Hm. }
  split; [apply merges_map, Hb|].
  destruct Hdiag as [->|[Hdone Hd]]; [left; reflexivity|].
  right. split; [exact Hdone|]. split; [exact Hd|].
  assert (Hcause : map plLine (causeLines ctxCause (Z.of_nat i)) = causeTexts ctxCause).
  { unfold causeLines, causeTexts. destruct ctxCause as [cause|]; [|reflexivity].
    destruct (negb _); reflexivity. }
  unfold shutdownTraces in Hd. unfold shutdownTexts.
  rewrite !elem_of_cons in Hd. rewrite !elem_of_cons.
  destruct Hd as [->|[->|[->|Hd]]]; [| | |apply elem_of_nil in Hd; contradiction].
  - left. exact Hcause.
  - right. left. rewrite map_app, Hcause. reflexivity.
  - right. right. left. rewrite map_app, Hcause. reflexivity.
Qed.

(** X11.  A process that cannot be set up.  If the factory, a pipe or
    [Start] fails, the task sends one event and nothing else: an event
    with [IsComplete] true, the index of the process, an empty [Line], and
    as [Err] the error of the failing step wrapped with the name of the
    step (["create command"], ["stdout pipe"], ["stderr pipe"] or
    ["start"]). *)
Theorem engine_setup_failure (st : EngineState) (i : nat) (spec : ProcessSpec)
    (c : Config) (err : error) :
  engineReachable' st ->
  Specs eng !! i = Some spec ->
  tasks st !! i = Some c ->
  cfgMain c = Returned ->
  startOf osCommand eng spec = inr err ->
  eventsOf (Z.of_nat i) (output st) = [completeOf (Z.of_nat i) (Some err)]
  /\ (exists last : ProcessLine,
        eventsOf (Z.of_nat i) (output st) = [last]
        /\ plIsComplete last = true
        /\ plErr last = Some err
        /\ plIndex last = Z.of_nat i
        /\ plLine last = EmptyString)
  /\ (exists (what : string) (cause : error),
        err = wrapError what cause
        /\ Error err = what +:+ ": " +:+ Error cause
        /\ what ∈ ["create command"; "stdout pipe"; "stderr pipe"; "start"]).
Proof.
  intros Hreach Hspec Hc Hret Hstart.
  destruct (engineReachable_tasks _ _ _ _ st Hreach) as [_ Htasks].
  pose proof (returned_delivery _ _ _ _ _ _ _ _ (Htasks i spec c Hspec Hc) Hret) as H.
  rewrite Hstart in H. split; [exact H|]. split.
  - exists (completeOf (Z.of_nat i) (Some err)). split; [exact H|]. repeat split.
  - clear H. unfold startOf in Hstart.
    destruct (factoryOf osCommand eng spec) as [cmd|e0].
    + destruct (cmdStdoutPipe cmd) as [so|e1].
      * destruct (cmdStderrPipe cmd) as [se|e2].
        -- destruct (cmdStart cmd) as [e3|]; [|discriminate].
           injection Hstart as <-. exists "start", e3.
           do 2 (split; [reflexivity|]). rewrite !elem_of_cons.
           right. right. right. left. reflexivity.
        -- injection Hstart as <-. exists "stderr pipe", e2.
           do 2 (split; [reflexivity|]). rewrite !elem_of_cons.
           right. right. left. reflexivity.
      * injection Hstart as <-. exists "stdout pipe", e1.
        do 2 (split; [reflexivity|]). rewrite !elem_of_cons.
        right. left. reflexivity.
    + injection Hstart as <-. exists "create command", e0.
      do 2 (split; [reflexivity|]). rewrite !elem_of_cons.
      left. reflexivity.
Qed.

End EngineDelivery.

(** The forced kill of the scenario, by the fields of its events: the
    texts, and which event is the completion event. *)
Example forced_kill_fields :
  option_map (fun st => map (fun pl => (plLine pl, plIsComplete pl, plIndex pl)) (output st))
    (follow (fun _ => echoCommand) (Some (errorString "deadline")) (fun _ => "5s")
            echoEngine (engineInit echoEngine)
            [0; 0; 0; 0; 2; 0; 0; 0; 0; 0; 0; 0; 0; 0; 0; 0; 0]%nat)
  = Some [("[cancellation: deadline]", false, 0);
          ("[sending SIGTERM for graceful shutdown...]", false, 0);
          ("[graceful shutdown timeout (5s), force killing...]", false, 0);
          ("x", false, 0);
          ("[force killed]", false, 0);
          (EmptyString, true, 0)].
Proof. vm_compute. reflexivity. Qed.

Lemma engine_delivers_streams_witness :
  exists (m diag body : list ProcessLine) (last : ProcessLine),
    eventsOf (Z.of_nat 0) (output echoFinal) = body ++ [last]
    /\ last = completeOf (Z.of_nat 0) (cmdWait echoCommand)
    /\ plIsComplete last = true
    /\ plErr last = cmdWait echoCommand
    /\ plIndex last = Z.of_nat 0
    /\ plLine last = EmptyString
    /\ Forall (fun pl => plIsComplete pl = false /\ plErr pl = None
                         /\ plIndex pl = Z.of_nat 0) body
    /\ merges (streamReader (bufio_NewScanner (mkStream ("x" +:+ String LF EmptyString) io_EOF))
                 (Z.of_nat 0))
              (streamReader (bufio_NewScanner (mkStream EmptyString io_EOF)) (Z.of_nat 0)) m
    /\ merges m diag body
    /\ merges (framedLines (mkStream ("x" +:+ String LF EmptyString) io_EOF))
              (framedLines (mkStream EmptyString io_EOF)) (map plLine m)
    /\ merges (map plLine m) (map plLine diag) (map plLine body)
    /\ (diag = []
        \/ (ctxDone echoReturned = true
            /\ diag ∈ shutdownTraces None (fun _ => "5s") echoEngine (Z.of_nat 0)
            /\ map plLine diag ∈ shutdownTexts None (fun _ => "5s") echoEngine)).
Proof.
  apply (engine_delivers_streams (fun _ => echoCommand) None (fun _ => "5s")
           echoEngine echoFinal 0 echoSpec echoReturned echoCommand).
  - apply (follow_runs _ _ _ _ (replicate 11 0%nat)). vm_compute. reflexivity.
  - reflexivity.
  - reflexivity.
  - reflexivity.
  - reflexivity.
Defined.

Lemma engine_setup_failure_witness :
  eventsOf (Z.of_nat 0) (output brokenFinal)
  = [completeOf (Z.of_nat 0)
       (Some (wrapError "create command" (errorString "no such command")))]
  /\ (exists last : ProcessLine,
        eventsOf (Z.of_nat 0) (output brokenFinal) = [last]
        /\ plIsComplete last = true
        /\ plErr last = Some (wrapError "create command" (errorString "no such command"))
        /\ plIndex last = Z.of_nat 0
        /\ plLine last = EmptyString)
  /\ (exists (what : string) (cause : error),
        wrapError "create command" (errorString "no such command") = wrapError what cause
        /\ Error (wrapError "create command" (errorString "no such command"))
           = what +:+ ": " +:+ Error cause
        /\ what ∈ ["create command"; "stdout pipe"; "stderr pipe"; "start"]).
Proof.
  apply (engine_setup_failure (fun _ => echoCommand) None (fun _ => "5s")
           brokenEngine brokenFinal 0 echoSpec (withMain Returned initConfig)).
  - apply (follow_runs _ _ _ _ [0%nat]). vm_compute. reflexivity.
  - reflexivity.
  - reflexivity.
  - reflexivity.
  - reflexivity.
Defined.

(** ** Engine lines and the incremental renderer *)

Lemma no_EOL_bracket (s : string) : endsWithEOL (s +:+ "]") = false.
Proof. unfold endsWithEOL. rewrite lastByte_app by discriminate. reflexivity. Qed.

Section EngineLines.

Variable osCommand : ProcessSpec -> Command.
Variable ctxCause : option error.
Variable Duration_String : Z -> string.
Variable eng : Engine.

Local Abbreviation noEOL := (fun pl : ProcessLine => endsWithEOL (plLine pl) = false).

Lemma causeLines_no_EOL idx : Forall noEOL (causeLines ctxCause idx).
Proof.
  unfold causeLines. destruct ctxCause as [cause|]; [|constructor].
  destruct (negb _); constructor; [|constructor].
  cbn [plLine lineOf]. rewrite <- app_assoc_string. apply no_EOL_bracket.
Qed.

Lemma timeoutLine_no_EOL idx : noEOL (timeoutLine Duration_String eng idx).
Proof.
  unfold timeoutLine. cbn [plLine lineOf].
  change "), force killing...]" with ("), force killing..." +:+ "]").
  rewrite <- !app_assoc_string. apply no_EOL_bracket.
Qed.

Lemma diagAt_no_EOL idx pc cancelled diag :
  diagAt ctxCause Duration_String eng idx pc cancelled diag -> Forall noEOL diag.
Proof.
  pose proof (causeLines_no_EOL idx) as Hcause.
  pose proof (timeoutLine_no_EOL idx) as Htimeout.
  assert (Htraces : forall d, d ∈ shutdownTraces ctxCause Duration_String eng idx ->
                              Forall noEOL d).
  { intros d Hd. unfold shutdownTraces in Hd. rewrite !elem_of_cons in Hd.
    destruct Hd as [->|[->|[->|Hd]]]; [assumption | | | apply elem_of_nil in Hd; contradiction];
      apply Forall_app; (split; [assumption|]); repeat constructor; assumption. }
  destruct pc; cbn [diagAt]; try contradiction.
  all: try (intros ->; constructor).
  all: try (intros [-> _]; try assumption; try constructor;
            apply Forall_app; (split; [assumption|]); repeat constructor; assumption).
  all: intros [->|[_ Hd]]; [constructor | auto].
Qed.

Lemma Forall_prefix {A} (P : A -> Prop) (l1 l2 l : list A) :
  l1 ++ l2 = l -> Forall P l -> Forall P l1.
Proof. intros <- H. apply Forall_app in H. tauto. Qed.

Lemma runs_no_EOL idx spec tr c :
  runs osCommand ctxCause Duration_String eng idx spec initConfig tr c ->
  Forall noEOL tr.
Proof.
  intros Hruns.
  pose proof (runs_taskInv _ _ _ _ _ _ _ _ Hruns) as Htask.
  pose proof (runs_deliveryInv _ _ _ _ _ _ _ _ Hruns) as Hinv.
  assert (Hstarted : forall cmd stdout stderr,
             startedInv ctxCause Duration_String eng idx cmd stdout stderr tr c ->
             Forall noEOL tr).
  { intros cmd stdout stderr
      (sentOut & sentErr & m & diag & body & Hm & Hb & Hso & Hse & Hdiag & _ & _ & _ & ->).
    apply Forall_app. split.
    - apply (merges_Forall _ _ _ _ Hb). split.
      + apply (merges_Forall _ _ _ _ Hm). split.
        * eapply Forall_prefix; [exact Hso | apply streamReader_no_EOL].
        * eapply Forall_prefix; [exact Hse | apply streamReader_no_EOL].
      + eapply diagAt_no_EOL, Hdiag.
    - destruct (cfgMain c); repeat constructor. }
  unfold deliveryInv in Hinv. unfold taskInv in Htask.
  destruct (cfgMain c) eqn:Hpc.
  all: try (destruct Htask as [-> _]; constructor).
  all: try (destruct Hinv as (cmd & stdout & stderr & _ & Hinv); eapply Hstarted, Hinv).
  destruct (startOf _ _ _) as [[[cmd stdout] stderr]|err].
  - eapply Hstarted, Hinv.
  - rewrite Hinv. repeat constructor.
Qed.

(** Every event of the stream comes from a task of the engine, carries
    the index of its spec, and its line ends in no line terminator. *)
Lemma engineReachable_events st :
  engineReachable osCommand ctxCause Duration_String eng st ->
  Forall (fun pl => noEOL pl
                    /\ 0 <= plIndex pl < len_slice (Specs eng)) (output st).
Proof.
  intros Hreach. unfold engineReachable in Hreach.
  induction Hreach as [|st1 st2 Hreach IH Hstep]; [constructor|].
  destruct (engineReachable_tasks _ _ _ _ st1 Hreach) as [_ Htasks].
  apply engineSuccessors_inv in Hstep as (j & spec & c & ev & c' & Hspec & Hc & Hst & ->).
  cbn [output]. apply Forall_app. split; [exact IH|].
  destruct ev as [ev|]; [|constructor].
  change (option_list (Some ev)) with [ev]. constructor; [|constructor].
  pose proof (Htasks j spec c Hspec Hc) as Hruns.
  pose proof (runs_step _ _ _ _ _ _ _ _ _ _ _ Hruns Hst) as Hruns'.
  change (option_list (Some ev)) with [ev] in Hruns'.
  split.
  - apply runs_no_EOL in Hruns'. apply Forall_app in Hruns' as [_ H].
    apply Forall_cons in H as [H _]. exact H.
  - rewrite (step_event_index _ _ _ _ _ _ _ _ _ _
               (runs_taskInv _ _ _ _ _ _ _ _ Hruns) Hst).
    apply lookup_lt_Some in Hspec. unfold len_slice. lia.
Qed.

Variable errors_As : error -> option ExitError.
Variable fmt_Sprintf : string -> string -> string.

(** X12.  Engine lines in the incremental renderer.  Every line event
    the engine sends carries the index of one of its specs and a line
    that ends in no carriage return or newline, so [RenderIncremental]
    prints it in full under the name of that spec. *)
Theorem RenderIncremental_engine_line (st : EngineState) (pl : ProcessLine)
    (timestamp : string) (states : list ProcessState)
    (showTimestamps : bool) (logPrefix : string) :
  engineReachable osCommand ctxCause Duration_String eng st ->
  pl ∈ output st ->
  plIsComplete pl = false ->
  exists (n : nat) (spec : ProcessSpec),
    plIndex pl = Z.of_nat n
    /\ Specs eng !! n = Some spec
    /\ RenderIncremental errors_As fmt_Sprintf timestamp
         (ConvertProcessLineToEvent pl) (Specs eng) states showTimestamps logPrefix
       = Some (incrementalLine fmt_Sprintf showTimestamps timestamp
                 (if String.eqb logPrefix EmptyString then "[%s]" else logPrefix)
                 (displayName spec (plIndex pl)) (plLine pl)
               +:+ newline).
Proof.
  intros Hreach Hin Hline.
  pose proof (engineReachable_events st Hreach) as Hall.
  rewrite list.Forall_forall in Hall. destruct (Hall pl Hin) as [Heol Hidx].
  assert (Htest : (plIndex pl <? 0) || (plIndex pl >=? len_slice (Specs eng)) = false).
  { rewrite Z.geb_leb. apply orb_false_iff. split; [apply Z.ltb_ge | apply Z.leb_gt]; lia. }
  destruct (in_range_lookup _ _ Htest) as (n & spec & Hn & Hspec).
  exists n, spec. split; [exact Hn|]. split; [exact Hspec|].
  unfold ConvertProcessLineToEvent. rewrite Hline.
  unfold RenderIncremental. rewrite Htest, Hn, (indexSlice_lookup _ _ _ Hspec).
  rewrite (TrimRight_no_EOL _ Heol). reflexivity.
Qed.

End EngineLines.

Lemma RenderIncremental_engine_line_witness :
  exists (n : nat) (spec : ProcessSpec),
    plIndex (lineOf 0 "x") = Z.of_nat n
    /\ Specs echoEngine !! n = Some spec
    /\ RenderIncremental (fun _ => None) (fun _ name => "[" +:+ name +:+ "]")
         "2026-01-01T00:00:00Z"
         (ConvertProcessLineToEvent (lineOf 0 "x")) (Specs echoEngine) [] false "[%s]"
       = Some (incrementalLine (fun _ name => "[" +:+ name +:+ "]") false
                 "2026-01-01T00:00:00Z"
                 (if String.eqb "[%s]" EmptyString then "[%s]" else "[%s]")
                 (displayName spec (plIndex (lineOf 0 "x"))) (plLine (lineOf 0 "x"))
               +:+ newline).
Proof.
  apply (RenderIncremental_engine_line (fun _ => echoCommand) None (fun _ => "5s")
           echoEngine (fun _ => None) (fun _ name => "[" +:+ name +:+ "]")
           echoFinal (lineOf 0 "x") "2026-01-01T00:00:00Z" [] false "[%s]").
  - apply (follow_runs _ _ _ _ (replicate 11 0%nat)). vm_compute. reflexivity.
  - apply elem_of_cons. left. reflexivity.
  - reflexivity.
Defined.

(** ** The engine runs to completion *)

Section EngineCompletion.

Variable osCommand : ProcessSpec -> Command.
Variable ctxCause : option error.
Variable Duration_String : Z -> string.
Variable eng : Engine.

Local Abbreviation engineRuns' := (engineRuns osCommand ctxCause Duration_String eng).
Local Abbreviation engineReachable' := (engineReachable osCommand ctxCause Duration_String eng).

(** A step of a task is a step of the engine. *)
Lemma engine_task_step st (j : nat) spec c ev c' :
  Specs eng !! j = Some spec -> tasks st !! j = Some c ->
  step osCommand ctxCause Duration_String eng (Z.of_nat j) spec c ev c' ->
  {| tasks := <[j := c']> (tasks st); output := output st ++ option_list ev |}
  ∈ engineSuccessors osCommand ctxCause Duration_String eng st.
Proof.
  intros Hspec Hc Hstep. unfold engineSuccessors.
  apply list_elem_of_In, in_concat.
  exists (taskSteps osCommand ctxCause Duration_String eng st j spec). split.
  - apply list_elem_of_In, elem_of_lookup_imap. exists j, spec. auto.
  - unfold taskSteps. rewrite Hc. apply in_map_iff. exists (ev, c').
    split; [reflexivity|]. apply list_elem_of_In, Hstep.
Qed.

(** A task that has not returned is run to its end, the other tasks
    standing still. *)
Lemma engine_finish_task (n : nat) : forall st (j : nat) spec c,
  engineReachable' st ->
  Specs eng !! j = Some spec -> tasks st !! j = Some c ->
  (configFuel osCommand eng (Z.of_nat j) spec c <= n)%nat ->
  exists st',
    engineRuns' st st'
    /\ (exists c', tasks st' !! j = Some c' /\ cfgMain c' = Returned)
    /\ (forall k : nat, k <> j -> tasks st' !! k = tasks st !! k).
Proof.
  induction n as [|n IH]; intros st j spec c Hreach Hspec Hc Hfuel.
  all: destruct (engineReachable_tasks _ _ _ _ st Hreach) as [_ Htasks].
  all: pose proof (runs_taskInv _ _ _ _ _ _ _ _ (Htasks j spec c Hspec Hc)) as Htask.
  all: assert (Hdec : cfgMain c = Returned \/ cfgMain c <> Returned)
         by (destruct (cfgMain c); auto; right; discriminate).
  all: destruct Hdec as [Hret|Hnot];
    [exists st; split; [apply engine_refl|]; split; [exists c; auto | reflexivity]|].
  all: pose proof (task_progress osCommand ctxCause Duration_String eng (Z.of_nat j) spec
                     _ _ Htask Hnot) as Hprog.
  all: destruct (goroutineSteps osCommand ctxCause Duration_String eng (Z.of_nat j) spec c)
         as [|[ev c'] rest] eqn:Hsteps; [contradiction|].
  all: assert (Hstep : step osCommand ctxCause Duration_String eng (Z.of_nat j) spec c ev c')
         by (unfold step, successors; rewrite Hsteps; apply elem_of_app; left;
             apply elem_of_cons; left; reflexivity).
  all: pose proof (step_fuel osCommand ctxCause Duration_String eng (Z.of_nat j) spec
                     _ _ _ Hstep) as Hless.
  - lia.
  - pose proof (engine_task_step st j spec c ev c' Hspec Hc Hstep) as Hin.
    assert (Hlt : (j < length (tasks st))%nat) by (eapply lookup_lt_Some, Hc).
    assert (Hreach1 : engineReachable'
                        {| tasks := <[j := c']> (tasks st);
                           output := output st ++ option_list ev |}).
    { eapply engine_step; [exact Hreach | exact Hin]. }
    destruct (IH _ j spec c' Hreach1 Hspec (list_lookup_insert_eq _ _ _ Hlt))
      as (st' & Hruns & Hret & Hothers); [lia|].
    exists st'. split; [|split; [exact Hret|]].
    + eapply engineRuns_trans; [|exact Hruns].
      eapply engine_step; [apply engine_refl | exact Hin].
    + intros k Hk. rewrite (Hothers k Hk). cbn [tasks].
      apply list_lookup_insert_ne. congruence.
Qed.

Lemma engine_finish_first (k : nat) : forall st,
  engineReachable' st -> (k <= length (Specs eng))%nat ->
  exists st',
    engineRuns' st st'
    /\ forall j : nat, (j < k)%nat ->
         exists c, tasks st' !! j = Some c /\ cfgMain c = Returned.
Proof.
  induction k as [|k IH]; intros st Hreach Hk.
  - exists st. split; [apply engine_refl|]. intros j Hj. lia.
  - destruct (IH st Hreach ltac:(lia)) as (st1 & Hruns1 & Hdone1).
    assert (Hreach1 : engineReachable' st1) by (eapply engineRuns_trans; eassumption).
    destruct (engineReachable_tasks _ _ _ _ st1 Hreach1) as [Hlen _].
    destruct (lookup_lt_is_Some_2 (Specs eng) k ltac:(lia)) as [spec Hspec].
    destruct (lookup_lt_is_Some_2 (tasks st1) k ltac:(lia)) as [c Hc].
    destruct (engine_finish_task _ st1 k spec c Hreach1 Hspec Hc (le_n _))
      as (st2 & Hruns2 & Hret & Hothers).
    exists st2. split; [eapply engineRuns_trans; eassumption|].
    intros j Hj. destruct (decide (j = k)) as [->|Hne]; [exact Hret|].
    rewrite (Hothers j Hne). apply Hdone1. lia.
Qed.

(** X13.  The engine can finish.  From every state the engine can
    reach, some continuation brings every task to its return, where [Run]
    closes the output channel. *)
Theorem engine_can_finish (st : EngineState) :
  engineReachable' st ->
  exists st',
    engineRuns' st st'
    /\ length (tasks st') = length (Specs eng)
    /\ Forall (fun c => cfgMain c = Returned) (tasks st').
Proof.
  intros Hreach.
  destruct (engine_finish_first (length (Specs eng)) st Hreach (le_n _))
    as (st' & Hruns & Hdone).
  assert (Hreach' : engineReachable' st') by (eapply engineRuns_trans; eassumption).
  destruct (engineReachable_tasks _ _ _ _ st' Hreach') as [Hlen _].
  exists st'. split; [exact Hruns|]. split; [exact Hlen|].
  apply list.Forall_forall. intros c Hc.
  apply list_elem_of_lookup in Hc as [j Hj].
  destruct (Hdone j) as (c' & Hc' & Hret).
  - rewrite <- Hlen. eapply lookup_lt_Some, Hj.
  - congruence.
Qed.

End EngineCompletion.

Lemma engine_can_finish_witness :
  exists st',
    engineRuns (fun _ => echoCommand) (Some (errorString "deadline")) (fun _ => "5s")
      echoEngine (engineInit echoEngine) st'
    /\ length (tasks st') = length (Specs echoEngine)
    /\ Forall (fun c => cfgMain c = Returned) (tasks st').
Proof.
  apply (engine_can_finish (fun _ => echoCommand) (Some (errorString "deadline"))
           (fun _ => "5s") echoEngine (engineInit echoEngine)).
  apply engine_refl.
Defined.

(** ** The runner *)

Lemma effective_props (isTTY : bool) (cfg : runner.Config) :
  let e := runner.effective isTTY cfg in
  0 < runner.MaxLinesPerProc e
  /\ 0 < runner.ShutdownTimeout e
  /\ runner.LogPrefix e <> EmptyString
  /\ (exists tty, runner.IsTTY e = Some tty
                  /\ (runner.FullScreen e = true -> tty = true)
                  /\ runner.fullScreenMode e = runner.FullScreen e)
  /\ runner.Specs e = runner.Specs cfg
  /\ runner.effective isTTY e = e.
Proof.
  destruct cfg as [tty prefix specs maxLines timeout fs summary ts].
  unfold runner.effective, runner.fullScreenMode.
  cbn [runner.IsTTY runner.LogPrefix runner.Specs runner.MaxLinesPerProc
       runner.ShutdownTimeout runner.FullScreen runner.ShowSummary
       runner.ShowTimestamps runner.DefaultConfig].
  unfold runner.defaultMaxLinesPerProc, runner.defaultShutdownTimeout, time_Second.
  assert (Hspecs : match specs with [] => [] | _ :: _ => specs end = specs)
    by (destruct specs; reflexivity).
  rewrite !Hspecs.
  destruct (Z.leb_spec maxLines 0) as [Hm|Hm];
    destruct (Z.leb_spec timeout 0) as [Ht|Ht];
    destruct (String.eqb prefix EmptyString) eqn:Hp;
    try (apply String.eqb_neq in Hp);
    cbn [String.eqb Ascii.eqb Bool.eqb].
  all: repeat match goal with
         | |- context [?a <=? 0] =>
             first [ replace (a <=? 0) with false by (symmetry; apply Z.leb_gt; lia) ]
         end.
  all: try rewrite (proj2 (String.eqb_neq _ _) Hp).
  all: split; [lia|]; split; [lia|]; split; [first [discriminate | exact Hp]|].
  all: destruct tty as [[|]|], isTTY, fs; cbn [andb];
    (split; [eexists; split; [reflexivity|]; split; [congruence | reflexivity]|]);
    (split; reflexivity).
Qed.

(** The effective [IsTTY] is the caller's when it is set, and what the
    probe of stdout answers otherwise; [FullScreen] is the caller's, switched
    off when the effective [IsTTY] is false. *)
Lemma effective_tty (isTTY : bool) (cfg : runner.Config) :
  let e := runner.effective isTTY cfg in
  runner.IsTTY e
  = Some (match runner.IsTTY cfg with Some val => val | None => isTTY end)
  /\ runner.FullScreen e
     = runner.FullScreen cfg
       && match runner.IsTTY cfg with Some val => val | None => isTTY end.
Proof.
  destruct cfg as [tty prefix specs maxLines timeout fs summary ts].
  unfold runner.effective. cbn [runner.IsTTY runner.FullScreen].
  destruct tty as [[|]|], isTTY, fs; split; reflexivity.
Qed.

(** X14.  The effective configuration of [runner.Run]: the line cap and
    the shutdown timeout are positive, the prefix format is not empty, the
    specs are the caller's, and deriving it again changes nothing.  Its
    [IsTTY] field is set: to the caller's [IsTTY] if the caller set one
    (whatever stdout is), and to the probe of stdout otherwise.  Its
    [FullScreen] is the caller's [FullScreen], switched off when that
    effective [IsTTY] field is false: full-screen rendering is on only if
    the effective [IsTTY] field is true.  So with [IsTTY] left unset it is
    on only if stdout is a terminal, and with [IsTTY] forced to true it is
    the caller's [FullScreen] even if stdout is no terminal. *)
Theorem effective_config_valid (isTTY : bool) (cfg : runner.Config) :
  let e := runner.effective isTTY cfg in
  0 < runner.MaxLinesPerProc e
  /\ 0 < runner.ShutdownTimeout e
  /\ runner.LogPrefix e <> EmptyString
  /\ (exists tty, runner.IsTTY e = Some tty
                  /\ (runner.FullScreen e = true -> tty = true)
                  /\ runner.fullScreenMode e = runner.FullScreen e)
  /\ runner.Specs e = runner.Specs cfg
  /\ runner.effective isTTY e = e
  /\ runner.IsTTY e
     = Some (match runner.IsTTY cfg with Some val => val | None => isTTY end)
  /\ runner.FullScreen e
     = runner.FullScreen cfg
       && match runner.IsTTY cfg with Some val => val | None => isTTY end
  /\ (runner.IsTTY cfg = None -> runner.FullScreen e = true -> isTTY = true)
  /\ (runner.IsTTY cfg = Some true -> runner.FullScreen e = runner.FullScreen cfg).
Proof.
  intros e.
  destruct (effective_props isTTY cfg) as (H1 & H2 & H3 & H4 & H5 & H6).
  destruct (effective_tty isTTY cfg) as (Htty & Hfs).
  fold e in H1, H2, H3, H4, H5, H6, Htty, Hfs.
  do 6 (split; [assumption|]). split; [exact Htty|]. split; [exact Hfs|]. split.
  - intros Hnone Hon. rewrite Hfs, Hnone in Hon.
    apply andb_prop in Hon as [_ Hon]. exact Hon.
  - intros Hforced. rewrite Hfs, Hforced. apply andb_true_r.
Qed.

(** Forcing [IsTTY] keeps full-screen rendering on though stdout is no
    terminal. *)
Example forced_tty_full_screen :
  runner.FullScreen
    (runner.effective false
       {| runner.IsTTY := Some true; runner.LogPrefix := EmptyString;
          runner.Specs := []; runner.MaxLinesPerProc := 0;
          runner.ShutdownTimeout := 0; runner.FullScreen := true;
          runner.ShowSummary := false; runner.ShowTimestamps := false |})
  = true.
Proof. reflexivity. Qed.

Lemma applyLine_keeps_config ps line :
  Name (applyLine ps line) = Name ps
  /\ MaxLines (applyLine ps line) = MaxLines ps
  /\ MaxBytes (applyLine ps line) = MaxBytes ps
  /\ Err (applyLine ps line) = Err ps
  /\ Done (applyLine ps line) = Done ps
  /\ Running (applyLine ps line) = Running ps.
Proof. unfold applyLine. destruct (evictLoop _ _ _ _). repeat split. Qed.

(** A state that is accounted for and within its caps stays so under
    the events addressed to it. *)
Lemma replay_bounded evs : forall ps,
  accounted ps -> withinCaps ps ->
  accounted (fold_left applyOne evs ps)
  /\ withinCaps (fold_left applyOne evs ps)
  /\ Name (fold_left applyOne evs ps) = Name ps
  /\ MaxLines (fold_left applyOne evs ps) = MaxLines ps
  /\ MaxBytes (fold_left applyOne evs ps) = MaxBytes ps.
Proof.
  induction evs as [|ev evs IH]; intros ps Hacc Hcaps; cbn [fold_left].
  - auto.
  - destruct ev as [line i|err i]; cbn [applyOne].
    + destruct (applyLine_keeps_config ps line) as (Hn & Hl & Hb & _).
      destruct (IH (applyLine ps line)) as (H1 & H2 & H3 & H4 & H5).
      * apply applyLine_accounted, Hacc.
      * apply applyLine_withinCaps, Hacc.
      * split; [exact H1|]. split; [exact H2|]. split; [|split]; congruence.
    + destruct (IH (applyDone ps err)) as (H1 & H2 & H3 & H4 & H5).
      * apply applyDone_accounted, Hacc.
      * exact Hcaps.
      * split; [exact H1|]. split; [exact H2|]. split; [|split]; assumption.
Qed.

Lemma initialState_bounded cfg spec :
  accounted (runner.initialState cfg spec) /\ withinCaps (runner.initialState cfg spec).
Proof.
  split; [reflexivity|]. unfold withinCaps, runner.initialState, len_slice. simpl. lia.
Qed.

(** X15.  Buffers under the runner.  From the initial states [Run]
    builds, any sequence of events leaves one state per spec, named after
    it, with a positive line cap -- the spec's, or else the
    configuration's -- that bounds the number of lines kept, with
    [ByteSize] the byte total of the lines, and within the byte cap if
    there is one. *)
Theorem Run_buffers_bounded (isTTY : bool) (cfg : runner.Config) (evs : list Event) :
  let e := runner.effective isTTY cfg in
  exists states',
    applyAll (runner.initialStates e) evs = Some states'
    /\ length states' = length (runner.Specs cfg)
    /\ forall (n : nat) (spec : ProcessSpec),
         runner.Specs cfg !! n = Some spec ->
         exists ps',
           states' !! n = Some ps'
           /\ Name ps' = specName spec
           /\ MaxLines ps' = (if specMaxLines spec <=? 0
                              then runner.MaxLinesPerProc e else specMaxLines spec)
           /\ 0 < MaxLines ps'
           /\ len_slice (Lines ps') <= MaxLines ps'
           /\ MaxBytes ps' = specMaxBytes spec
           /\ ByteSize ps' = byteTotal (Lines ps')
           /\ (0 < MaxBytes ps' -> ByteSize ps' <= MaxBytes ps').
Proof.
  intros e.
  destruct (effective_props isTTY cfg) as (Hpos & _ & _ & _ & Hspecs & _).
  fold e in Hpos, Hspecs.
  rewrite applyAll_replay. eexists. split; [reflexivity|].
  unfold runner.initialStates. rewrite Hspecs. split.
  - rewrite length_imap, length_map. reflexivity.
  - intros n spec Hspec.
    rewrite list_lookup_imap, list_lookup_fmap, Hspec.
    cbn [fmap option_fmap option_map]. eexists. split; [reflexivity|].
    destruct (initialState_bounded e spec) as [Hacc Hcaps].
    destruct (replay_bounded (ownEvents n evs) _ Hacc Hcaps)
      as (Hacc' & [Hlines Hbytes] & HN & HL & HB).
    assert (Hmax : 0 < MaxLines (runner.initialState e spec)).
    { unfold runner.initialState. cbn [MaxLines newProcessState].
      destruct (Z.leb_spec (specMaxLines spec) 0); lia. }
    rewrite HL, HB in *. rewrite HN.
    split; [reflexivity|]. split; [reflexivity|]. split; [exact Hmax|].
    split; [auto|]. split; [reflexivity|]. split; [exact Hacc' | exact Hbytes].
Qed.

(** *** Rendering and the results *)

Lemma applyOne_clearDirty ps ev : applyOne (clearDirty ps) ev = applyOne ps ev.
Proof. destruct ps, ev; reflexivity. Qed.

Lemma clearDirty_eq_applyOne ps qs ev :
  clearDirty ps = clearDirty qs -> applyOne ps ev = applyOne qs ev.
Proof.
  intros H. rewrite <- (applyOne_clearDirty ps), <- (applyOne_clearDirty qs), H. reflexivity.
Qed.

Lemma ApplyEvent_applyOne states ev (n : nat) ps :
  eventIndex ev = Z.of_nat n -> states !! n = Some ps ->
  ApplyEvent states ev = Some (<[n := applyOne ps ev]> states).
Proof.
  intros Hi Hps. destruct ev as [line i|err i]; cbn [eventIndex] in Hi; subst i.
  - apply ApplyEvent_line, Hps.
  - apply ApplyEvent_done, Hps.
Qed.

(** [ApplyEvent] does not read the [Dirty] flags. *)
Lemma ApplyEvent_clearDirty states1 states2 ev states1' :
  map clearDirty states1 = map clearDirty states2 ->
  ApplyEvent states1 ev = Some states1' ->
  exists states2',
    ApplyEvent states2 ev = Some states2'
    /\ map clearDirty states1' = map clearDirty states2'.
Proof.
  intros Hsame Happ.
  assert (Hlen : length states1 = length states2).
  { apply (f_equal length) in Hsame. rewrite !length_map in Hsame. exact Hsame. }
  destruct (ApplyEvent_cases states1 ev) as [[Heq Hout]|(n & ps & Hn & Hps & Heq)];
    rewrite Heq in Happ; injection Happ as <-.
  - exists states2. split; [|exact Hsame]. apply ApplyEvent_ignored.
    unfold len_slice in *. rewrite Z.geb_leb. apply orb_true_iff.
    destruct Hout; [left; apply Z.ltb_lt | right; apply Z.leb_le]; lia.
  - destruct (lookup_lt_is_Some_2 states2 n) as [qs Hqs].
    { rewrite <- Hlen. eapply lookup_lt_Some, Hps. }
    exists (<[n := applyOne qs ev]> states2).
    split; [apply ApplyEvent_applyOne; assumption|].
    assert (Hpq : clearDirty ps = clearDirty qs).
    { pose proof (f_equal (fun l => l !! n) Hsame) as Hn'. cbv beta in Hn'.
      rewrite !list_lookup_fmap, Hps, Hqs in Hn'.
      cbn [fmap option_fmap option_map] in Hn'. apply (inj Some), Hn'. }
    replace (match ev with
             | lineEvent line _ => applyLine ps line
             | doneEvent err _ => applyDone ps err
             end) with (applyOne ps ev) by (destruct ev; reflexivity).
    change (clearDirty <$> states1 = clearDirty <$> states2) in Hsame.
    change (clearDirty <$> <[n := applyOne ps ev]> states1
            = clearDirty <$> <[n := applyOne qs ev]> states2).
    rewrite !list_fmap_insert, Hsame, (clearDirty_eq_applyOne _ _ _ Hpq). reflexivity.
Qed.

Lemma ExitCodeFromStates_zero states :
  ExitCodeFromStates states = 0 <-> Forall (fun ps => Err ps = None) states.
Proof.
  induction states as [|ps states IH]; cbn [ExitCodeFromStates].
  - split; [constructor | reflexivity].
  - destruct (Err ps) eqn:E.
    + split; [discriminate|]. intros H. apply Forall_cons in H as [H _]. congruence.
    + rewrite IH. split; [intros H; constructor; assumption|].
      intros H. apply Forall_cons in H as [_ H]. exact H.
Qed.

Lemma ExitCodeFromStates_range states :
  ExitCodeFromStates states = 0 \/ ExitCodeFromStates states = 1.
Proof.
  induction states as [|ps states IH]; cbn [ExitCodeFromStates]; [auto|].
  destruct (Err ps); auto.
Qed.

Section RunnerFacts.

Variable errors_As : error -> option ExitError.
Variable strings_TrimSpace : string -> string.

Lemma clearDirty_idemp ps : clearDirty (clearDirty ps) = clearDirty ps.
Proof. reflexivity. Qed.

(** [RenderScreen] writes the [Dirty] flags and nothing else. *)
Lemma RenderScreen_clearDirty states :
  map clearDirty (snd (RenderScreen errors_As strings_TrimSpace states))
  = map clearDirty states.
Proof.
  unfold RenderScreen. destruct (negb _); cbn [snd]; [reflexivity|].
  rewrite <- list_fmap_compose. apply list_fmap_ext. intros i ps _. reflexivity.
Qed.

Lemma ExitCodeFromStates_clearDirty states :
  ExitCodeFromStates (map clearDirty states) = ExitCodeFromStates states.
Proof.
  induction states as [|ps states IH]; [reflexivity|].
  cbn [map ExitCodeFromStates clearDirty Err]. rewrite IH. reflexivity.
Qed.

Lemma WriteFinalSummary_clearDirty states :
  WriteFinalSummary errors_As (map clearDirty states) = WriteFinalSummary errors_As states.
Proof.
  unfold WriteFinalSummary. rewrite <- list_fmap_compose. reflexivity.
Qed.

Lemma same_results states1 states2 :
  map clearDirty states1 = map clearDirty states2 ->
  ExitCodeFromStates states1 = ExitCodeFromStates states2
  /\ WriteFinalSummary errors_As states1 = WriteFinalSummary errors_As states2.
Proof.
  intros H. split.
  - rewrite <- (ExitCodeFromStates_clearDirty states1), H. apply ExitCodeFromStates_clearDirty.
  - rewrite <- (WriteFinalSummary_clearDirty states1), H. apply WriteFinalSummary_clearDirty.
Qed.

Variable cfg : runner.Config.

Local Abbreviation loopStep' := (runner.loopStep errors_As strings_TrimSpace cfg).
Local Abbreviation loopRuns' := (runner.loopRuns errors_As strings_TrimSpace cfg).

Lemma loopInv_step init events l l' :
  loopInv init events l -> loopStep' l l' -> loopInv init events l'.
Proof.
  intros (taken & pure & Hev & Hpure & Hsame & Hclosed) Hstep.
  destruct Hstep as [states states' ev rest ch busy Happ|states busy|states evs done|states evs ch done];
    unfold loopInv; cbn [runner.loopStates runner.loopEvents runner.closed] in *.
  - destruct (ApplyEvent_clearDirty _ _ _ _ Hsame Happ) as (pure' & Hpure' & Hsame').
    exists (taken ++ [ev]), pure'. split; [rewrite <- app_assoc; exact Hev|].
    split; [|split; [exact Hsame' | discriminate]].
    rewrite applyAll_app, Hpure. cbn [applyAll]. rewrite Hpure'. reflexivity.
  - exists taken, pure. auto.
  - exists taken, pure. auto.
  - exists taken, pure. split; [exact Hev|]. split; [exact Hpure|].
    split; [|exact Hclosed]. rewrite RenderScreen_clearDirty. exact Hsame.
Qed.

Lemma loopRuns_inv init events l l' :
  loopInv init events l -> loopRuns' l l' -> loopInv init events l'.
Proof.
  intros Hinv Hruns. induction Hruns as [|l1 l2 _ IH Hstep]; [exact Hinv|].
  eapply loopInv_step; eassumption.
Qed.

Lemma loopInv_init events :
  loopInv (runner.initialStates cfg) events (runner.initLoop cfg events).
Proof.
  exists [], (runner.initialStates cfg).
  cbn [runner.initLoop runner.loopEvents runner.loopStates runner.closed applyAll app].
  repeat split. discriminate.
Qed.

Lemma loopInv_closed init events l pure :
  loopInv init events l -> runner.closed l = true ->
  applyAll init events = Some pure ->
  map clearDirty (runner.loopStates l) = map clearDirty pure.
Proof.
  intros (taken & pure' & Hev & Hpure & Hsame & Hclosed) Hc Hall.
  rewrite (Hclosed Hc), app_nil_r in Hev. subst taken.
  rewrite Hpure in Hall. injection Hall as <-. exact Hsame.
Qed.

Lemma loopRuns_closed l l' :
  loopRuns' l l' -> runner.closed l = true -> runner.closed l' = true.
Proof.
  intros Hruns Hc. induction Hruns as [|l1 l2 _ IH Hstep]; [exact Hc|].
  destruct Hstep; cbn [runner.closed] in *; auto; discriminate.
Qed.

Lemma mainLoop_applies_events (events : list Event) (summary : option string) (code : Z) :
  runner.mainLoop errors_As strings_TrimSpace cfg events summary code ->
  exists states,
    applyAll (runner.initialStates cfg) events = Some states
    /\ code = ExitCodeFromStates states
    /\ summary = (if runner.ShowSummary cfg
                  then Some (WriteFinalSummary errors_As states) else None).
Proof.
  intros (l1 & l2 & l3 & Hruns1 & Hclosed1 & Hruns2 & -> & Hruns3 & ->).
  rewrite applyAll_replay. eexists. split; [reflexivity|].
  pose proof (loopRuns_inv _ _ _ _ (loopInv_init events) Hruns1) as Hinv1.
  pose proof (loopRuns_inv _ _ _ _ Hinv1 Hruns2) as Hinv2.
  pose proof (loopRuns_inv _ _ _ _ Hinv2 Hruns3) as Hinv3.
  pose proof (loopRuns_closed _ _ Hruns2 Hclosed1) as Hclosed2.
  pose proof (loopRuns_closed _ _ Hruns3 Hclosed2) as Hclosed3.
  pose proof (loopInv_closed _ _ _ _ Hinv2 Hclosed2 (applyAll_replay events _)) as H2.
  pose proof (loopInv_closed _ _ _ _ Hinv3 Hclosed3 (applyAll_replay events _)) as H3.
  split.
  - apply (same_results _ _ H3).
  - destruct (runner.ShowSummary cfg); [|reflexivity].
    f_equal. apply (same_results _ _ H2).
Qed.

Lemma loopRuns_trans l1 l2 l3 : loopRuns' l1 l2 -> loopRuns' l2 l3 -> loopRuns' l1 l3.
Proof.
  intros H12 H23. induction H23 as [|l3 l4 _ IH Hstep]; [exact H12|].
  eapply runner.loop_step; eassumption.
Qed.

Lemma ApplyEvent_total states ev : exists states', ApplyEvent states ev = Some states'.
Proof.
  destruct (ApplyEvent_cases states ev) as [[Heq _]|(n & ps & _ & _ & Heq)];
    rewrite Heq; eexists; reflexivity.
Qed.

(** The main loop takes every event. *)
Lemma loop_takes_events events : forall states ch busy,
  exists states' ch',
    loopRuns' (runner.mkLoop states events ch busy false)
              (runner.mkLoop states' [] ch' busy false).
Proof.
  induction events as [|ev rest IH]; intros states ch busy.
  - exists states, ch. apply runner.loop_refl.
  - destruct (ApplyEvent_total states ev) as [states1 Happ].
    destruct (IH states1 (ch || runner.fullScreenMode cfg) busy) as (states' & ch' & Hruns).
    exists states', ch'. eapply loopRuns_trans; [|exact Hruns].
    eapply runner.loop_step; [apply runner.loop_refl|].
    apply runner.loop_event, Happ.
Qed.

(** The loop comes to its end on every sequence of events. *)
Lemma mainLoop_exists (events : list Event) :
  exists summary code, runner.mainLoop errors_As strings_TrimSpace cfg events summary code.
Proof.
  destruct (loop_takes_events events (runner.initialStates cfg)
              (runner.fullScreenMode cfg) false) as (states' & ch' & Hruns).
  assert (Hclose : exists l1, loopRuns' (runner.mkLoop states' [] ch' false false) l1
                              /\ runner.closed l1 = true).
  { destruct ch'.
    - eexists. split.
      + eapply runner.loop_step; [|apply runner.loop_close].
        eapply runner.loop_step; [apply runner.loop_refl | apply runner.loop_receive].
      + reflexivity.
    - eexists. split.
      + eapply runner.loop_step; [apply runner.loop_refl | apply runner.loop_close].
      + reflexivity. }
  destruct Hclose as (l1 & Hruns1 & Hclosed).
  eexists _, _. exists l1, l1, l1.
  split; [eapply loopRuns_trans; [exact Hruns | exact Hruns1]|].
  split; [exact Hclosed|]. split; [apply runner.loop_refl|].
  split; [reflexivity|]. split; [apply runner.loop_refl | reflexivity].
Qed.

(** Without the render goroutine the loop is [ApplyEvent] on each event
    in turn. *)
Lemma loop_incremental events : forall states states',
  runner.fullScreenMode cfg = false ->
  applyAll states events = Some states' ->
  loopRuns' (runner.mkLoop states events false false false)
            (runner.mkLoop states' [] false false true).
Proof.
  induction events as [|ev rest IH]; intros states states' Hfs Hall; cbn [applyAll] in Hall.
  - injection Hall as <-.
    eapply runner.loop_step; [apply runner.loop_refl|].
    pose proof (runner.loop_close errors_As strings_TrimSpace cfg states false) as H.
    rewrite Hfs in H. exact H.
  - destruct (ApplyEvent states ev) as [states1|] eqn:Happ; [|discriminate].
    eapply loopRuns_trans; [|apply (IH states1 states' Hfs Hall)].
    eapply runner.loop_step; [apply runner.loop_refl|].
    pose proof (runner.loop_event errors_As strings_TrimSpace cfg
                  states states1 ev rest false false Happ) as H.
    rewrite Hfs in H. exact H.
Qed.

Lemma mainLoop_incremental events states :
  runner.fullScreenMode cfg = false ->
  applyAll (runner.initialStates cfg) events = Some states ->
  runner.mainLoop errors_As strings_TrimSpace cfg events
    (if runner.ShowSummary cfg then Some (WriteFinalSummary errors_As states) else None)
    (ExitCodeFromStates states).
Proof.
  intros Hfs Hall.
  exists (runner.mkLoop states [] false false true),
         (runner.mkLoop states [] false false true),
         (runner.mkLoop states [] false false true).
  split; [|split; [reflexivity|]; split; [apply runner.loop_refl|];
           split; [reflexivity|]; split; [apply runner.loop_refl | reflexivity]].
  unfold runner.initLoop. rewrite Hfs. apply loop_incremental; assumption.
Qed.

End RunnerFacts.

Section RunResults.

Variable errors_As : error -> option ExitError.
Variable strings_TrimSpace : string -> string.

(** X16.  Rendering and results.  However the render goroutine is
    scheduled against the main loop, the exit code and the summary of
    [Run] are those of the states obtained by applying the events one
    after the other: rendering changes [Dirty] flags only. *)
Theorem Run_results (isTTY : bool) (cfg : runner.Config) (events : list Event)
    (summary : option string) (code : Z) :
  runner.Run errors_As strings_TrimSpace isTTY cfg events summary code ->
  exists states,
    applyAll (runner.initialStates (runner.effective isTTY cfg)) events = Some states
    /\ code = ExitCodeFromStates states
    /\ summary = (if runner.ShowSummary cfg
                  then Some (WriteFinalSummary errors_As states) else None).
Proof.
  unfold runner.Run. intros Hrun.
  destruct (mainLoop_applies_events _ _ _ _ _ _ Hrun) as (states & Hstates & Hcode & Hsum).
  exists states. split; [exact Hstates|]. split; [exact Hcode|]. exact Hsum.
Qed.

(** X17.  [Run] returns.  On every sequence of events the main loop
    takes them all, its last render request is accepted, and [Run]
    returns 0 or 1. *)
Theorem Run_returns (isTTY : bool) (cfg : runner.Config) (events : list Event) :
  exists summary code,
    runner.Run errors_As strings_TrimSpace isTTY cfg events summary code
    /\ (code = 0 \/ code = 1).
Proof.
  destruct (mainLoop_exists errors_As strings_TrimSpace (runner.effective isTTY cfg) events)
    as (summary & code & Hrun).
  exists summary, code. split; [exact Hrun|].
  destruct (mainLoop_applies_events _ _ _ _ _ _ Hrun) as (states & _ & -> & _).
  apply ExitCodeFromStates_range.
Qed.

End RunResults.

Lemma Run_results_witness :
  exists states,
    applyAll (runner.initialStates (runner.effective false (runConfig [echoSpec] defaultFlags)))
             [lineEvent "x" 0; doneEvent None 0] = Some states
    /\ 0 = ExitCodeFromStates states
    /\ Some (WriteFinalSummary (fun _ => None)
               [mkProcessState None "A" ["x"] 1 1000 0 true false true])
       = (if runner.ShowSummary (runConfig [echoSpec] defaultFlags)
          then Some (WriteFinalSummary (fun _ => None) states) else None).
Proof.
  apply (Run_results (fun _ => None) (fun s => s) false
           (runConfig [echoSpec] defaultFlags)
           [lineEvent "x" 0; doneEvent None 0]).
  apply (mainLoop_incremental (fun _ => None) (fun s => s)
           (runner.effective false (runConfig [echoSpec] defaultFlags))
           [lineEvent "x" 0; doneEvent None 0]
           [mkProcessState None "A" ["x"] 1 1000 0 true false true]).
  - reflexivity.
  - reflexivity.
Defined.

(** *** The exit code of a run *)

Lemma eventIndex_Convert pl : eventIndex (ConvertProcessLineToEvent pl) = plIndex pl.
Proof. unfold ConvertProcessLineToEvent. destruct (plIsComplete pl); reflexivity. Qed.

Lemma ownEvents_Convert (n : nat) out :
  ownEvents n (map ConvertProcessLineToEvent out)
  = map ConvertProcessLineToEvent (eventsOf (Z.of_nat n) out).
Proof.
  unfold ownEvents, eventsOf. induction out as [|pl out IH]; [reflexivity|].
  cbn [map]. rewrite !filter_cons, eventIndex_Convert.
  destruct (decide (plIndex pl = Z.of_nat n)); cbn [map]; rewrite IH; reflexivity.
Qed.

(** The completion event sets the result of a process. *)
Lemma replay_complete idx lines err ps :
  Err (fold_left applyOne
         (map ConvertProcessLineToEvent (lines ++ [completeOf idx err])) ps) = err
  /\ Done (fold_left applyOne
             (map ConvertProcessLineToEvent (lines ++ [completeOf idx err])) ps) = true
  /\ Running (fold_left applyOne
                (map ConvertProcessLineToEvent (lines ++ [completeOf idx err])) ps) = false.
Proof.
  rewrite map_app, fold_left_app. cbn. auto.
Qed.

Section RunExit.

Variable osCommand : ProcessSpec -> Command.
Variable ctxCause : option error.
Variable Duration_String : Z -> string.
Variable errors_As : error -> option ExitError.
Variable strings_TrimSpace : string -> string.

(** X18.  The exit code of a run.  When the engine built by [Run] has
    brought every task to its return, each state holds the error of its
    process's completion event (that of the setup, or what [cmd.Wait()]
    answered) and is done and not running; and [Run] returns 0 exactly
    when no process ended with an error, else 1. *)
Theorem Run_exit_code (isTTY : bool) (cfg : runner.Config) (st : EngineState)
    (summary : option string) (code : Z) :
  engineReachable osCommand ctxCause Duration_String
    (runner.engineOf (runner.effective isTTY cfg)) st ->
  Forall (fun c => cfgMain c = Returned) (tasks st) ->
  runner.Run errors_As strings_TrimSpace isTTY cfg
    (map ConvertProcessLineToEvent (output st)) summary code ->
  exists states,
    applyAll (runner.initialStates (runner.effective isTTY cfg))
             (map ConvertProcessLineToEvent (output st))
    = Some states
    /\ (forall (n : nat) (spec : ProcessSpec),
          runner.Specs cfg !! n = Some spec ->
          exists ps, states !! n = Some ps
                     /\ Name ps = specName spec
                     /\ Err ps = terminalError osCommand
                                   (runner.engineOf (runner.effective isTTY cfg)) spec
                     /\ Done ps = true /\ Running ps = false)
    /\ code = ExitCodeFromStates states
    /\ (code = 0 <->
        Forall (fun spec =>
                  terminalError osCommand
                    (runner.engineOf (runner.effective isTTY cfg)) spec = None)
               (runner.Specs cfg))
    /\ (code = 0 \/ code = 1).
Proof.
  unfold runner.Run.
  destruct (effective_props isTTY cfg) as (_ & _ & _ & _ & Hspecs & _).
  rewrite <- Hspecs. generalize (runner.effective isTTY cfg). clear cfg Hspecs.
  intros cfg.
  intros Hreach Hall Hrun.
  destruct (mainLoop_applies_events _ _ _ _ _ _ Hrun) as (states & Hstates & -> & _).
  exists states. split; [exact Hstates|].
  destruct (engineReachable_tasks _ _ _ _ st Hreach) as [Hlen Htasks].
  change (Specs (runner.engineOf cfg)) with (runner.Specs cfg) in Hlen, Htasks.
  rewrite applyAll_replay in Hstates. injection Hstates as <-.
  assert (Heach : forall (n : nat) (spec : ProcessSpec),
             runner.Specs cfg !! n = Some spec ->
             exists ps,
               imap (fun n ps => fold_left applyOne
                                   (ownEvents n (map ConvertProcessLineToEvent (output st))) ps)
                    (runner.initialStates cfg) !! n = Some ps
               /\ Name ps = specName spec
               /\ Err ps = terminalError osCommand (runner.engineOf cfg) spec
               /\ Done ps = true /\ Running ps = false).
  { intros n spec Hspec.
    destruct (lookup_lt_is_Some_2 (tasks st) n) as [c Hc].
    { rewrite Hlen. eapply lookup_lt_Some, Hspec. }
    assert (Hret : cfgMain c = Returned).
    { rewrite list.Forall_forall in Hall. apply Hall.
      eapply list_elem_of_lookup_2, Hc. }
    destruct (returned_terminal _ _ _ _ _ _ _ _ (Htasks n spec c Hspec Hc) Hret)
      as (lines & Htr & Hlines).
    unfold runner.initialStates.
    rewrite list_lookup_imap, list_lookup_fmap, Hspec.
    cbn [fmap option_fmap option_map]. eexists. split; [reflexivity|].
    rewrite ownEvents_Convert, Htr.
    destruct (replay_complete (Z.of_nat n) lines
                (terminalError osCommand (runner.engineOf cfg) spec)
                (runner.initialState cfg spec)) as (HE & HD & HR).
    split; [|auto].
    destruct (initialState_bounded cfg spec) as [Hacc Hcaps].
    destruct (replay_bounded
                (map ConvertProcessLineToEvent
                   (lines ++ [completeOf (Z.of_nat n)
                                (terminalError osCommand (runner.engineOf cfg) spec)]))
                _ Hacc Hcaps) as (_ & _ & HN & _).
    rewrite HN. reflexivity. }
  split; [exact Heach|]. split; [reflexivity|].
  split; [|apply ExitCodeFromStates_range].
  rewrite ExitCodeFromStates_zero, !list.Forall_forall. split.
  - intros H spec Hin. apply list_elem_of_lookup in Hin as [n Hn].
    destruct (Heach n spec Hn) as (ps & Hps & _ & HE & _).
    rewrite <- HE. apply H. eapply list_elem_of_lookup_2, Hps.
  - intros H ps Hin. apply list_elem_of_lookup in Hin as [n Hn].
    destruct (lookup_lt_is_Some_2 (runner.Specs cfg) n) as [spec Hspec].
    { apply lookup_lt_Some in Hn.
      rewrite length_imap in Hn. unfold runner.initialStates in Hn.
      rewrite length_map in Hn. exact Hn. }
    destruct (Heach n spec Hspec) as (ps' & Hps' & _ & HE & _).
    rewrite Hn in Hps'. injection Hps' as <-.
    rewrite HE. apply H. eapply list_elem_of_lookup_2, Hspec.
Qed.

End RunExit.

Lemma Run_exit_code_witness :
  exists states,
    applyAll (runner.initialStates (runner.effective false (runConfig [echoSpec] defaultFlags)))
             (map ConvertProcessLineToEvent (output echoFinal))
    = Some states
    /\ (forall (n : nat) (spec : ProcessSpec),
          runner.Specs (runConfig [echoSpec] defaultFlags) !! n = Some spec ->
          exists ps, states !! n = Some ps
                     /\ Name ps = specName spec
                     /\ Err ps = terminalError (fun _ => echoCommand)
                                   (runner.engineOf
                                      (runner.effective false (runConfig [echoSpec] defaultFlags)))
                                   spec
                     /\ Done ps = true /\ Running ps = false)
    /\ 0 = ExitCodeFromStates states
    /\ (0 = 0 <->
        Forall (fun spec =>
                  terminalError (fun _ => echoCommand)
                    (runner.engineOf
                       (runner.effective false (runConfig [echoSpec] defaultFlags))) spec
                  = None)
               (runner.Specs (runConfig [echoSpec] defaultFlags)))
    /\ (0 = 0 \/ 0 = 1).
Proof.
  apply (Run_exit_code (fun _ => echoCommand) None (fun _ => "5s") (fun _ => None) (fun s => s)
           false (runConfig [echoSpec] defaultFlags) echoFinal
           (Some (WriteFinalSummary (fun _ => None)
                    [mkProcessState None "A" ["x"] 1 1000 0 true false true]))
           0).
  - apply (follow_runs _ _ _ _ (replicate 11 0%nat)). vm_compute. reflexivity.
  - repeat constructor.
  - apply (mainLoop_incremental (fun _ => None) (fun s => s)
             (runner.effective false (runConfig [echoSpec] defaultFlags))
             (map ConvertProcessLineToEvent (output echoFinal))
             [mkProcessState None "A" ["x"] 1 1000 0 true false true]).
    + reflexivity.
    + reflexivity.
Defined.

(** ** The flags *)

Lemma wrap_seconds (sec : Z) :
  -9223372036 <= sec <= 9223372036 ->
  GoInt.wrap (sec * time_Second) = sec * time_Second.
Proof.
  intros H. apply wrap_in_range.
  unfold GoInt.in_range, GoInt.min_int, GoInt.max_int, GoInt.half, time_Second. lia.
Qed.

(** X20.  The shutdown timeout, from the flag to the engine.  For a
    flag value whose duration fits an [int64], the timeout
    [handleGracefulShutdown] waits is that many seconds if the value is
    positive and 5 seconds otherwise. *)
Theorem run_shutdown_timeout (specs : list ProcessSpec) (flags : Flags) (isTTY : bool) :
  -9223372036 <= flagShutdownTimeout flags <= 9223372036 ->
  shutdownTimeout
    (runner.engineOf (runner.effective isTTY (runConfig specs flags)))
  = if flagShutdownTimeout flags <=? 0 then 5 * time_Second
    else flagShutdownTimeout flags * time_Second.
Proof.
  intros Hsec. unfold shutdownTimeout, runner.engineOf, New, runner.effective, runConfig.
  cbn [ShutdownTimeout runner.ShutdownTimeout runner.DefaultConfig].
  rewrite (wrap_seconds _ Hsec).
  unfold runner.defaultShutdownTimeout, defaultShutdownTimeout, time_Second.
  destruct (Z.leb_spec (flagShutdownTimeout flags) 0) as [H|H].
  - replace (flagShutdownTimeout flags * 1000000000 <=? 0) with true
      by (symmetry; apply Z.leb_le; lia).
    reflexivity.
  - replace (flagShutdownTimeout flags * 1000000000 <=? 0) with false
      by (symmetry; apply Z.leb_gt; lia).
    replace (flagShutdownTimeout flags * 1000000000 <=? 0) with false
      by (symmetry; apply Z.leb_gt; lia).
    reflexivity.
Qed.

Lemma run_shutdown_timeout_witness :
  shutdownTimeout
    (runner.engineOf (runner.effective true (runConfig runSpecs defaultFlags)))
  = if flagShutdownTimeout defaultFlags <=? 0 then 5 * time_Second
    else flagShutdownTimeout defaultFlags * time_Second.
Proof.
  apply (run_shutdown_timeout runSpecs defaultFlags true).
  simpl. lia.
Defined.

(** A timeout of more than 9223372036 seconds does not fit a
    [time.Duration]: the product wraps around, here to a negative value,
    and the default of 5 seconds is used. *)
Example shutdown_timeout_overflow :
  shutdownTimeout
    (runner.engineOf
       (runner.effective true
          (runConfig runSpecs
             (mkFlags true true false "[%s]" 1000 9223372037))))
  = 5 * time_Second.
Proof. vm_compute. reflexivity. Qed.

(** ** No processes *)

Section NoSpecs.

Variable osCommand : ProcessSpec -> Command.
Variable ctxCause : option error.
Variable Duration_String : Z -> string.
Variable errors_As : error -> option ExitError.
Variable strings_TrimSpace : string -> string.

Lemma engine_no_specs eng st :
  Specs eng = [] ->
  engineReachable osCommand ctxCause Duration_String eng st ->
  st = engineInit eng.
Proof.
  intros Hnone Hreach. unfold engineReachable in Hreach.
  induction Hreach as [|st1 st2 _ IH Hstep]; [reflexivity|].
  unfold engineSuccessors in Hstep. rewrite Hnone in Hstep.
  apply elem_of_nil in Hstep. contradiction.
Qed.

(** X19.  A run without processes.  With no specs the engine sends
    nothing, and [Run] returns 0 with a summary that has no entries. *)
Theorem Run_no_specs (isTTY : bool) (cfg : runner.Config) (st : EngineState)
    (summary : option string) (code : Z) :
  runner.Specs cfg = [] ->
  engineReachable osCommand ctxCause Duration_String
    (runner.engineOf (runner.effective isTTY cfg)) st ->
  runner.Run errors_As strings_TrimSpace isTTY cfg
    (map ConvertProcessLineToEvent (output st)) summary code ->
  output st = []
  /\ code = 0
  /\ summary = (if runner.ShowSummary cfg
                then Some (newline +:+ "Summary:" +:+ newline) else None).
Proof.
  unfold runner.Run. intros Hnone Hreach Hrun.
  destruct (effective_props isTTY cfg) as (_ & _ & _ & _ & Hspecs & _).
  rewrite <- Hspecs in Hnone.
  rewrite (engine_no_specs (runner.engineOf (runner.effective isTTY cfg)) st Hnone Hreach) in *.
  cbn [output engineInit map] in *. split; [reflexivity|].
  destruct (mainLoop_applies_events _ _ _ _ _ _ Hrun) as (states & Hstates & -> & ->).
  cbn [applyAll] in Hstates. injection Hstates as <-.
  unfold runner.initialStates. rewrite Hnone. split; [reflexivity|].
  change (runner.ShowSummary (runner.effective isTTY cfg)) with (runner.ShowSummary cfg).
  destruct (runner.ShowSummary cfg); reflexivity.
Qed.

End NoSpecs.

Lemma Run_no_specs_witness :
  output (engineInit (runner.engineOf (runner.effective false runner.DefaultConfig))) = []
  /\ 0 = 0
  /\ Some (newline +:+ "Summary:" +:+ newline)
     = (if runner.ShowSummary runner.DefaultConfig
        then Some (newline +:+ "Summary:" +:+ newline) else None).
Proof.
  apply (Run_no_specs (fun _ => echoCommand) None (fun _ => "5s") (fun _ => None) (fun s => s)
           false runner.DefaultConfig
           (engineInit (runner.engineOf (runner.effective false runner.DefaultConfig)))
           (Some (newline +:+ "Summary:" +:+ newline)) 0).
  - reflexivity.
  - apply engine_refl.
  - apply (mainLoop_incremental (fun _ => None) (fun s => s)
             (runner.effective false runner.DefaultConfig) [] []).
    + reflexivity.
    + reflexivity.
Defined.

(** ** Lines written and framed again *)

Lemma written_cons (s : string) (rest : list string) :
  written (s :: rest) = s +:+ written rest.
Proof. reflexivity. Qed.

Lemma framedLines_entries (entries : list (string * bool)) (err : error) :
  Forall (fun entry => plainText (fst entry) = true
                       /\ len_string (fst entry) + 2 <= scannerMaxBufferSize) entries ->
  framedLines (mkStream (writtenLines entries) err)
  = map fst entries ++ framedLines (mkStream EmptyString err).
Proof.
  induction 1 as [|[text withCR] entries [Hplain Hfit] _ IH]; [reflexivity|].
  unfold writtenLines in *. cbn [map fst snd] in *. rewrite written_cons, app_assoc_string.
  destruct withCR; cbn [eol].
  - rewrite terminatesLine_CRLF;
      [cbn [app]; f_equal; exact IH
      | apply plainText_noNewline, Hplain | apply plainText_no_EOL, Hplain |].
    unfold crlf, len_string in *. cbn [String.length]. lia.
  - rewrite terminatesLine_LF;
      [cbn [app]; f_equal; exact IH
      | apply plainText_noNewline, Hplain | apply plainText_no_EOL, Hplain |].
    unfold newline, len_string in *. cbn [String.length]. lia.
Qed.

(** X21.  Round trip.  Lines without carriage return or newline,
    written each with ["\n"] or ["\r\n"] after it, are framed back into
    the same lines, provided each fits the scanner's buffer. *)
Theorem framedLines_written (entries : list (string * bool)) :
  Forall (fun entry => plainText (fst entry) = true
                       /\ len_string (fst entry) + 2 <= scannerMaxBufferSize) entries ->
  framedLines (mkStream (writtenLines entries) io_EOF) = map fst entries.
Proof.
  intros H. rewrite (framedLines_entries entries io_EOF H).
  change (framedLines (mkStream EmptyString io_EOF)) with (@nil string).
  apply app_nil_r.
Qed.

Lemma framedLines_written_witness :
  framedLines (mkStream (writtenLines [("build ok", false); ("", true); ("done", true)]) io_EOF)
  = map fst [("build ok", false); ("", true); ("done", true)].
Proof.
  apply (framedLines_written [("build ok", false); ("", true); ("done", true)]).
  repeat (constructor; [split; [reflexivity | vm_compute; discriminate]|]).
  constructor.
Defined.

(** ** [mockReadCloser] *)

Lemma slice_all (s : string) : slice s 0 (len_string s) = s.
Proof.
  unfold slice, len_string. rewrite Z.sub_0_r, Nat2Z.id. apply substring_all.
Qed.

Lemma indexSlice_middle {A} (pre : list A) (x : A) (suf : list A) :
  indexSlice (pre ++ x :: suf) (len_slice pre) = Some x.
Proof.
  unfold len_slice. apply indexSlice_lookup. apply list_lookup_middle. reflexivity.
Qed.

Lemma len_slice_app {A} (l1 l2 : list A) : len_slice (l1 ++ l2) = len_slice l1 + len_slice l2.
Proof. unfold len_slice. rewrite List.length_app. lia. Qed.

Lemma len_newline (l : string) : len_string (l +:+ newline) = len_string l + 1.
Proof. unfold len_string, newline. rewrite length_app. cbn [String.length]. lia. Qed.

(** A call that finds the next line and room for it in [p]. *)
Lemma Read_line (pre : list string) (l : string) (suf : list string) (lenP : Z) :
  len_string l < lenP ->
  GoInt.in_range (len_slice (pre ++ l :: suf)) ->
  mockReadCloser_Read (mkMockReadCloser (pre ++ l :: suf) EmptyString (len_slice pre)) lenP
  = Some (l +:+ newline, None,
          mkMockReadCloser (pre ++ l :: suf) EmptyString (len_slice (pre ++ [l]))).
Proof.
  intros Hfit Hrange. unfold mockReadCloser_Read. cbn [mockLines mockBuf mockPos].
  rewrite indexSlice_middle.
  assert (Hlen : len_slice (pre ++ l :: suf) = len_slice pre + 1 + len_slice suf).
  { rewrite len_slice_app. unfold len_slice. cbn [length]. lia. }
  assert (Hpre : 0 <= len_slice pre /\ 0 <= len_slice suf) by (unfold len_slice; lia).
  rewrite Z.geb_leb, Z.gtb_ltb.
  replace (len_slice (pre ++ l :: suf) <=? len_slice pre) with false
    by (symmetry; apply Z.leb_gt; lia).
  change (len_string EmptyString) with 0. cbn [Z.ltb Z.compare].
  rewrite len_newline.
  replace (Z.min lenP (len_string l + 1)) with (len_string l + 1) by lia.
  rewrite Z.ltb_irrefl. rewrite <- len_newline, slice_all.
  unfold GoInt.add. rewrite wrap_in_range.
  - rewrite len_slice_app. reflexivity.
  - unfold GoInt.in_range, GoInt.min_int, GoInt.max_int, GoInt.half in *. lia.
Qed.

(** A call after the last line has been taken. *)
Lemma Read_EOF (lines : list string) (buf : string) (pos lenP : Z) :
  len_slice lines <= pos ->
  mockReadCloser_Read (mkMockReadCloser lines buf pos) lenP
  = Some (EmptyString, Some io_EOF, mkMockReadCloser lines buf pos).
Proof.
  intros H. unfold mockReadCloser_Read. cbn [mockLines mockBuf mockPos].
  rewrite Z.geb_leb. replace (len_slice lines <=? pos) with true by (symmetry; apply Z.leb_le, H).
  reflexivity.
Qed.

Lemma replicate_shift {A} (n : nat) (x : A) (l : list A) :
  replicate (S n) x ++ l = replicate n x ++ x :: l.
Proof.
  induction n as [|n IH]; [reflexivity|].
  cbn [replicate app] in *. f_equal. exact IH.
Qed.

(** The lines that fit [p] are read one per call. *)
Lemma readAll_lines (lenP : Z) (todo : list string) :
  forall (done post : list string) (sizes : list Z),
  Forall (fun l => len_string l < lenP) todo ->
  GoInt.in_range (len_slice (done ++ todo ++ post)) ->
  readAll (replicate (length todo) lenP ++ sizes)
          (mkMockReadCloser (done ++ todo ++ post) EmptyString (len_slice done))
  = match readAll sizes
            (mkMockReadCloser (done ++ todo ++ post) EmptyString
               (len_slice (done ++ todo))) with
    | Some (more, err) => Some (written (map (fun l => l +:+ newline) todo) +:+ more, err)
    | None => None
    end.
Proof.
  induction todo as [|l todo IH]; intros done post sizes Hfit Hrange.
  - cbn [length replicate app map written fold_right]. rewrite app_nil_r.
    destruct (readAll sizes _) as [[more err]|]; reflexivity.
  - apply Forall_cons in Hfit as [Hl Hfit].
    cbn [length replicate app readAll] in *.
    rewrite (Read_line done l (todo ++ post) lenP Hl Hrange).
    replace (done ++ l :: todo ++ post) with ((done ++ [l]) ++ todo ++ post) in *
      by (rewrite <- app_assoc; reflexivity).
    rewrite (IH (done ++ [l]) post sizes Hfit Hrange).
    replace ((done ++ [l]) ++ todo) with (done ++ l :: todo)
      by (rewrite <- app_assoc; reflexivity).
    destruct (readAll sizes _) as [[more err]|]; [|reflexivity].
    cbn [map]. rewrite written_cons, !app_assoc_string. reflexivity.
Qed.

Lemma writtenLines_LF (lines : list string) :
  writtenLines (map (fun l => (l, false)) lines)
  = written (map (fun l => l +:+ newline) lines).
Proof. unfold writtenLines. rewrite map_map. reflexivity. Qed.

Lemma append_empty_r (s : string) : s +:+ EmptyString = s.
Proof. induction s as [|c s IH]; [reflexivity|]. rewrite app_cons, IH. reflexivity. Qed.

(** X22.  The mock pipe.  Read with buffers that hold each line and its
    newline, a [mockReadCloser] delivers its lines one per call, each
    followed by a newline, and then [io.EOF]. *)
Theorem mockReadCloser_delivers (lines : list string) (lenP : Z) :
  Forall (fun l => len_string l < lenP) lines ->
  GoInt.in_range (len_slice lines) ->
  readAll (replicate (S (length lines)) lenP) (newMockReadCloser lines)
  = Some (writtenLines (map (fun l => (l, false)) lines), Some io_EOF).
Proof.
  intros Hfit Hrange. unfold newMockReadCloser.
  rewrite <- (app_nil_r (replicate (S (length lines)) lenP)), replicate_shift.
  pose proof (readAll_lines lenP lines [] [] [lenP] Hfit) as H.
  cbn [app] in H. rewrite app_nil_r in H. change (len_slice []) with 0 in H.
  rewrite (H Hrange). cbn [readAll]. rewrite Read_EOF by lia.
  rewrite writtenLines_LF, append_empty_r. reflexivity.
Qed.

Lemma mockReadCloser_delivers_witness :
  readAll (replicate (S (length ["line1"; "line2"])) 4096)
          (newMockReadCloser ["line1"; "line2"])
  = Some (writtenLines (map (fun l => (l, false)) ["line1"; "line2"]), Some io_EOF).
Proof.
  apply (mockReadCloser_delivers ["line1"; "line2"] 4096).
  - repeat constructor.
  - vm_compute. split; discriminate.
Defined.




(** ** A line too long for the scanner *)

(** In a text that starts with bytes other than newline, the first
    newline comes after them. *)
Lemma IndexByte_after_plain (text rest : string) :
  plainText text = true ->
  IndexByte (text +:+ rest) LF = -1 \/ len_string text <= IndexByte (text +:+ rest) LF.
Proof.
  induction text as [|a text IH]; intros Hplain.
  - rewrite app_empty_l. unfold len_string. cbn [String.length].
    destruct (IndexByte_range rest LF); lia.
  - apply plainText_cons in Hplain as (_ & Ha & Ht).
    rewrite app_cons. cbn [IndexByte]. rewrite Ha.
    unfold len_string in *. cbn [String.length].
    destruct (IH Ht) as [H|H].
    + left. rewrite H. reflexivity.
    + right. replace (IndexByte (text +:+ rest) LF <? 0) with false
        by (symmetry; apply Z.ltb_ge; lia).
      lia.
Qed.

Lemma scanAll_too_long (maxTokenSize : Z) (long rest : string) :
  plainText long = true ->
  0 < maxTokenSize <= len_string long ->
  scanAll maxTokenSize (long +:+ rest) = ([], Some bufio_ErrTooLong).
Proof.
  intros Hplain Hlong.
  assert (Hlen : len_string long <= len_string (long +:+ rest)).
  { unfold len_string. rewrite length_app. lia. }
  unfold scanAll. cbn [scanLoop]. unfold ScanLines, tokenFits.
  replace (len_string (long +:+ rest) =? 0) with false by (symmetry; apply Z.eqb_neq; lia).
  cbn [andb]. rewrite !Z.geb_leb.
  destruct (IndexByte_after_plain long rest Hplain) as [H|H].
  - rewrite H. cbn [Z.leb Z.compare].
    replace (len_string (long +:+ rest) <? maxTokenSize) with false
      by (symmetry; apply Z.ltb_ge; lia).
    reflexivity.
  - replace (0 <=? IndexByte (long +:+ rest) LF) with true by (symmetry; apply Z.leb_le; lia).
    replace (IndexByte (long +:+ rest) LF + 1 <=? maxTokenSize) with false
      by (symmetry; apply Z.leb_gt; lia).
    reflexivity.
Qed.

Lemma framedLines_stop (long rest : string) (err : error) :
  plainText long = true ->
  scannerMaxBufferSize <= len_string long ->
  framedLines (mkStream (long +:+ rest) err)
  = ["[stream error: " +:+ Error bufio_ErrTooLong +:+ "]"].
Proof.
  intros Hplain Hlong.
  unfold framedLines, streamReader, Scanner_Buffer, bufio_NewScanner.
  rewrite streamReader_ceiling. cbn [scan_tokens scan_err stream_data stream_err].
  rewrite scanAll_too_long; [reflexivity | exact Hplain |].
  split; [reflexivity | exact Hlong].
Qed.

(** X24.  A line too long.  When, after lines that are framed as
    written, a line without newline in its first 1 MiB follows, the framer
    sends the lines before it and then the single line
    ["[stream error: bufio.Scanner: token too long]"]: the long line and
    everything after it in the stream is never sent, whatever the read
    error of the stream. *)
Theorem framedLines_too_long (entries : list (string * bool)) (long rest : string)
    (err : error) :
  Forall (fun entry => plainText (fst entry) = true
                       /\ len_string (fst entry) + 2 <= scannerMaxBufferSize) entries ->
  plainText long = true ->
  scannerMaxBufferSize <= len_string long ->
  framedLines (mkStream (writtenLines entries +:+ long +:+ rest) err)
  = map fst entries ++ ["[stream error: bufio.Scanner: token too long]"].
Proof.
  intros Hentries Hplain Hlong.
  induction Hentries as [|[text withCR] entries [Htext Hfit] _ IH].
  - unfold writtenLines. cbn [map written fold_right app]. rewrite app_empty_l.
    apply framedLines_stop; assumption.
  - unfold writtenLines in *. cbn [map fst snd] in *.
    rewrite written_cons, !app_assoc_string.
    destruct withCR; cbn [eol].
    + rewrite terminatesLine_CRLF;
        [cbn [app]; f_equal; exact IH
        | apply plainText_noNewline, Htext | apply plainText_no_EOL, Htext |].
      unfold crlf, len_string in *. cbn [String.length]. lia.
    + rewrite terminatesLine_LF;
        [cbn [app]; f_equal; exact IH
        | apply plainText_noNewline, Htext | apply plainText_no_EOL, Htext |].
      unfold newline, len_string in *. cbn [String.length]. lia.
Qed.

Lemma framedLines_too_long_witness :
  framedLines (mkStream (writtenLines [("ok", false)] +:+ doubled 20 "a" +:+ "tail")
                 io_EOF)
  = map fst [("ok", false)] ++ ["[stream error: bufio.Scanner: token too long]"].
Proof.
  apply (framedLines_too_long [("ok", false)] (doubled 20 "a") "tail" io_EOF).
  - repeat (constructor; [split; [reflexivity | vm_compute; discriminate]|]).
    constructor.
  - vm_compute. reflexivity.
  - vm_compute. discriminate.
Defined.

(** ** The most recent lines *)

(** With a line cap only, the loop leaves the last [maxLines] lines. *)
Lemma evictLoop_line_cap_only (maxLines maxBytes : Z) (lines : list string) :
  forall byteSize,
  0 < maxLines -> maxBytes <= 0 ->
  fst (evictLoop maxLines maxBytes lines byteSize)
  = drop (length lines - Z.to_nat maxLines) lines.
Proof.
  induction lines as [|l lines IH]; intros byteSize HL HB; rewrite evictLoop_unfold.
  - destruct (negb _ && negb _); reflexivity.
  - rewrite !Z.gtb_ltb.
    replace (0 <? maxLines) with true by (symmetry; apply Z.ltb_lt; lia).
    replace (0 <? maxBytes) with false by (symmetry; apply Z.ltb_ge; lia).
    cbn [andb negb]. rewrite andb_true_r. unfold len_slice. cbn [length].
    destruct (Z.ltb_spec maxLines (Z.of_nat (S (length lines)))) as [Hover|Hfits];
      cbn [negb].
    + rewrite IH by assumption.
      replace (S (length lines) - Z.to_nat maxLines)%nat
        with (S (length lines - Z.to_nat maxLines)) by lia.
      reflexivity.
    + replace (S (length lines) - Z.to_nat maxLines)%nat with 0%nat by lia.
      reflexivity.
Qed.

Lemma applyLine_recent ps line :
  0 < MaxLines ps -> MaxBytes ps <= 0 ->
  Lines (applyLine ps line)
  = drop (length (Lines ps ++ [line]) - Z.to_nat (MaxLines ps)) (Lines ps ++ [line]).
Proof.
  intros HL HB. unfold applyLine.
  pose proof (evictLoop_line_cap_only (MaxLines ps) (MaxBytes ps) (Lines ps ++ [line])
                (GoInt.add (ByteSize ps) (len_string line)) HL HB) as H.
  destruct (evictLoop _ _ _ _) as [lines2 size2]. exact H.
Qed.

Lemma drop_recent {A} (cap : nat) (history : list A) (x : A) :
  drop (length (drop (length history - cap) history ++ [x]) - cap)
       (drop (length history - cap) history ++ [x])
  = drop (length (history ++ [x]) - cap) (history ++ [x]).
Proof.
  rewrite !List.length_app, length_drop. cbn [length].
  destruct (decide (length history <= cap)%nat) as [Hle|Hgt].
  - replace (length history - cap)%nat with 0%nat by lia. rewrite drop_0.
    f_equal. lia.
  - rewrite <- drop_app_le by lia. rewrite drop_drop. f_equal. lia.
Qed.

Lemma replay_recent (n : nat) (evs : list Event) : forall ps history,
  0 < MaxLines ps -> MaxBytes ps <= 0 ->
  Forall (fun ev => eventIndex ev = Z.of_nat n) evs ->
  Lines ps = drop (length history - Z.to_nat (MaxLines ps)) history ->
  Lines (fold_left applyOne evs ps)
  = drop (length (history ++ linesFor (Z.of_nat n) evs) - Z.to_nat (MaxLines ps))
         (history ++ linesFor (Z.of_nat n) evs).
Proof.
  induction evs as [|ev evs IH]; intros ps history HL HB Hall Hlines.
  - cbn [fold_left linesFor]. rewrite app_nil_r. exact Hlines.
  - inversion Hall as [|? ? Hev Hrest]; subst. cbn [fold_left].
    destruct ev as [line i|err i]; cbn [eventIndex] in Hev; subst i;
      cbn [applyOne linesFor].
    + rewrite Z.eqb_refl.
      destruct (applyLine_keeps_config ps line) as (_ & HL' & HB' & _).
      replace (history ++ line :: linesFor (Z.of_nat n) evs)
        with ((history ++ [line]) ++ linesFor (Z.of_nat n) evs)
        by (rewrite <- app_assoc; reflexivity).
      rewrite <- HL'. apply IH; try assumption; try (rewrite ?HL', ?HB'; assumption).
      rewrite HL', (applyLine_recent ps line HL HB), Hlines. apply drop_recent.
    + apply (IH (applyDone ps err) history); assumption.
Qed.

(** X25.  The most recent lines.  For a process with a line cap and no
    byte cap whose buffer is within the cap, after any sequence of events
    the buffer holds exactly the last [MaxLines] lines of its history --
    its lines before followed by the lines of its own line events -- or
    the whole history while it is shorter. *)
Theorem applyAll_recent_lines
    (states : list ProcessState) (evs : list Event) (n : nat) (ps : ProcessState) :
  states !! n = Some ps ->
  0 < MaxLines ps -> MaxBytes ps <= 0 ->
  len_slice (Lines ps) <= MaxLines ps ->
  exists (states' : list ProcessState) (ps' : ProcessState),
    applyAll states evs = Some states'
    /\ states' !! n = Some ps'
    /\ Lines ps'
       = drop (length (Lines ps ++ linesFor (Z.of_nat n) evs) - Z.to_nat (MaxLines ps))
              (Lines ps ++ linesFor (Z.of_nat n) evs).
Proof.
  intros Hps HL HB Hcap. rewrite applyAll_replay.
  eexists _, _. split; [reflexivity|].
  rewrite list_lookup_imap, Hps. cbn [fmap option_fmap option_map].
  split; [reflexivity|].
  rewrite <- (linesFor_own n evs).
  apply replay_recent; try assumption.
  - unfold ownEvents. apply list.Forall_forall. intros ev Hin.
    apply list_elem_of_filter in Hin. tauto.
  - unfold len_slice in Hcap.
    replace (length (Lines ps) - Z.to_nat (MaxLines ps))%nat with 0%nat by lia.
    reflexivity.
Qed.

Lemma applyAll_recent_lines_witness :
  exists (states' : list ProcessState) (ps' : ProcessState),
    applyAll [newProcessState "a" 2 0; newProcessState "b" 0 4]
             [lineEvent "l1" 0; lineEvent "hello" 1; lineEvent "l2" 0; lineEvent "l3" 0]
    = Some states'
    /\ states' !! 0%nat = Some ps'
    /\ Lines ps'
       = drop (length (Lines (newProcessState "a" 2 0)
                       ++ linesFor (Z.of_nat 0)
                            [lineEvent "l1" 0; lineEvent "hello" 1;
                             lineEvent "l2" 0; lineEvent "l3" 0])
               - Z.to_nat (MaxLines (newProcessState "a" 2 0)))
              (Lines (newProcessState "a" 2 0)
               ++ linesFor (Z.of_nat 0)
                    [lineEvent "l1" 0; lineEvent "hello" 1;
                     lineEvent "l2" 0; lineEvent "l3" 0]).
Proof.
  apply (applyAll_recent_lines [newProcessState "a" 2 0; newProcessState "b" 0 4]
           [lineEvent "l1" 0; lineEvent "hello" 1; lineEvent "l2" 0; lineEvent "l3" 0]
           0 (newProcessState "a" 2 0)).
  - reflexivity.
  - vm_compute. reflexivity.
  - vm_compute. discriminate.
  - vm_compute. discriminate.
Defined.

(** ** After the return of a task *)

Section Quiescence.

Variable osCommand : ProcessSpec -> Command.
Variable ctxCause : option error.
Variable Duration_String : Z -> string.
Variable eng : Engine.

(** X26.  No goroutine is left behind.  Once [runProcess] has
    returned, no goroutine of the task can take a step any more: both
    stream readers and the goroutine waiting for the command have exited,
    or none was started, and [done] holds no value. *)
Theorem task_quiescent_after_return (st : EngineState) (i : nat)
    (spec : ProcessSpec) (c : Config) :
  engineReachable osCommand ctxCause Duration_String eng st ->
  Specs eng !! i = Some spec ->
  tasks st !! i = Some c ->
  cfgMain c = Returned ->
  goroutineSteps osCommand ctxCause Duration_String eng (Z.of_nat i) spec c = []
  /\ done c = None
  /\ ((cfgStdout c = ReaderExited /\ cfgStderr c = ReaderExited
       /\ cfgWaiter c = WaiterExited)
      \/ (cfgStdout c = ReaderNotStarted /\ cfgStderr c = ReaderNotStarted
          /\ cfgWaiter c = WaiterNotStarted)).
Proof.
  intros Hreach Hspec Hc Hret.
  destruct (engineReachable_tasks _ _ _ _ st Hreach) as [_ Htasks].
  pose proof (runs_taskInv _ _ _ _ _ _ _ _ (Htasks i spec c Hspec Hc)) as Htask.
  unfold taskInv in Htask. rewrite Hret in Htask. destruct Htask as [_ Hstate].
  unfold goroutineSteps, mainSteps, stdoutSteps, stderrSteps, waiterSteps.
  rewrite Hret.
  destruct Hstate as [(Hso & Hse & Hw & Hd)|(Hso & Hse & Hw & Hd)];
    rewrite Hso, Hse, Hw; (split; [reflexivity|]); (split; [exact Hd|]); auto.
Qed.

End Quiescence.

Lemma task_quiescent_after_return_witness :
  goroutineSteps (fun _ => echoCommand) None (fun _ => "5s") echoEngine
    (Z.of_nat 0) echoSpec echoReturned = []
  /\ done echoReturned = None
  /\ ((cfgStdout echoReturned = ReaderExited /\ cfgStderr echoReturned = ReaderExited
       /\ cfgWaiter echoReturned = WaiterExited)
      \/ (cfgStdout echoReturned = ReaderNotStarted
          /\ cfgStderr echoReturned = ReaderNotStarted
          /\ cfgWaiter echoReturned = WaiterNotStarted)).
Proof.
  apply (task_quiescent_after_return (fun _ => echoCommand) None (fun _ => "5s")
           echoEngine echoFinal 0 echoSpec echoReturned).
  - apply (follow_runs _ _ _ _ (replicate 11 0%nat)). vm_compute. reflexivity.
  - reflexivity.
  - reflexivity.
  - reflexivity.
Defined.
